(** * Address book service: the CRUD layer over its relational store

    A shallow embedding of [backend/app] (models.py, schemas.py,
    database.py, crud.py, main.py).

    Modelling conventions.
    - Python [int] is [Z]; [Optional[T]] is [option T]; a nullable column
      is an [option].  An [int] that is bound into a statement (an id, an
      OFFSET, a LIMIT) is described within SQLite's 64-bit range only:
      beyond it the driver raises [OverflowError] before the statement
      runs.  A statement that depends on the range says so with
      [sqlite_integer].
    - [str] is [string].  One function, [lower], stands for Python's
      [str.lower] and for SQLite's [lower()]; the two agree on ASCII text,
      where they fold the 26 capitals, and not beyond it.  Where a
      statement depends on what [str.lower] makes of a value of the
      request, it says that the value [is_ascii].
    - The order in which a SELECT without ORDER BY, or with equal sort
      keys, gives its rows is not part of SQL.  [order_by] and [load_tags]
      give one such order; [ordered_by] and [same_contact] say what holds
      of every one.
    - A table is the list of its rows in insertion order.  A new row gets
      SQLite's next rowid: one more than the largest id in use, 1 in an
      empty table.
    - A [Session] carries the committed store and the view of the open
      transaction.  The session factory is built with [autoflush=False]:
      a query reads the transaction view only, and an object handed to
      [db.add] (or a changed attribute) reaches the database at the next
      flush.  The only flushes are the explicit [db.flush()] of
      [create_contact] and the one inside [db.commit()].
    - An exception is a [Raise] result; the session it leaves behind is
      returned with it. *)

From Stdlib Require Import List String Ascii ZArith Bool Lia Permutation Sorted.
Import ListNotations.
Local Open Scope string_scope.
Local Open Scope Z_scope.

(** ** Strings *)

Definition lower_ascii (c : ascii) : ascii :=
  let n := N_of_ascii c in
  if ((65 <=? n) && (n <=? 90))%N then ascii_of_N (n + 32) else c.

(** [str.lower()] on ASCII text, and SQL [lower()], which folds the 26
    ASCII capitals and nothing else. *)
Fixpoint lower (s : string) : string :=
  match s with
  | EmptyString => EmptyString
  | String c s' => String (lower_ascii c) (lower s')
  end.

(** SQL [column = value] on a nullable text column: a NULL never compares
    equal. *)
Definition sql_eq (column : option string) (value : string) : bool :=
  match column with
  | Some v => String.eqb v value
  | None => false
  end.

(** SQLite's [LIKE]: [%] stands for any run of characters, [_] for exactly
    one, any other character for itself up to ASCII case; there is no
    escape character. *)
Fixpoint like (pattern : string) : string -> bool :=
  match pattern with
  | EmptyString => fun s => match s with EmptyString => true | _ => false end
  | String p pattern' =>
      if Ascii.eqb p "%" then
        fix any_run (s : string) : bool :=
          like pattern' s
          || match s with
             | EmptyString => false
             | String _ s' => any_run s'
             end
      else if Ascii.eqb p "_" then
        fun s => match s with
                 | EmptyString => false
                 | String _ s' => like pattern' s'
                 end
      else
        fun s => match s with
                 | EmptyString => false
                 | String c s' =>
                     Ascii.eqb (lower_ascii p) (lower_ascii c) && like pattern' s'
                 end
  end.

(** [lower(column) LIKE pattern] on a nullable column; NULL is not a match. *)
Definition sql_lower_like (column : option string) (pattern : string) : bool :=
  match column with
  | Some v => like pattern (lower v)
  | None => false
  end.

(** ** models.py *)

Module models.

Module PhoneNumber.
Record t := mk {
  id : Z;
  contact_id : Z;
  number : string
}.
End PhoneNumber.

Module Address.
Record t := mk {
  id : Z;
  contact_id : Z;
  address : string
}.
End Address.

Module Tag.
Record t := mk {
  id : Z;
  name : string
}.
End Tag.

Module Contact.
Record t := mk {
  id : Z;
  name : string;
  email : option string;
  phone : option string;
  address : option string
}.

(** A [Contact] instance with its three relationships populated. *)
Record obj := mkObj {
  row : t;
  phone_numbers : list PhoneNumber.t;
  addresses : list Address.t;
  tags : list Tag.t
}.
End Contact.

End models.

Import models.

(** ** schemas.py *)

Module schemas.

Record PhoneNumberCreate := mkPhoneNumberCreate { number : string }.

Record AddressCreate := mkAddressCreate { address : string }.

Record ContactCreate := mkContactCreate {
  name : string;
  email : option string;
  phone : option string;
  phone_numbers : option (list PhoneNumberCreate);
  addresses : option (list AddressCreate);
  tags : option (list string)
}.

Record ContactUpdate := mkContactUpdate {
  u_name : option string;
  u_email : option string;
  u_phone : option string;
  u_phone_numbers : option (list PhoneNumberCreate);
  u_addresses : option (list AddressCreate);
  u_tags : option (list string)
}.

Record ContactListResponse := mkContactListResponse {
  contacts : list Contact.obj;
  total : Z;
  page : Z;
  page_size : Z;
  total_pages : Z
}.

End schemas.

(** ** database.py: the store and the session *)

Record Store := mkStore {
  contacts : list Contact.t;
  phone_numbers : list PhoneNumber.t;
  addresses : list Address.t;
  tags : list Tag.t;
  contact_tag_association : list (Z * Z)   (* (contact_id, tag_id) *)
}.

Definition empty_store : Store := mkStore [] [] [] [] [].

Definition set_contacts (s : Store) (l : list Contact.t) : Store :=
  mkStore l (phone_numbers s) (addresses s) (tags s) (contact_tag_association s).

Definition set_phone_numbers (s : Store) (l : list PhoneNumber.t) : Store :=
  mkStore (contacts s) l (addresses s) (tags s) (contact_tag_association s).

Definition set_addresses (s : Store) (l : list Address.t) : Store :=
  mkStore (contacts s) (phone_numbers s) l (tags s) (contact_tag_association s).

Definition set_tags (s : Store) (l : list Tag.t) : Store :=
  mkStore (contacts s) (phone_numbers s) (addresses s) l (contact_tag_association s).

Definition set_association (s : Store) (l : list (Z * Z)) : Store :=
  mkStore (contacts s) (phone_numbers s) (addresses s) (tags s) l.

(** *** SQL statements, with the constraints models.py declares *)

Definition next_rowid (ids : list Z) : Z :=
  match ids with
  | [] => 1
  | i :: rest => fold_left Z.max rest i + 1
  end.

Definition mem (i : Z) (l : list Z) : bool := existsb (Z.eqb i) l.

(** INSERT INTO contacts.  [Contact(name=, email=, phone=)] leaves the
    [address] column NULL. *)
Definition insert_contact (s : Store) (name : string) (email phone : option string)
    : Contact.t * Store :=
  let c := Contact.mk (next_rowid (map Contact.id (contacts s))) name email phone None in
  (c, set_contacts s (contacts s ++ [c])).

(** UPDATE contacts SET ... WHERE id = ... *)
Definition update_contact_row (s : Store) (c : Contact.t) : Store :=
  set_contacts s
    (map (fun r => if Contact.id r =? Contact.id c then c else r) (contacts s)).

(** INSERT INTO phone_numbers; [None] when [unique_phone_number] is
    violated. *)
Definition insert_phone_number (s : Store) (new : Z * string) : option Store :=
  let '(contact_id, number) := new in
  if existsb (fun p => String.eqb (PhoneNumber.number p) number) (phone_numbers s)
  then None
  else Some (set_phone_numbers s
               (phone_numbers s ++
                [PhoneNumber.mk (next_rowid (map PhoneNumber.id (phone_numbers s)))
                                contact_id number])).

(** INSERT INTO addresses; [None] when [unique_address] is violated. *)
Definition insert_address (s : Store) (new : Z * string) : option Store :=
  let '(contact_id, address) := new in
  if existsb (fun a => String.eqb (Address.address a) address) (addresses s)
  then None
  else Some (set_addresses s
               (addresses s ++
                [Address.mk (next_rowid (map Address.id (addresses s)))
                            contact_id address])).

(** INSERT INTO tags; [None] when the unique index on [name] is violated. *)
Definition insert_tag (s : Store) (name : string) : option (Tag.t * Store) :=
  if existsb (fun t => String.eqb (Tag.name t) name) (tags s)
  then None
  else let t := Tag.mk (next_rowid (map Tag.id (tags s))) name in
       Some (t, set_tags s (tags s ++ [t])).

(** INSERT INTO contact_tag_association; [None] when the primary key
    (contact_id, tag_id) is violated. *)
Definition insert_association (s : Store) (new : Z * Z) : option Store :=
  if existsb (fun a => (fst a =? fst new) && (snd a =? snd new))
             (contact_tag_association s)
  then None
  else Some (set_association s (contact_tag_association s ++ [new])).

Fixpoint insert_each {A} (ins : Store -> A -> option Store) (s : Store) (l : list A)
    : option Store :=
  match l with
  | [] => Some s
  | x :: l' =>
      match ins s x with
      | Some s' => insert_each ins s' l'
      | None => None
      end
  end.

(** DELETE FROM phone_numbers WHERE contact_id = ... *)
Definition delete_phone_numbers_of (s : Store) (contact_id : Z) : Store :=
  set_phone_numbers s
    (filter (fun p => negb (PhoneNumber.contact_id p =? contact_id)) (phone_numbers s)).

(** DELETE FROM addresses WHERE contact_id = ... *)
Definition delete_addresses_of (s : Store) (contact_id : Z) : Store :=
  set_addresses s
    (filter (fun a => negb (Address.contact_id a =? contact_id)) (addresses s)).

(** *** Relationship loading *)

(** The [tags] relationship of a contact: the tag rows reached through its
    association rows, here in the order of those rows (the join has no
    ORDER BY). *)
Definition load_tags (s : Store) (contact_id : Z) : list Tag.t :=
  flat_map (fun a => if fst a =? contact_id
                     then filter (fun t => Tag.id t =? snd a) (tags s)
                     else [])
           (contact_tag_association s).

(** [joinedload] of the three relationships. *)
Definition joinedload (s : Store) (c : Contact.t) : Contact.obj :=
  Contact.mkObj c
    (filter (fun p => PhoneNumber.contact_id p =? Contact.id c) (phone_numbers s))
    (filter (fun a => Address.contact_id a =? Contact.id c) (addresses s))
    (load_tags s (Contact.id c)).

(** *** The unit of work *)

(** A member of a [tags] collection: a row already in the table, or a new
    [Tag(name=...)] handed to [db.add] and not yet flushed. *)
Inductive TagRef :=
| Persistent (t : Tag.t)
| Pending (name : string).

(** What a commit has to flush: the changed contact row, the new child
    objects, the contact's [tags] collection as loaded ([original]) and as
    it now stands ([current]), and the object handed to [db.delete]. *)
Record UnitOfWork := mkUnitOfWork {
  dirty : option Contact.t;
  new_phone_numbers : list (Z * string);
  new_addresses : list (Z * string);
  tags_collection : option (Z * list Tag.t * list TagRef);
  deleted : option Contact.obj
}.

(** Deleting a contact: [cascade="all, delete-orphan"] deletes the rows of
    its [phone_numbers] and [addresses] collections, the [secondary] table
    loses the contact's rows, and the contact row goes.  The tables are
    taken to satisfy their primary and foreign keys, so that the loaded
    collections are the rows that carry the contact's id. *)
Definition delete_cascade (s : Store) (c : Contact.obj) : Store :=
  let contact_id := Contact.id (Contact.row c) in
  mkStore
    (filter (fun r => negb (Contact.id r =? contact_id)) (contacts s))
    (filter (fun p => negb (PhoneNumber.contact_id p =? contact_id)) (phone_numbers s))
    (filter (fun a => negb (Address.contact_id a =? contact_id)) (addresses s))
    (tags s)
    (filter (fun a => negb (fst a =? contact_id)) (contact_tag_association s)).

(** Inserts the new tags of a collection and gives the tag id of each
    member. *)
Fixpoint flush_new_tags (s : Store) (refs : list TagRef) : option (Store * list Z) :=
  match refs with
  | [] => Some (s, [])
  | Persistent t :: refs' =>
      match flush_new_tags s refs' with
      | Some (s', ids) => Some (s', Tag.id t :: ids)
      | None => None
      end
  | Pending name :: refs' =>
      match insert_tag s name with
      | Some (t, s1) =>
          match flush_new_tags s1 refs' with
          | Some (s', ids) => Some (s', Tag.id t :: ids)
          | None => None
          end
      | None => None
      end
  end.

(** A member that was in the collection when loaded and, after
    [clear()], was appended more than once.  [Tag.contacts], the other side
    of the relationship ([back_populates]), then counts the contact as
    added to the tag. *)
Definition appended_again (original_ids current_ids : list Z) : bool :=
  existsb (fun i => mem i original_ids
                    && (1 <? Z.of_nat (count_occ Z.eq_dec current_ids i)))
          current_ids.

(** A many-to-many collection is flushed from its history: association rows
    of members that left the collection are deleted, one row is inserted
    for each occurrence of a member that was not in it when loaded.  For a
    member that was [appended_again] the flush of [Tag.contacts] inserts
    the row that is there already, which the primary key of the association
    table refuses. *)
Definition flush_tags_collection (s : Store)
    (coll : option (Z * list Tag.t * list TagRef)) : option Store :=
  match coll with
  | None => Some s
  | Some (contact_id, original, current) =>
      match flush_new_tags s current with
      | None => None
      | Some (s1, current_ids) =>
          let original_ids := map Tag.id original in
          if appended_again original_ids current_ids then None else
          let s2 := set_association s1
                      (filter (fun a => negb ((fst a =? contact_id)
                                              && mem (snd a) original_ids
                                              && negb (mem (snd a) current_ids)))
                              (contact_tag_association s1)) in
          insert_each insert_association s2
            (map (fun i => (contact_id, i))
                 (filter (fun i => negb (mem i original_ids)) current_ids))
      end
  end.

Definition flush (s : Store) (u : UnitOfWork) : option Store :=
  let s := match dirty u with Some c => update_contact_row s c | None => s end in
  match insert_each insert_phone_number s (new_phone_numbers u) with
  | None => None
  | Some s =>
      match insert_each insert_address s (new_addresses u) with
      | None => None
      | Some s =>
          match flush_tags_collection s (tags_collection u) with
          | None => None
          | Some s =>
              Some (match deleted u with Some c => delete_cascade s c | None => s end)
          end
      end
  end.

(** *** Sessions *)

Record Session := mkSession {
  committed : Store;
  txn : Store
}.

(** [SessionLocal()]: a session whose transaction starts at the committed
    store. *)
Definition SessionLocal (s : Store) : Session := mkSession s s.

(** [db.close()]: the open transaction is rolled back. *)
Definition close (db : Session) : Store := committed db.

Inductive exn :=
| ValueError (msg : string)
| IntegrityError.

Inductive result (A : Type) :=
| Ok (a : A)
| Raise (e : exn).
Arguments Ok {A} a.
Arguments Raise {A} e.

(** Code that runs against a session and may raise. *)
Definition M (A : Type) : Type := Session -> result A * Session.

Definition ret {A} (a : A) : M A := fun db => (Ok a, db).

Definition raise {A} (e : exn) : M A := fun db => (Raise e, db).

Definition bind {A B} (m : M A) (k : A -> M B) : M B :=
  fun db =>
    match m db with
    | (Ok a, db') => k a db'
    | (Raise e, db') => (Raise e, db')
    end.

Declare Scope session_scope.
Delimit Scope session_scope with session.
Notation "x <- m ;; k" := (bind m (fun x => k))
  (at level 61, m at next level, right associativity) : session_scope.
Notation "m ;; k" := (bind m (fun _ => k))
  (at level 61, right associativity) : session_scope.
Local Open Scope session_scope.

(** A query: reads the transaction view, changes nothing. *)
Definition query {A} (q : Session -> A) : M A := fun db => (Ok (q db), db).

(** A statement executed at once in the open transaction. *)
Definition execute (stmt : Store -> Store) : M unit :=
  fun db => (Ok tt, mkSession (committed db) (stmt (txn db))).

(** [db.commit()]: flush, then commit.  A constraint violated during the
    flush rolls the transaction back and raises. *)
Definition commit (u : UnitOfWork) : M unit :=
  fun db =>
    match flush (txn db) u with
    | Some s => (Ok tt, mkSession s s)
    | None => (Raise IntegrityError, mkSession (committed db) (committed db))
    end.

Fixpoint for_each {A} (l : list A) (body : A -> M unit) : M unit :=
  match l with
  | [] => ret tt
  | x :: l' => body x ;; for_each l' body
  end.

(** [query.first()] *)
Definition first {A} (rows : list A) : option A := hd_error rows.

Definition is_some {A} (o : option A) : bool :=
  match o with Some _ => true | None => false end.

Definition or_empty {A} (l : option (list A)) : list A :=
  match l with Some l => l | None => [] end.

(** *** Ordering, paging and joins *)

Inductive Column := col_id | col_name | col_email | col_phone | col_address.

Inductive SqlValue :=
| Null
| Integer (z : Z)
| Text (s : string).

Definition text_or_null (v : option string) : SqlValue :=
  match v with Some s => Text s | None => Null end.

Definition column_value (col : Column) (c : Contact.t) : SqlValue :=
  match col with
  | col_id => Integer (Contact.id c)
  | col_name => Text (Contact.name c)
  | col_email => text_or_null (Contact.email c)
  | col_phone => text_or_null (Contact.phone c)
  | col_address => text_or_null (Contact.address c)
  end.

(** SQLite's sort order: NULL first, then numbers, then text compared
    byte by byte. *)
Definition value_leb (a b : SqlValue) : bool :=
  match a, b with
  | Null, _ => true
  | _, Null => false
  | Integer x, Integer y => x <=? y
  | Integer _, Text _ => true
  | Text _, Integer _ => false
  | Text x, Text y => String.leb x y
  end.

(** [column] or [column.desc()]. *)
Definition precedes (col : Column) (desc : bool) (a b : Contact.t) : bool :=
  if desc then value_leb (column_value col b) (column_value col a)
  else value_leb (column_value col a) (column_value col b).

Fixpoint insert_by (le : Contact.t -> Contact.t -> bool) (x : Contact.t)
    (l : list Contact.t) : list Contact.t :=
  match l with
  | [] => [x]
  | y :: l' => if le x y then x :: l else y :: insert_by le x l'
  end.

(** ORDER BY.  SQL leaves the order of rows with equal keys open, and
    SQLite's depends on how it runs the query; here they stay in table
    order, which is one of the orders allowed. *)
Definition order_by (col : Column) (desc : bool) (rows : list Contact.t)
    : list Contact.t :=
  fold_right (insert_by (precedes col desc)) [] rows.

(** OFFSET and LIMIT as SQLite reads them: a negative offset is no offset,
    a negative limit is no limit. *)
Definition offset_limit {A} (skip limit : Z) (rows : list A) : list A :=
  let rows := skipn (Z.to_nat skip) rows in
  if limit <? 0 then rows else firstn (Z.to_nat limit) rows.

Definition option_string_eqb (a b : option string) : bool :=
  match a, b with
  | Some x, Some y => String.eqb x y
  | None, None => true
  | _, _ => false
  end.

Definition contact_eqb (a b : Contact.t) : bool :=
  (Contact.id a =? Contact.id b)
  && String.eqb (Contact.name a) (Contact.name b)
  && option_string_eqb (Contact.email a) (Contact.email b)
  && option_string_eqb (Contact.phone a) (Contact.phone b)
  && option_string_eqb (Contact.address a) (Contact.address b).

(** SELECT DISTINCT over the contact columns. *)
Fixpoint distinct (rows : list Contact.t) : list Contact.t :=
  match rows with
  | [] => []
  | r :: rest => r :: filter (fun x => negb (contact_eqb x r)) (distinct rest)
  end.

(** A row of the joined FROM clause of a search. *)
Record JoinRow := mkJoinRow {
  j_contact : Contact.t;
  j_phone : option PhoneNumber.t;   (* the outer-joined phone_numbers alias *)
  j_tag : option Tag.t              (* the joined tags alias *)
}.

(** LEFT OUTER JOIN phone_numbers ON contacts.id = phone_numbers.contact_id *)
Definition outerjoin_phone_numbers (s : Store) (rows : list JoinRow) : list JoinRow :=
  flat_map (fun r =>
    match filter (fun p => PhoneNumber.contact_id p =? Contact.id (j_contact r))
                 (phone_numbers s) with
    | [] => [mkJoinRow (j_contact r) None (j_tag r)]
    | ps => map (fun p => mkJoinRow (j_contact r) (Some p) (j_tag r)) ps
    end) rows.

(** JOIN along [Contact.tags] (through the association table). *)
Definition join_tags (s : Store) (rows : list JoinRow) : list JoinRow :=
  flat_map (fun r =>
    map (fun t => mkJoinRow (j_contact r) (j_phone r) (Some t))
        (load_tags s (Contact.id (j_contact r)))) rows.

(** What [getattr(models.Contact, name, default)] finds. *)
Inductive Attribute :=
| ColumnAttribute (col : Column)
| OtherAttribute.

(** The class body of [Contact] declares five columns, three relationships
    and [__tablename__]; [inherited] tells which further names the class
    gets from the declarative base. *)
Definition getattr_Contact (inherited : string -> bool) (name : string)
    (default : Attribute) : Attribute :=
  if String.eqb name "id" then ColumnAttribute col_id
  else if String.eqb name "name" then ColumnAttribute col_name
  else if String.eqb name "email" then ColumnAttribute col_email
  else if String.eqb name "phone" then ColumnAttribute col_phone
  else if String.eqb name "address" then ColumnAttribute col_address
  else if String.eqb name "phone_numbers" || String.eqb name "addresses"
          || String.eqb name "tags" || String.eqb name "__tablename__"
          || inherited name
  then OtherAttribute
  else default.

(** ** crud.py *)

Module crud.

Definition phone_message (value : string) : string :=
  "Phone number '" ++ value ++ "' is already assigned to another contact".

Definition address_message (value : string) : string :=
  "Address '" ++ value ++ "' is already assigned to another contact".

Definition check_phone_number_exists
    (phone_number : option string) (exclude_contact_id : option Z) : M bool :=
  match phone_number with
  | None | Some EmptyString => ret false
  | Some phone_number =>
      let q := fun s => filter (fun c => sql_eq (Contact.phone c) phone_number)
                               (contacts s) in
      let q := match exclude_contact_id with
               | Some e => if negb (e =? 0)
                           then fun s => filter (fun c => negb (Contact.id c =? e)) (q s)
                           else q
               | None => q
               end in
      r <- query (fun db => first (q (txn db))) ;;
      if is_some r then ret true else
      let q := fun s => filter (fun p => String.eqb (PhoneNumber.number p) phone_number)
                               (phone_numbers s) in
      let q := match exclude_contact_id with
               | Some e => if negb (e =? 0)
                           then fun s => filter (fun p => negb (PhoneNumber.contact_id p =? e)) (q s)
                           else q
               | None => q
               end in
      r <- query (fun db => first (q (txn db))) ;;
      if is_some r then ret true else
      ret false
  end.

Definition check_address_exists
    (address : option string) (exclude_contact_id : option Z) : M bool :=
  match address with
  | None | Some EmptyString => ret false
  | Some address =>
      let q := fun s => filter (fun c => sql_eq (Contact.address c) address)
                               (contacts s) in
      let q := match exclude_contact_id with
               | Some e => if negb (e =? 0)
                           then fun s => filter (fun c => negb (Contact.id c =? e)) (q s)
                           else q
               | None => q
               end in
      r <- query (fun db => first (q (txn db))) ;;
      if is_some r then ret true else
      let q := fun s => filter (fun a => String.eqb (Address.address a) address)
                               (addresses s) in
      let q := match exclude_contact_id with
               | Some e => if negb (e =? 0)
                           then fun s => filter (fun a => negb (Address.contact_id a =? e)) (q s)
                           else q
               | None => q
               end in
      r <- query (fun db => first (q (txn db))) ;;
      if is_some r then ret true else
      ret false
  end.

(** The tag loop shared by create and update: look the lowercased name up,
    make a new [Tag] when the query finds none, append to the collection. *)
Fixpoint append_tags (tag_names : list string) (collection : list TagRef)
    : M (list TagRef) :=
  match tag_names with
  | [] => ret collection
  | tag_name :: rest =>
      db_tag <- query (fun db =>
                  first (filter (fun t => String.eqb (Tag.name t) (lower tag_name))
                                (tags (txn db)))) ;;
      let db_tag := match db_tag with
                    | Some t => Persistent t
                    | None => Pending (lower tag_name)
                    end in
      append_tags rest (collection ++ [db_tag])
  end.

(** [db.add(db_contact); db.flush()]: the row is inserted and gets its id. *)
Definition add_and_flush_contact (name : string) (email phone : option string)
    : M Contact.t :=
  fun db =>
    let '(c, s) := insert_contact (txn db) name email phone in
    (Ok c, mkSession (committed db) s).

Definition create_contact (contact : schemas.ContactCreate) : M Contact.obj :=
  match schemas.phone contact with
  | Some ((String _ _) as phone) =>
      conflict <- check_phone_number_exists (Some phone) None ;;
      if (conflict : bool) then raise (ValueError (phone_message phone)) else ret tt
  | _ => ret tt
  end ;;
  for_each (or_empty (schemas.phone_numbers contact)) (fun phone_data =>
    conflict <- check_phone_number_exists (Some (schemas.number phone_data)) None ;;
    if (conflict : bool)
    then raise (ValueError (phone_message (schemas.number phone_data)))
    else ret tt) ;;
  for_each (or_empty (schemas.addresses contact)) (fun address_data =>
    conflict <- check_address_exists (Some (schemas.address address_data)) None ;;
    if (conflict : bool)
    then raise (ValueError (address_message (schemas.address address_data)))
    else ret tt) ;;
  db_contact <- add_and_flush_contact (schemas.name contact) (schemas.email contact)
                                      (schemas.phone contact) ;;
  let new_phone_numbers :=
    map (fun phone_data => (Contact.id db_contact, schemas.number phone_data))
        (or_empty (schemas.phone_numbers contact)) in
  let new_addresses :=
    map (fun address_data => (Contact.id db_contact, schemas.address address_data))
        (or_empty (schemas.addresses contact)) in
  tags_collection <-
    match schemas.tags contact with
    | Some ((_ :: _) as tag_names) =>
        original <- query (fun db => load_tags (txn db) (Contact.id db_contact)) ;;
        current <- append_tags tag_names (map Persistent original) ;;
        ret (Some (Contact.id db_contact, original, current))
    | _ => ret None
    end ;;
  commit (mkUnitOfWork None new_phone_numbers new_addresses tags_collection None) ;;
  query (fun db => joinedload (txn db) db_contact).

Definition get_contact (contact_id : Z) : M (option Contact.obj) :=
  query (fun db =>
    option_map (joinedload (txn db))
      (first (filter (fun c => Contact.id c =? contact_id) (contacts (txn db))))).

Definition with_name (c : Contact.t) (name : string) : Contact.t :=
  Contact.mk (Contact.id c) name (Contact.email c) (Contact.phone c) (Contact.address c).

Definition with_email (c : Contact.t) (email : string) : Contact.t :=
  Contact.mk (Contact.id c) (Contact.name c) (Some email) (Contact.phone c) (Contact.address c).

Definition with_phone (c : Contact.t) (phone : string) : Contact.t :=
  Contact.mk (Contact.id c) (Contact.name c) (Contact.email c) (Some phone) (Contact.address c).

Definition update_contact (contact_id : Z) (contact_update : schemas.ContactUpdate)
    : M (option Contact.obj) :=
  loaded <- get_contact contact_id ;;
  match loaded with
  | None => ret None
  | Some loaded =>
      let db_contact := Contact.row loaded in
      let db_contact := match schemas.u_name contact_update with
                        | Some name => with_name db_contact name
                        | None => db_contact
                        end in
      let db_contact := match schemas.u_email contact_update with
                        | Some email => with_email db_contact email
                        | None => db_contact
                        end in
      db_contact <-
        match schemas.u_phone contact_update with
        | Some phone =>
            conflict <- check_phone_number_exists (Some phone) (Some contact_id) ;;
            if (conflict : bool) then raise (ValueError (phone_message phone))
            else ret (with_phone db_contact phone)
        | None => ret db_contact
        end ;;
      new_phone_numbers <-
        match schemas.u_phone_numbers contact_update with
        | Some phone_numbers =>
            for_each phone_numbers (fun phone_data =>
              conflict <- check_phone_number_exists (Some (schemas.number phone_data))
                                                    (Some contact_id) ;;
              if (conflict : bool)
              then raise (ValueError (phone_message (schemas.number phone_data)))
              else ret tt) ;;
            execute (fun s => delete_phone_numbers_of s contact_id) ;;
            ret (map (fun phone_data => (contact_id, schemas.number phone_data))
                     phone_numbers)
        | None => ret []
        end ;;
      new_addresses <-
        match schemas.u_addresses contact_update with
        | Some addresses =>
            for_each addresses (fun address_data =>
              conflict <- check_address_exists (Some (schemas.address address_data))
                                               (Some contact_id) ;;
              if (conflict : bool)
              then raise (ValueError (address_message (schemas.address address_data)))
              else ret tt) ;;
            execute (fun s => delete_addresses_of s contact_id) ;;
            ret (map (fun address_data => (contact_id, schemas.address address_data))
                     addresses)
        | None => ret []
        end ;;
      tags_collection <-
        match schemas.u_tags contact_update with
        | Some tag_names =>
            current <- append_tags tag_names [] ;;
            ret (Some (contact_id, Contact.tags loaded, current))
        | None => ret None
        end ;;
      commit (mkUnitOfWork (Some db_contact) new_phone_numbers new_addresses
                           tags_collection None) ;;
      refreshed <- query (fun db => joinedload (txn db) db_contact) ;;
      ret (Some refreshed)
  end.

Definition delete_contact (contact_id : Z) : M bool :=
  db_contact <- get_contact contact_id ;;
  match db_contact with
  | None => ret false
  | Some db_contact =>
      commit (mkUnitOfWork None [] [] None (Some db_contact)) ;;
      ret true
  end.

(** [inherited]: see [getattr_Contact].  The result is [None] when
    [sort_by] names an attribute that is not a column; what the ORM makes
    of such an ORDER BY is not described here. *)
Definition get_contacts (inherited : string -> bool)
    (skip limit : Z) (sort_by sort_order : string)
    : M (option (list Contact.obj * Z)) :=
  match getattr_Contact inherited sort_by (ColumnAttribute col_name) with
  | OtherAttribute => ret None
  | ColumnAttribute sort_column =>
      let desc := String.eqb sort_order "desc" in
      let q := fun s => order_by sort_column desc (contacts s) in
      total <- query (fun db => Z.of_nat (List.length (q (txn db)))) ;;
      contacts <- query (fun db =>
                    map (joinedload (txn db)) (offset_limit skip limit (q (txn db)))) ;;
      ret (Some (contacts, total))
  end.

Definition matches_search_term (search_term : string) (r : JoinRow) : bool :=
  sql_lower_like (Some (Contact.name (j_contact r))) search_term
  || sql_lower_like (Contact.email (j_contact r)) search_term
  || sql_lower_like (Contact.phone (j_contact r)) search_term
  || sql_lower_like (option_map PhoneNumber.number (j_phone r)) search_term.

Definition matches_tag (tag : string) (r : JoinRow) : bool :=
  match j_tag r with
  | Some t => String.eqb (lower (Tag.name t)) (lower tag)
  | None => false
  end.

(** The FROM/WHERE part of a search, before DISTINCT and ORDER BY. *)
Definition search_rows (query tag : option string) (s : Store) : list JoinRow :=
  let db_query := map (fun c => mkJoinRow c None None) (contacts s) in
  let db_query :=
    match query with
    | Some ((String _ _) as query) =>
        let search_term := "%" ++ lower query ++ "%" in
        filter (matches_search_term search_term) (outerjoin_phone_numbers s db_query)
    | _ => db_query
    end in
  let db_query :=
    match tag with
    | Some ((String _ _) as tag) => filter (matches_tag tag) (join_tags s db_query)
    | _ => db_query
    end in
  db_query.

Definition search_contacts (inherited : string -> bool)
    (query_ tag : option string) (skip limit : Z) (sort_by sort_order : string)
    : M (option (list Contact.obj * Z)) :=
  match getattr_Contact inherited sort_by (ColumnAttribute col_name) with
  | OtherAttribute => ret None
  | ColumnAttribute sort_column =>
      let desc := String.eqb sort_order "desc" in
      let q := fun s => order_by sort_column desc
                          (distinct (map j_contact (search_rows query_ tag s))) in
      total <- query (fun db => Z.of_nat (List.length (q (txn db)))) ;;
      contacts <- query (fun db =>
                    map (joinedload (txn db)) (offset_limit skip limit (q (txn db)))) ;;
      ret (Some (contacts, total))
  end.

End crud.

(** ** main.py: the request handlers *)

(** A handler is described up to what it returns or raises: [Reply status
    body] says that the function returned [body] on a route declared with
    [status_code=status].  What the framework does with that value then,
    serializing it through the route's [response_model], is not part of
    the handler and is not described: a returned contact that carries a
    tag name outside 1 to 50 characters fails there and is answered with
    500, after the commit. *)

Module main.

(** The [get_db] dependency: every request gets a session of its own, which
    is closed when the handler is left, whether it returned or raised. *)
Definition get_db {A} (handler : M A) (s : Store) : result A * Store :=
  let '(r, db) := handler (SessionLocal s) in (r, close db).

Inductive Response (A : Type) :=
| Reply (status_code : Z) (body : A)
| HTTPException (status_code : Z) (detail : string).
Arguments Reply {A} status_code body.
Arguments HTTPException {A} status_code detail.

Definition contains (needle haystack : string) : bool :=
  is_some (String.index 0 needle haystack).

(** The two [except] clauses shared by create and update.  The driver's
    text of an integrity error names the violated UNIQUE constraint; it is
    left out of the detail. *)
Definition handle_exception {A} (e : exn) : Response A :=
  match e with
  | ValueError msg =>
      if contains "already assigned" (lower msg)
      then HTTPException 422 msg
      else HTTPException 400 msg
  | IntegrityError =>
      HTTPException 422 "Phone number or address already assigned to another contact: "
  end.

Definition create_contact (contact : schemas.ContactCreate) (s : Store)
    : Response Contact.obj * Store :=
  match get_db (crud.create_contact contact) s with
  | (Ok c, s') => (Reply 201 c, s')
  | (Raise e, s') => (handle_exception e, s')
  end.

Definition list_contacts (inherited : string -> bool)
    (page page_size : Z) (sort_by sort_order : string)
    : M (option schemas.ContactListResponse) :=
  let skip := (page - 1) * page_size in
  r <- crud.get_contacts inherited skip page_size sort_by sort_order ;;
  match r with
  | None => ret None
  | Some (contacts, total) =>
      let total_pages := (total + page_size - 1) / page_size in
      ret (Some (schemas.mkContactListResponse contacts total page page_size total_pages))
  end.

Definition search_contacts (inherited : string -> bool)
    (query_ tag : option string) (page page_size : Z) (sort_by sort_order : string)
    : M (option schemas.ContactListResponse) :=
  let skip := (page - 1) * page_size in
  r <- crud.search_contacts inherited query_ tag skip page_size sort_by sort_order ;;
  match r with
  | None => ret None
  | Some (contacts, total) =>
      let total_pages := (total + page_size - 1) / page_size in
      ret (Some (schemas.mkContactListResponse contacts total page page_size total_pages))
  end.

(** The 404 for a contact that is not found is raised inside the [try]:
    the handler's own [except Exception] catches it and, its text
    [str(e)], "404: Contact not found", naming no constraint, raises it
    again as a 400 with that text as detail. *)
Definition update_contact (contact_id : Z) (contact_update : schemas.ContactUpdate)
    (s : Store) : Response Contact.obj * Store :=
  match get_db (crud.update_contact contact_id contact_update) s with
  | (Ok (Some c), s') => (Reply 200 c, s')
  | (Ok None, s') => (HTTPException 400 "404: Contact not found", s')
  | (Raise e, s') => (handle_exception e, s')
  end.

(** An exception that no [except] clause of a handler catches is answered
    with status 500. *)
Definition delete_contact (contact_id : Z) (s : Store) : Response unit * Store :=
  match get_db (crud.delete_contact contact_id) s with
  | (Ok true, s') => (Reply 204 tt, s')
  | (Ok false, s') => (HTTPException 404 "Contact not found", s')
  | (Raise e, s') => (HTTPException 500 "Internal Server Error", s')
  end.

End main.

(** * Vocabulary of the statements *)

Import models.

(** The contact id a check really leaves out: [if exclude_contact_id:] is
    false for [None] and for [0]. *)
Definition effective_exclusion (exclude_contact_id : option Z) : option Z :=
  match exclude_contact_id with
  | Some e => if e =? 0 then None else Some e
  | None => None
  end.

Definition kept (exclusion : option Z) (owner : Z) : bool :=
  match exclusion with
  | Some e => negb (owner =? e)
  | None => true
  end.

Definition phone_existsb (s : Store) (v : option string) (exclusion : option Z) : bool :=
  match v with
  | Some ((String _ _) as p) =>
      existsb (fun c => sql_eq (Contact.phone c) p && kept exclusion (Contact.id c))
              (contacts s)
      || existsb (fun r => String.eqb (PhoneNumber.number r) p
                           && kept exclusion (PhoneNumber.contact_id r))
                 (phone_numbers s)
  | _ => false
  end.

Definition address_existsb (s : Store) (v : option string) (exclusion : option Z) : bool :=
  match v with
  | Some ((String _ _) as p) =>
      existsb (fun c => sql_eq (Contact.address c) p && kept exclusion (Contact.id c))
              (contacts s)
      || existsb (fun r => String.eqb (Address.address r) p
                           && kept exclusion (Address.contact_id r))
                 (addresses s)
  | _ => false
  end.

(** Some contact other than the excluded one holds [v] as its scalar
    phone, or some phone-number row of another contact carries it. *)
Definition phone_claimed (s : Store) (v : string) (exclusion : option Z) : Prop :=
  (exists c, In c (contacts s) /\ Contact.phone c = Some v
             /\ forall e, exclusion = Some e -> Contact.id c <> e)
  \/ (exists r, In r (phone_numbers s) /\ PhoneNumber.number r = v
                /\ forall e, exclusion = Some e -> PhoneNumber.contact_id r <> e).

Definition address_claimed (s : Store) (v : string) (exclusion : option Z) : Prop :=
  (exists c, In c (contacts s) /\ Contact.address c = Some v
             /\ forall e, exclusion = Some e -> Contact.id c <> e)
  \/ (exists r, In r (addresses s) /\ Address.address r = v
                /\ forall e, exclusion = Some e -> Address.contact_id r <> e).

(** A store in which the contact with id 0 holds the phone "5". *)
Definition store_with_contact_zero : Store :=
  mkStore [Contact.mk 0 "Zed" None (Some "5") None] [] [] [] [].

(** A create request asks for the phone value [v], as its scalar phone or
    in its phone-number list, and the store already holds [v]. *)
Definition create_phone_conflict (s : Store) (contact : schemas.ContactCreate)
    (v : string) : Prop :=
  (schemas.phone contact = Some v
   \/ In (schemas.mkPhoneNumberCreate v) (or_empty (schemas.phone_numbers contact)))
  /\ v <> "" /\ phone_claimed s v None.

Definition create_address_conflict (s : Store) (contact : schemas.ContactCreate)
    (v : string) : Prop :=
  In (schemas.mkAddressCreate v) (or_empty (schemas.addresses contact))
  /\ v <> "" /\ address_claimed s v None.

Definition john_doe : schemas.ContactCreate :=
  schemas.mkContactCreate "John Doe" None (Some "1234567890") (Some []) (Some []) (Some []).

Definition jane : schemas.ContactCreate :=
  schemas.mkContactCreate "Jane" None None
    (Some [schemas.mkPhoneNumberCreate "1234567890"]) (Some []) (Some []).

(** An update of contact [contact_id] supplies the phone value [v], as the
    scalar phone or in the phone-number list, and a contact other than
    [contact_id] holds [v]. *)
Definition update_phone_conflict (s : Store) (contact_id : Z)
    (contact_update : schemas.ContactUpdate) (v : string) : Prop :=
  (schemas.u_phone contact_update = Some v
   \/ exists l, schemas.u_phone_numbers contact_update = Some l
                /\ In (schemas.mkPhoneNumberCreate v) l)
  /\ v <> "" /\ phone_claimed s v (Some contact_id).

Definition update_address_conflict (s : Store) (contact_id : Z)
    (contact_update : schemas.ContactUpdate) (v : string) : Prop :=
  (exists l, schemas.u_addresses contact_update = Some l
             /\ In (schemas.mkAddressCreate v) l)
  /\ v <> "" /\ address_claimed s v (Some contact_id).

(** John with phone "1234567890" and Jane with phone "9876543210". *)
Definition john_and_jane : Store :=
  mkStore [Contact.mk 1 "John" None (Some "1234567890") None;
           Contact.mk 2 "Jane" None (Some "9876543210") None] [] [] [] [].

Definition jane_takes_johns_phone : schemas.ContactUpdate :=
  schemas.mkContactUpdate None None (Some "1234567890") None None None.



(** Rows in the order of column [col], ascending or descending. *)
Definition ordered_by (col : Column) (desc : bool) (rows : list Contact.t) : Prop :=
  Sorted (fun a b => precedes col desc a b = true) rows.


(** The store after creating "Contact 0" .. "Contact 4" one by one. *)
Definition five_contacts : Store :=
  fold_left (fun s name =>
               snd (main.create_contact
                      (schemas.mkContactCreate name None None (Some []) (Some []) (Some []))
                      s))
            ["Contact 0"; "Contact 1"; "Contact 2"; "Contact 3"; "Contact 4"]
            empty_store.

(** [field], lowercased, has the lowercased [q] as a substring. *)
Definition contains_ci (field q : string) : Prop :=
  exists pre post, lower field = pre ++ lower q ++ post.

(** One of the four searched values of contact [c] contains [q]. *)
Definition contact_contains (s : Store) (c : Contact.t) (q : string) : Prop :=
  contains_ci (Contact.name c) q
  \/ (exists v, Contact.email c = Some v /\ contains_ci v q)
  \/ (exists v, Contact.phone c = Some v /\ contains_ci v q)
  \/ (exists r, In r (phone_numbers s) /\ PhoneNumber.contact_id r = Contact.id c
                /\ contains_ci (PhoneNumber.number r) q).

(** Contact [c] has a tag whose name is [tag] up to case. *)
Definition contact_tagged (s : Store) (c : Contact.t) (tag : string) : Prop :=
  exists t, In t (load_tags s (Contact.id c)) /\ lower (Tag.name t) = lower tag.

(** The whole result of a search, before ordering and paging. *)
Definition search_result (q tag : option string) (s : Store) : list Contact.t :=
  distinct (map j_contact (crud.search_rows q tag s)).

Fixpoint wildcard_free (q : string) : bool :=
  match q with
  | EmptyString => true
  | String c q' => negb (Ascii.eqb c "%") && negb (Ascii.eqb c "_") && wildcard_free q'
  end.

Definition two_case_variants : schemas.ContactCreate :=
  schemas.mkContactCreate "Ann" None None (Some []) (Some []) (Some ["Friend"; "friend"]).

Definition tagged (name tag : string) : schemas.ContactCreate :=
  schemas.mkContactCreate name None None (Some []) (Some []) (Some [tag]).

(** The store after Ann has been created with the tag "Friend". *)
Definition ann_with_friend : Store :=
  snd (main.create_contact (tagged "Ann" "Friend") empty_store).

Definition retag (tag_names : list string) : schemas.ContactUpdate :=
  schemas.mkContactUpdate None None None None None (Some tag_names).

(** *** The write path of create and update, spelled out *)

(** What the tag loop appends for one name. *)
Definition resolve_tag (s : Store) (tag_name : string) : TagRef :=
  match first (filter (fun t => String.eqb (Tag.name t) (lower tag_name)) (tags s)) with
  | Some t => Persistent t
  | None => Pending (lower tag_name)
  end.

(** The unit of work [create_contact] commits, once the contact row has
    been flushed into [s1] as [db_contact]. *)
Definition create_unit_of_work (s1 : Store) (db_contact : Contact.t)
    (contact : schemas.ContactCreate) : UnitOfWork :=
  mkUnitOfWork None
    (map (fun phone_data => (Contact.id db_contact, schemas.number phone_data))
         (or_empty (schemas.phone_numbers contact)))
    (map (fun address_data => (Contact.id db_contact, schemas.address address_data))
         (or_empty (schemas.addresses contact)))
    (match schemas.tags contact with
     | Some ((_ :: _) as tag_names) =>
         Some (Contact.id db_contact,
               load_tags s1 (Contact.id db_contact),
               (map Persistent (load_tags s1 (Contact.id db_contact))
                ++ map (resolve_tag s1) tag_names)%list)
     | _ => None
     end)
    None.

(** The store a create commits when no check fails; [None] when the flush
    violates a constraint. *)
Definition committed_create (s : Store) (contact : schemas.ContactCreate)
    : option (Contact.t * Store) :=
  let cs := insert_contact s (schemas.name contact) (schemas.email contact)
                           (schemas.phone contact) in
  match flush (snd cs) (create_unit_of_work (snd cs) (fst cs) contact) with
  | Some s' => Some (fst cs, s')
  | None => None
  end.

(** The contact row as [update_contact] leaves it. *)
Definition updated_row (c : Contact.t) (contact_update : schemas.ContactUpdate)
    : Contact.t :=
  let c := match schemas.u_name contact_update with
           | Some name => crud.with_name c name
           | None => c
           end in
  let c := match schemas.u_email contact_update with
           | Some email => crud.with_email c email
           | None => c
           end in
  match schemas.u_phone contact_update with
  | Some phone => crud.with_phone c phone
  | None => c
  end.

(** The bulk deletes an update executes before its commit. *)
Definition update_statements (s : Store) (contact_id : Z)
    (contact_update : schemas.ContactUpdate) : Store :=
  let s := match schemas.u_phone_numbers contact_update with
           | Some _ => delete_phone_numbers_of s contact_id
           | None => s
           end in
  match schemas.u_addresses contact_update with
  | Some _ => delete_addresses_of s contact_id
  | None => s
  end.

Definition update_unit_of_work (s : Store) (c : Contact.t) (contact_id : Z)
    (contact_update : schemas.ContactUpdate) : UnitOfWork :=
  mkUnitOfWork (Some (updated_row c contact_update))
    (match schemas.u_phone_numbers contact_update with
     | Some l => map (fun phone_data => (contact_id, schemas.number phone_data)) l
     | None => []
     end)
    (match schemas.u_addresses contact_update with
     | Some l => map (fun address_data => (contact_id, schemas.address address_data)) l
     | None => []
     end)
    (match schemas.u_tags contact_update with
     | Some tag_names =>
         Some (contact_id, load_tags s (Contact.id c), map (resolve_tag s) tag_names)
     | None => None
     end)
    None.

(** The store an update of row [c] commits when no check fails. *)
Definition committed_update (s : Store) (c : Contact.t) (contact_id : Z)
    (contact_update : schemas.ContactUpdate) : option Store :=
  flush (update_statements s contact_id contact_update)
        (update_unit_of_work s c contact_id contact_update).

(** *** Stores the service can get into *)

(** The stores reached from the empty one by requests that succeed. *)
Inductive reachable : Store -> Prop :=
| reach_empty : reachable empty_store
| reach_create s contact created s' :
    reachable s ->
    main.create_contact contact s = (main.Reply 201 created, s') ->
    reachable s'
| reach_update s contact_id contact_update updated s' :
    reachable s ->
    main.update_contact contact_id contact_update s = (main.Reply 200 updated, s') ->
    reachable s'
| reach_delete s contact_id s' :
    reachable s ->
    main.delete_contact contact_id s = (main.Reply 204 tt, s') ->
    reachable s'.

(** Every phone value of the store: the scalar phones of the contacts, then
    the numbers of the phone-number rows. *)
Definition phone_values (s : Store) : list string :=
  (flat_map (fun c => match Contact.phone c with Some v => [v] | None => [] end)
            (contacts s)
   ++ map PhoneNumber.number (phone_numbers s))%list.

(** The contact [owner] holds the phone value [v], as its scalar phone or
    in one of its rows. *)
Definition holds_phone (s : Store) (v : string) (owner : Z) : Prop :=
  (exists c, In c (contacts s) /\ Contact.phone c = Some v /\ Contact.id c = owner)
  \/ (exists r, In r (phone_numbers s) /\ PhoneNumber.number r = v
                /\ PhoneNumber.contact_id r = owner).

Definition phone_invariant (s : Store) : Prop :=
  NoDup (map PhoneNumber.number (phone_numbers s))
  /\ NoDup (map Contact.id (contacts s))
  /\ forall v, v <> "" ->
       forall o1 o2, holds_phone s v o1 -> holds_phone s v o2 -> o1 = o2.

Definition ann_twice : schemas.ContactCreate :=
  schemas.mkContactCreate "Ann" None (Some "1")
    (Some [schemas.mkPhoneNumberCreate "1"]) (Some []) (Some []).

Definition no_phone (name : string) : schemas.ContactCreate :=
  schemas.mkContactCreate name None (Some "") (Some []) (Some []) (Some []).

(** The tag table holds lowercase names, each once. *)
Definition tag_invariant (s : Store) : Prop :=
  NoDup (map Tag.name (tags s))
  /\ forall t, In t (tags s) -> lower (Tag.name t) = Tag.name t.

(** The LIKE pattern [term] matches one of the four searched values of
    contact [c]. *)
Definition contact_like (s : Store) (term : string) (c : Contact.t) : Prop :=
  sql_lower_like (Some (Contact.name c)) term = true
  \/ sql_lower_like (Contact.email c) term = true
  \/ sql_lower_like (Contact.phone c) term = true
  \/ exists r, In r (phone_numbers s) /\ PhoneNumber.contact_id r = Contact.id c
               /\ like term (lower (PhoneNumber.number r)) = true.

(** Contact 1 owns the phone-number row "111", contact 2 the address row
    "A St". *)
Definition rows_of_two_contacts : Store :=
  mkStore [Contact.mk 1 "Ann" None None None; Contact.mk 2 "Bob" None None None]
          [PhoneNumber.mk 1 1 "111"] [Address.mk 1 2 "A St"] [] [].

(** New phone numbers that are free, and an address that Bob holds. *)
Definition new_rows_with_bobs_address : schemas.ContactUpdate :=
  schemas.mkContactUpdate None None None
    (Some [schemas.mkPhoneNumberCreate "222"])
    (Some [schemas.mkAddressCreate "A St"]) None.


(** An integer that SQLite stores and that the driver binds: one of 64
    bits, from -2^63 to 2^63 - 1. *)
Definition sqlite_integer (z : Z) : Prop :=
  -9223372036854775808 <= z <= 9223372036854775807.

(** Two loaded contacts with the same row, the same phone-number rows and
    address rows, and the same tags in some order. *)
Definition same_contact (a b : Contact.obj) : Prop :=
  Contact.row a = Contact.row b
  /\ Contact.phone_numbers a = Contact.phone_numbers b
  /\ Contact.addresses a = Contact.addresses b
  /\ Permutation (Contact.tags a) (Contact.tags b).
(** * Further vocabulary *)

(** Every child row and every association row points at rows that exist. *)
Definition referential_integrity (s : Store) : Prop :=
  (forall r, In r (phone_numbers s) ->
     exists c, In c (contacts s) /\ Contact.id c = PhoneNumber.contact_id r)
  /\ (forall r, In r (addresses s) ->
        exists c, In c (contacts s) /\ Contact.id c = Address.contact_id r)
  /\ (forall a, In a (contact_tag_association s) ->
        (exists c, In c (contacts s) /\ Contact.id c = fst a)
        /\ (exists t, In t (tags s) /\ Tag.id t = snd a)).

(** A patch that supplies nothing. *)
Definition empty_update : schemas.ContactUpdate :=
  schemas.mkContactUpdate None None None None None None.

(** A patch that renames and replaces the phone-number list. *)
Definition rename_and_renumber : schemas.ContactUpdate :=
  schemas.mkContactUpdate (Some "Ann B") None None
    (Some [schemas.mkPhoneNumberCreate "222"; schemas.mkPhoneNumberCreate "333"])
    None None.

(** The primary keys of the five tables: ids are pairwise distinct in each
    table, contact ids are positive, and no association row stands twice. *)
Definition primary_keys (s : Store) : Prop :=
  NoDup (map Contact.id (contacts s))
  /\ (forall c, In c (contacts s) -> 1 <= Contact.id c)
  /\ NoDup (map PhoneNumber.id (phone_numbers s))
  /\ NoDup (map Address.id (addresses s))
  /\ NoDup (map Tag.id (tags s))
  /\ NoDup (contact_tag_association s).

(** No contact has a scalar address, and no two address rows share a
    value. *)
Definition address_invariant (s : Store) : Prop :=
  (forall c, In c (contacts s) -> Contact.address c = None)
  /\ NoDup (map Address.address (addresses s)).


(** The contacts a list or search request answers with; none when the
    request is answered without a page. *)
Definition page_contacts (r : result (option schemas.ContactListResponse) * Session)
    : list Contact.obj :=
  match fst r with
  | Ok (Some response) => schemas.contacts response
  | _ => []
  end.

(** Two optional strings are both absent, or equal after lowercasing. *)
Definition same_up_to_case (a b : option string) : Prop :=
  option_map lower a = option_map lower b.

(** Ann with the tag "friend" and the phone number "555", Bob without
    either. *)
Definition ann_and_bob : Store :=
  mkStore [Contact.mk 1 "Ann" None None None; Contact.mk 2 "Bob" None None None]
          [PhoneNumber.mk 1 1 "555"] [] [Tag.mk 1 "friend"] [(1, 1)].

(** The pages 1 .. [total_pages] of a paged request, one after the other. *)
Definition all_pages (request : Z -> result (option schemas.ContactListResponse) * Session)
    (total_pages : Z) : list Contact.obj :=
  List.concat (map (fun k => page_contacts (request (Z.of_nat k)))
              (seq 1 (Z.to_nat total_pages))).

(** A create request with two phone numbers, an address and two tags. *)
Definition cara : schemas.ContactCreate :=
  schemas.mkContactCreate "Cara" None None
    (Some [schemas.mkPhoneNumberCreate "7"; schemas.mkPhoneNumberCreate "8"])
    (Some [schemas.mkAddressCreate "C St"]) (Some ["Friend"; "Work"]).

(** The member of a tags collection that stands for the tag name [name]:
    the row of that name, or a new tag when the table has none. *)
Definition tag_named (s : Store) (name : string) : TagRef :=
  match first (filter (fun t => String.eqb (Tag.name t) name) (tags s)) with
  | Some t => Persistent t
  | None => Pending name
  end.

(** What a create request must satisfy to be carried out: no phone value
    and no address of it is held already, and its numbers, its addresses
    and, up to case, its tag names are pairwise distinct. *)
Definition create_is_admissible (s : Store) (contact : schemas.ContactCreate) : Prop :=
  (forall v, ~ create_phone_conflict s contact v)
  /\ (forall v, ~ create_address_conflict s contact v)
  /\ NoDup (map schemas.number (or_empty (schemas.phone_numbers contact)))
  /\ NoDup (map schemas.address (or_empty (schemas.addresses contact)))
  /\ NoDup (map lower (or_empty (schemas.tags contact))).

(** A patch that gives contact 1 two new phone numbers and two tags. *)
Definition renumber_and_retag : schemas.ContactUpdate :=
  schemas.mkContactUpdate None None None
    (Some [schemas.mkPhoneNumberCreate "222"; schemas.mkPhoneNumberCreate "333"])
    None (Some ["Work"; "FAMILY"]).

(** Text of ASCII characters only: the text on which Python's
    [str.lower] is [lower]. *)
Fixpoint is_ascii (s : string) : bool :=
  match s with
  | EmptyString => true
  | String c s' => (N_of_ascii c <? 128)%N && is_ascii s'
  end.
(** * Properties *)

(** ** Running session code *)

Lemma bind_ok {A B} (m : M A) (k : A -> M B) db a db' :
  m db = (Ok a, db') -> bind m k db = k a db'.
Proof. unfold bind; intros ->; reflexivity. Qed.

Lemma bind_raise {A B} (m : M A) (k : A -> M B) db e db' :
  m db = (Raise e, db') -> bind m k db = (Raise e, db').
Proof. unfold bind; intros ->; reflexivity. Qed.

Lemma bind_query {A B} (q : Session -> A) (k : A -> M B) db :
  bind (query q) k db = k (q db) db.
Proof. reflexivity. Qed.

Lemma is_some_first_filter {A} (f : A -> bool) (l : list A) :
  is_some (first (filter f l)) = existsb f l.
Proof.
  induction l as [|x l IH]; simpl; [reflexivity|].
  destruct (f x); simpl; [reflexivity|exact IH].
Qed.

Lemma filter_filter {A} (f g : A -> bool) (l : list A) :
  filter g (filter f l) = filter (fun x => f x && g x) l.
Proof.
  induction l as [|x l IH]; simpl; [reflexivity|].
  destruct (f x); simpl; [destruct (g x); simpl; congruence|exact IH].
Qed.

Lemma existsb_ext_in {A} (f g : A -> bool) (l : list A) :
  (forall x, In x l -> f x = g x) -> existsb f l = existsb g l.
Proof.
  induction l as [|x l IH]; simpl; intros H; [reflexivity|].
  rewrite (H x (or_introl eq_refl)), IH; [reflexivity|].
  intros y Hy; apply H; now right.
Qed.

(** ** The uniqueness validator *)

Lemma filter_kept {A} (f : A -> bool) (owner : A -> Z) (l : list A) excl :
  is_some (first (match excl with
                  | Some e => if negb (e =? 0)
                              then fun s : list A => filter (fun x => negb (owner x =? e)) (filter f s)
                              else fun s => filter f s
                  | None => fun s => filter f s
                  end l))
  = existsb (fun x => f x && kept (effective_exclusion excl) (owner x)) l.
Proof.
  destruct excl as [e|]; simpl.
  - destruct (e =? 0); simpl.
    + rewrite is_some_first_filter. apply existsb_ext_in; intros x _.
      now rewrite andb_true_r.
    + rewrite filter_filter, is_some_first_filter. reflexivity.
  - rewrite is_some_first_filter. apply existsb_ext_in; intros x _.
    now rewrite andb_true_r.
Qed.

Lemma check_phone_number_exists_run db v excl :
  crud.check_phone_number_exists v excl db
  = (Ok (phone_existsb (txn db) v (effective_exclusion excl)), db).
Proof.
  unfold crud.check_phone_number_exists, phone_existsb.
  destruct v as [[|c p]|]; try reflexivity.
  rewrite bind_query.
  pose proof (filter_kept (fun c0 => sql_eq (Contact.phone c0) (String c p))
                Contact.id (contacts (txn db)) excl) as H1.
  pose proof (filter_kept (fun r => String.eqb (PhoneNumber.number r) (String c p))
                PhoneNumber.contact_id (phone_numbers (txn db)) excl) as H2.
  destruct excl as [e|]; simpl in *.
  - destruct (e =? 0); simpl in *.
    + rewrite H1. destruct (existsb _ (contacts (txn db))); [reflexivity|].
      rewrite bind_query, H2. now destruct (existsb _ _).
    + rewrite H1. destruct (existsb _ (contacts (txn db))); [reflexivity|].
      rewrite bind_query, H2. now destruct (existsb _ _).
  - rewrite H1. destruct (existsb _ (contacts (txn db))); [reflexivity|].
    rewrite bind_query, H2. now destruct (existsb _ _).
Qed.

Lemma check_address_exists_run db v excl :
  crud.check_address_exists v excl db
  = (Ok (address_existsb (txn db) v (effective_exclusion excl)), db).
Proof.
  unfold crud.check_address_exists, address_existsb.
  destruct v as [[|c p]|]; try reflexivity.
  rewrite bind_query.
  pose proof (filter_kept (fun c0 => sql_eq (Contact.address c0) (String c p))
                Contact.id (contacts (txn db)) excl) as H1.
  pose proof (filter_kept (fun r => String.eqb (Address.address r) (String c p))
                Address.contact_id (addresses (txn db)) excl) as H2.
  destruct excl as [e|]; simpl in *.
  - destruct (e =? 0); simpl in *.
    + rewrite H1. destruct (existsb _ (contacts (txn db))); [reflexivity|].
      rewrite bind_query, H2. now destruct (existsb _ _).
    + rewrite H1. destruct (existsb _ (contacts (txn db))); [reflexivity|].
      rewrite bind_query, H2. now destruct (existsb _ _).
  - rewrite H1. destruct (existsb _ (contacts (txn db))); [reflexivity|].
    rewrite bind_query, H2. now destruct (existsb _ _).
Qed.

Lemma kept_spec exclusion owner :
  kept exclusion owner = true <-> forall e, exclusion = Some e -> owner <> e.
Proof.
  destruct exclusion as [e|]; simpl.
  - rewrite negb_true_iff, Z.eqb_neq. split.
    + intros H e' [= <-]; exact H.
    + intros H; now apply H.
  - split; [intros _ e [=]|reflexivity].
Qed.

Lemma sql_eq_spec column v : sql_eq column v = true <-> column = Some v.
Proof.
  destruct column as [w|]; simpl.
  - rewrite String.eqb_eq. split; [now intros ->|now intros [= ->]].
  - split; discriminate.
Qed.

Lemma phone_existsb_spec s c p exclusion :
  phone_existsb s (Some (String c p)) exclusion = true
  <-> phone_claimed s (String c p) exclusion.
Proof.
  unfold phone_existsb, phone_claimed.
  rewrite orb_true_iff, !existsb_exists. split.
  - intros [[x [Hin H]]|[x [Hin H]]]; [left|right]; exists x;
      apply andb_true_iff in H as [H1 H2];
      pose proof (proj1 (kept_spec _ _) H2) as H3.
    + apply sql_eq_spec in H1. auto.
    + apply String.eqb_eq in H1. auto.
  - intros [[x [Hin [H1 H2]]]|[x [Hin [H1 H2]]]]; [left|right]; exists x;
      (split; [exact Hin|]); apply andb_true_iff; split;
      try (apply (proj2 (kept_spec _ _)); exact H2).
    + now apply sql_eq_spec.
    + now apply String.eqb_eq.
Qed.

Lemma address_existsb_spec s c p exclusion :
  address_existsb s (Some (String c p)) exclusion = true
  <-> address_claimed s (String c p) exclusion.
Proof.
  unfold address_existsb, address_claimed.
  rewrite orb_true_iff, !existsb_exists. split.
  - intros [[x [Hin H]]|[x [Hin H]]]; [left|right]; exists x;
      apply andb_true_iff in H as [H1 H2];
      pose proof (proj1 (kept_spec _ _) H2) as H3.
    + apply sql_eq_spec in H1. auto.
    + apply String.eqb_eq in H1. auto.
  - intros [[x [Hin [H1 H2]]]|[x [Hin [H1 H2]]]]; [left|right]; exists x;
      (split; [exact Hin|]); apply andb_true_iff; split;
      try (apply (proj2 (kept_spec _ _)); exact H2).
    + now apply sql_eq_spec.
    + now apply String.eqb_eq.
Qed.

Lemma phone_existsb_iff s v exclusion :
  phone_existsb s v exclusion = true
  <-> exists p, v = Some p /\ p <> "" /\ phone_claimed s p exclusion.
Proof.
  destruct v as [[|c p]|].
  - split; [discriminate|]. intros [p [[= <-] [H _]]]. now elim H.
  - rewrite phone_existsb_spec. split.
    + intros H. exists (String c p). repeat split; [discriminate|exact H].
    + intros [q [[= <-] [_ H]]]. exact H.
  - split; [discriminate|]. intros [p [[=] _]].
Qed.

Lemma address_existsb_iff s v exclusion :
  address_existsb s v exclusion = true
  <-> exists p, v = Some p /\ p <> "" /\ address_claimed s p exclusion.
Proof.
  destruct v as [[|c p]|].
  - split; [discriminate|]. intros [p [[= <-] [H _]]]. now elim H.
  - rewrite address_existsb_spec. split.
    + intros H. exists (String c p). repeat split; [discriminate|exact H].
    + intros [q [[= <-] [_ H]]]. exact H.
  - split; [discriminate|]. intros [p [[=] _]].
Qed.

(** C4, as amended: each existence check answers without touching the
    session; it answers [false] for an absent or empty candidate and
    otherwise [true] exactly when a contact's scalar field or a child row
    carries the candidate, the rows of [exclude_contact_id] being left out
    of both sources when that id is given and is not 0. *)
Theorem check_exists_reads_both_sources :
  forall (db : Session) (v : option string) (exclude_contact_id : option Z),
    (exists b,
        crud.check_phone_number_exists v exclude_contact_id db = (Ok b, db)
        /\ (b = true <->
            exists p, v = Some p /\ p <> ""
                      /\ phone_claimed (txn db) p (effective_exclusion exclude_contact_id)))
    /\ (exists b,
        crud.check_address_exists v exclude_contact_id db = (Ok b, db)
        /\ (b = true <->
            exists p, v = Some p /\ p <> ""
                      /\ address_claimed (txn db) p (effective_exclusion exclude_contact_id))).
Proof.
  intros db v excl. split.
  - eexists; split; [apply check_phone_number_exists_run|apply phone_existsb_iff].
  - eexists; split; [apply check_address_exists_run|apply address_existsb_iff].
Qed.

(** C4, as stated, fails when the excluded id is 0: the contact with id 0
    is not left out, so the check answers [true] although no contact other
    than 0 holds the value. *)
Lemma check_exists_counts_excluded_contact_zero :
  crud.check_phone_number_exists (Some "5") (Some 0) (SessionLocal store_with_contact_zero)
  = (Ok true, SessionLocal store_with_contact_zero)
  /\ ~ phone_claimed (txn (SessionLocal store_with_contact_zero)) "5" (Some 0).
Proof.
  split; [reflexivity|].
  intros [[c [Hin [_ H]]]|[r [[] _]]].
  destruct Hin as [<-|[]]. now apply (H 0).
Qed.

(** C10: excluding contact id 0 is the same as excluding nothing, for the
    phone check and for the address check. *)
Theorem check_exists_exclude_zero :
  forall (db : Session) (v : option string),
    crud.check_phone_number_exists v (Some 0) db
    = crud.check_phone_number_exists v None db
    /\ crud.check_address_exists v (Some 0) db
       = crud.check_address_exists v None db.
Proof.
  intros db v. now rewrite !check_phone_number_exists_run, !check_address_exists_run.
Qed.

(** ** Delete *)

Lemma first_filter_some {A} (f : A -> bool) (l : list A) x :
  first (filter f l) = Some x -> In x l /\ f x = true.
Proof.
  intros H. assert (Hin : In x (filter f l)).
  { destruct (filter f l); [discriminate|]. injection H as ->. now left. }
  now apply filter_In in Hin.
Qed.

Lemma first_filter_none {A} (f : A -> bool) (l : list A) :
  first (filter f l) = None -> forall x, In x l -> f x = false.
Proof.
  intros H x Hin. destruct (f x) eqn:E; [|reflexivity].
  assert (Hx : In x (filter f l)) by (apply filter_In; auto).
  destruct (filter f l); [destruct Hx|discriminate].
Qed.

Lemma filter_ext_in' {A} (f g : A -> bool) (l : list A) :
  (forall x, In x l -> f x = g x) -> filter f l = filter g l.
Proof.
  induction l as [|x l IH]; simpl; intros H; [reflexivity|].
  rewrite (H x (or_introl eq_refl)), IH; [reflexivity|].
  intros y Hy; apply H; now right.
Qed.

Lemma load_tags_other_contact s contact_id other l :
  other <> contact_id ->
  flat_map (fun a => if fst a =? other
                     then filter (fun t => Tag.id t =? snd a) (tags s)
                     else [])
           (filter (fun a => negb (fst a =? contact_id)) l)
  = flat_map (fun a => if fst a =? other
                       then filter (fun t => Tag.id t =? snd a) (tags s)
                       else [])
             l.
Proof.
  intros Hne. induction l as [|a l IH]; simpl; [reflexivity|].
  destruct (fst a =? contact_id) eqn:E; simpl.
  - apply Z.eqb_eq in E. rewrite E.
    destruct (contact_id =? other) eqn:E'; [apply Z.eqb_eq in E'; congruence|].
    exact IH.
  - now rewrite IH.
Qed.

Lemma joinedload_after_delete s obj c :
  Contact.id c <> Contact.id (Contact.row obj) ->
  joinedload (delete_cascade s obj) c = joinedload s c.
Proof.
  intros Hne. unfold joinedload, delete_cascade, load_tags; simpl. f_equal.
  - rewrite filter_filter. apply filter_ext_in'; intros p _.
    destruct (PhoneNumber.contact_id p =? Contact.id c) eqn:E;
      [|now rewrite andb_false_r].
    apply Z.eqb_eq in E. rewrite E, andb_true_r.
    apply negb_true_iff, Z.eqb_neq. exact Hne.
  - rewrite filter_filter. apply filter_ext_in'; intros p _.
    destruct (Address.contact_id p =? Contact.id c) eqn:E;
      [|now rewrite andb_false_r].
    apply Z.eqb_eq in E. rewrite E, andb_true_r.
    apply negb_true_iff, Z.eqb_neq. exact Hne.
  - now apply load_tags_other_contact.
Qed.

(** C9: for an id within SQLite's integers, deleting an id that no contact
    has answers [False] and leaves the session as it was; deleting an
    existing contact answers [True] and
    commits a store from which the contact row, its phone-number rows, its
    address rows and its association rows are gone, while the tag table is
    the same and every remaining contact loads exactly as before. *)
Theorem delete_contact_cascades :
  forall (db : Session) (contact_id : Z),
    sqlite_integer contact_id ->
    ((forall c, In c (contacts (txn db)) -> Contact.id c <> contact_id) ->
     crud.delete_contact contact_id db = (Ok false, db))
    /\ ((exists c, In c (contacts (txn db)) /\ Contact.id c = contact_id) ->
        exists s',
          crud.delete_contact contact_id db = (Ok true, mkSession s' s')
          /\ contacts s'
             = filter (fun c => negb (Contact.id c =? contact_id)) (contacts (txn db))
          /\ phone_numbers s'
             = filter (fun p => negb (PhoneNumber.contact_id p =? contact_id))
                      (phone_numbers (txn db))
          /\ addresses s'
             = filter (fun a => negb (Address.contact_id a =? contact_id))
                      (addresses (txn db))
          /\ tags s' = tags (txn db)
          /\ contact_tag_association s'
             = filter (fun a => negb (fst a =? contact_id))
                      (contact_tag_association (txn db))
          /\ forall c, In c (contacts s') -> joinedload s' c = joinedload (txn db) c).
Proof.
  intros db contact_id _. unfold crud.delete_contact, crud.get_contact.
  rewrite bind_query.
  destruct (first (filter (fun c => Contact.id c =? contact_id) (contacts (txn db))))
    as [c|] eqn:E; simpl.
  - apply first_filter_some in E as [Hin Hid]. apply Z.eqb_eq in Hid.
    split.
    + intros H. now elim (H c Hin).
    + intros _. exists (delete_cascade (txn db) (joinedload (txn db) c)).
      unfold bind, commit, flush; simpl. rewrite Hid.
      repeat split.
      intros c' Hc'. apply joinedload_after_delete. simpl.
      apply filter_In in Hc' as [_ Hc']. apply negb_true_iff, Z.eqb_neq in Hc'.
      now rewrite Hid.
  - split; [reflexivity|].
    intros [c [Hin Hid]].
    pose proof (first_filter_none _ _ E c Hin) as H. simpl in H.
    apply Z.eqb_neq in H. contradiction.
Qed.

Lemma delete_contact_cascades_witness :
  crud.delete_contact 999 (SessionLocal john_and_jane)
  = (Ok false, SessionLocal john_and_jane)
  /\ exists s',
       crud.delete_contact 1 (SessionLocal john_and_jane) = (Ok true, mkSession s' s')
       /\ contacts s' = [Contact.mk 2 "Jane" None (Some "9876543210") None]
       /\ tags s' = tags john_and_jane.
Proof.
  split.
  - apply (proj1 (delete_contact_cascades (SessionLocal john_and_jane) 999
                    ltac:(unfold sqlite_integer; lia))).
    intros c [<-|[<-|[]]]; discriminate.
  - destruct (proj2 (delete_contact_cascades (SessionLocal john_and_jane) 1
                       ltac:(unfold sqlite_integer; lia)))
      as [s' [Hrun [Hc [_ [_ [Ht _]]]]]].
    + eexists. split; [left; reflexivity|reflexivity].
    + exists s'. split; [exact Hrun|]. split; [exact Hc|exact Ht].
Defined.

(** ** Create *)

Lemma for_each_guard {A} (chk : A -> M bool) (msg : A -> string) (f : A -> bool)
    (db : Session) (l : list A) :
  (forall x, chk x db = (Ok (f x), db)) ->
  for_each l (fun x => conflict <- chk x ;;
                       if (conflict : bool) then raise (ValueError (msg x)) else ret tt) db
  = match find f l with
    | Some x => (Raise (ValueError (msg x)), db)
    | None => (Ok tt, db)
    end.
Proof.
  intros Hchk. induction l as [|x l IH]; simpl; [reflexivity|].
  unfold bind at 1. unfold bind at 1. rewrite Hchk.
  destruct (f x); simpl; [reflexivity|exact IH].
Qed.

Lemma phone_number_create_eta p : schemas.mkPhoneNumberCreate (schemas.number p) = p.
Proof. now destruct p. Qed.

Lemma address_create_eta a : schemas.mkAddressCreate (schemas.address a) = a.
Proof. now destruct a. Qed.

Lemma nonempty_of_phone_existsb s v e :
  phone_existsb s (Some v) e = true -> v <> "" /\ phone_claimed s v e.
Proof.
  intros H. apply phone_existsb_iff in H as [p [[= <-] H]]. exact H.
Qed.

Lemma nonempty_of_address_existsb s v e :
  address_existsb s (Some v) e = true -> v <> "" /\ address_claimed s v e.
Proof.
  intros H. apply address_existsb_iff in H as [p [[= <-] H]]. exact H.
Qed.

Lemma phone_existsb_of_claimed s v e :
  v <> "" -> phone_claimed s v e -> phone_existsb s (Some v) e = true.
Proof. intros H1 H2. apply phone_existsb_iff. now exists v. Qed.

Lemma address_existsb_of_claimed s v e :
  v <> "" -> address_claimed s v e -> address_existsb s (Some v) e = true.
Proof. intros H1 H2. apply address_existsb_iff. now exists v. Qed.

Lemma append_tags_run l coll db :
  crud.append_tags l coll db = (Ok (coll ++ map (resolve_tag (txn db)) l)%list, db).
Proof.
  revert coll. induction l as [|tag_name l IH]; intros coll; simpl.
  - now rewrite app_nil_r.
  - rewrite bind_query, IH, <- app_assoc. reflexivity.
Qed.

(** Either a check fails, and the request raises with the session
    untouched, or no supplied value is held in the store and the request
    runs into its commit. *)
Lemma create_contact_cases db contact :
  (exists v,
      (crud.create_contact contact db = (Raise (ValueError (crud.phone_message v)), db)
       /\ create_phone_conflict (txn db) contact v)
      \/ (crud.create_contact contact db = (Raise (ValueError (crud.address_message v)), db)
          /\ create_address_conflict (txn db) contact v))
  \/ ((forall v, ~ create_phone_conflict (txn db) contact v)
      /\ (forall v, ~ create_address_conflict (txn db) contact v)
      /\ crud.create_contact contact db
         = match committed_create (txn db) contact with
           | Some (c, s') => (Ok (joinedload s' c), mkSession s' s')
           | None => (Raise IntegrityError, mkSession (committed db) (committed db))
           end).
Proof.
  unfold crud.create_contact.
  set (guard_phones := for_each (or_empty (schemas.phone_numbers contact)) _).
  set (guard_addresses := for_each (or_empty (schemas.addresses contact)) _).
  (* the scalar phone *)
  assert (Hscalar :
    (exists v, schemas.phone contact = Some v /\ v <> "" /\ phone_claimed (txn db) v None
               /\ match schemas.phone contact with
                  | Some ((String _ _) as phone) =>
                      conflict <- crud.check_phone_number_exists (Some phone) None ;;
                      if (conflict : bool)
                      then raise (ValueError (crud.phone_message phone)) else ret tt
                  | _ => ret tt
                  end db = (Raise (ValueError (crud.phone_message v)), db))
    \/ ((forall v, schemas.phone contact = Some v -> v <> "" ->
                   ~ phone_claimed (txn db) v None)
        /\ match schemas.phone contact with
           | Some ((String _ _) as phone) =>
               conflict <- crud.check_phone_number_exists (Some phone) None ;;
               if (conflict : bool)
               then raise (ValueError (crud.phone_message phone)) else ret tt
           | _ => ret tt
           end db = (Ok tt, db))).
  { destruct (schemas.phone contact) as [[|c p]|].
    - right. split; [|reflexivity]. intros v [= <-] H. now elim H.
    - unfold bind. rewrite check_phone_number_exists_run. unfold effective_exclusion.
      destruct (phone_existsb (txn db) (Some (String c p)) None) eqn:E.
      + left. exists (String c p).
        destruct (nonempty_of_phone_existsb _ _ _ E) as [E1 E2].
        split; [reflexivity|]. split; [exact E1|]. split; [exact E2|reflexivity].
      + right. split; [|reflexivity]. intros v [= <-] Hne Hcl.
        rewrite (phone_existsb_of_claimed _ _ _ Hne Hcl) in E. discriminate.
    - right. split; [|reflexivity]. intros v [=]. }
  destruct Hscalar as [[v [Hv [Hne [Hcl Hrun]]]]|[Hfree Hrun]].
  { left. exists v. left. split.
    - now rewrite (bind_raise _ _ _ _ _ Hrun).
    - split; [now left|now split]. }
  rewrite (bind_ok _ _ _ _ _ Hrun).
  (* the phone-number list *)
  assert (Hphones : guard_phones db
    = match find (fun pd => phone_existsb (txn db) (Some (schemas.number pd)) None)
                 (or_empty (schemas.phone_numbers contact)) with
      | Some pd => (Raise (ValueError (crud.phone_message (schemas.number pd))), db)
      | None => (Ok tt, db)
      end).
  { apply (for_each_guard
             (fun pd => crud.check_phone_number_exists (Some (schemas.number pd)) None)
             (fun pd => crud.phone_message (schemas.number pd))).
    intros pd. apply check_phone_number_exists_run. }
  destruct (find _ (or_empty (schemas.phone_numbers contact))) as [pd|] eqn:Efind.
  { apply find_some in Efind as [Hin Hex].
    apply nonempty_of_phone_existsb in Hex as [Hne Hcl].
    left. exists (schemas.number pd). left. split.
    - now rewrite (bind_raise _ _ _ _ _ Hphones).
    - split; [right; now rewrite phone_number_create_eta|now split]. }
  rewrite (bind_ok _ _ _ _ _ Hphones).
  (* the address list *)
  assert (Haddresses : guard_addresses db
    = match find (fun ad => address_existsb (txn db) (Some (schemas.address ad)) None)
                 (or_empty (schemas.addresses contact)) with
      | Some ad => (Raise (ValueError (crud.address_message (schemas.address ad))), db)
      | None => (Ok tt, db)
      end).
  { apply (for_each_guard
             (fun ad => crud.check_address_exists (Some (schemas.address ad)) None)
             (fun ad => crud.address_message (schemas.address ad))).
    intros ad. apply check_address_exists_run. }
  destruct (find _ (or_empty (schemas.addresses contact))) as [ad|] eqn:Efind'.
  { apply find_some in Efind' as [Hin Hex].
    apply nonempty_of_address_existsb in Hex as [Hne Hcl].
    left. exists (schemas.address ad). right. split.
    - now rewrite (bind_raise _ _ _ _ _ Haddresses).
    - split; [now rewrite address_create_eta|now split]. }
  rewrite (bind_ok _ _ _ _ _ Haddresses).
  (* no check fails *)
  right. split; [|split].
  - intros v [[Hv|Hv] [Hne Hcl]].
    + exact (Hfree v Hv Hne Hcl).
    + pose proof (find_none _ _ Efind _ Hv) as H. cbv beta in H.
      change (schemas.number (schemas.mkPhoneNumberCreate v)) with v in H.
      now rewrite (phone_existsb_of_claimed _ _ _ Hne Hcl) in H.
  - intros v [Hv [Hne Hcl]].
    pose proof (find_none _ _ Efind' _ Hv) as H. cbv beta in H.
    change (schemas.address (schemas.mkAddressCreate v)) with v in H.
    now rewrite (address_existsb_of_claimed _ _ _ Hne Hcl) in H.
  - clear. unfold committed_create, create_unit_of_work.
    unfold bind at 1. unfold crud.add_and_flush_contact, insert_contact.
    cbn [fst snd txn committed].
    destruct (schemas.tags contact) as [[|t l]|].
    + unfold bind, ret, commit, query. cbn [txn committed].
      destruct (flush _ _); reflexivity.
    + unfold bind, ret, commit, query. rewrite append_tags_run. cbn [txn committed].
      destruct (flush _ _); reflexivity.
    + unfold bind, ret, commit, query. cbn [txn committed].
      destruct (flush _ _); reflexivity.
Qed.

Lemma create_contact_conflict db contact :
  (exists v, create_phone_conflict (txn db) contact v)
  \/ (exists v, create_address_conflict (txn db) contact v) ->
  exists v,
    (crud.create_contact contact db = (Raise (ValueError (crud.phone_message v)), db)
     /\ create_phone_conflict (txn db) contact v)
    \/ (crud.create_contact contact db = (Raise (ValueError (crud.address_message v)), db)
        /\ create_address_conflict (txn db) contact v).
Proof.
  intros Hconf.
  destruct (create_contact_cases db contact) as [H|[Hp [Ha _]]]; [exact H|].
  exfalso. destruct Hconf as [[v H]|[v H]]; [exact (Hp v H)|exact (Ha v H)].
Qed.

(** C3: a create request that asks for a phone value or an address the
    store already holds raises [ValueError] with the message that quotes one
    such value, and the session, hence the committed store, is exactly as
    before; and after John Doe has been created with phone "1234567890",
    creating Jane with that number in her list is answered with that
    message and the store still holds one contact. *)
Theorem create_conflict_commits_nothing :
  (forall (db : Session) (contact : schemas.ContactCreate),
      (exists v, create_phone_conflict (txn db) contact v)
      \/ (exists v, create_address_conflict (txn db) contact v) ->
      exists v,
        (crud.create_contact contact db
         = (Raise (ValueError (crud.phone_message v)), db)
         /\ create_phone_conflict (txn db) contact v)
        \/ (crud.create_contact contact db
            = (Raise (ValueError (crud.address_message v)), db)
            /\ create_address_conflict (txn db) contact v))
  /\ (exists created s1,
         main.create_contact john_doe empty_store = (main.Reply 201 created, s1)
         /\ main.create_contact jane s1
            = (main.HTTPException 422
                 "Phone number '1234567890' is already assigned to another contact", s1)
         /\ List.length (contacts s1) = 1%nat).
Proof.
  split; [exact create_contact_conflict|].
  do 2 eexists. split; [reflexivity|]. split; reflexivity.
Qed.

Lemma create_conflict_commits_nothing_witness :
  exists v,
    (crud.create_contact jane (SessionLocal john_and_jane)
     = (Raise (ValueError (crud.phone_message v)), SessionLocal john_and_jane)
     /\ create_phone_conflict john_and_jane jane v)
    \/ (crud.create_contact jane (SessionLocal john_and_jane)
        = (Raise (ValueError (crud.address_message v)), SessionLocal john_and_jane)
        /\ create_address_conflict john_and_jane jane v).
Proof.
  apply (proj1 create_conflict_commits_nothing (SessionLocal john_and_jane) jane).
  left. exists "1234567890". split; [right; left; reflexivity|].
  split; [discriminate|].
  left. eexists. split; [left; reflexivity|]. split; [reflexivity|intros e [=]].
Defined.

(** ** Update *)

Lemma phone_claimed_effective s v e :
  phone_claimed s v (Some e) -> phone_claimed s v (effective_exclusion (Some e)).
Proof.
  unfold effective_exclusion. destruct (e =? 0); [|auto].
  intros [[c [H1 [H2 _]]]|[r [H1 [H2 _]]]]; [left; exists c|right; exists r];
    repeat split; auto; intros e' [=].
Qed.

Lemma address_claimed_effective s v e :
  address_claimed s v (Some e) -> address_claimed s v (effective_exclusion (Some e)).
Proof.
  unfold effective_exclusion. destruct (e =? 0); [|auto].
  intros [[c [H1 [H2 _]]]|[r [H1 [H2 _]]]]; [left; exists c|right; exists r];
    repeat split; auto; intros e' [=].
Qed.

Lemma address_existsb_ext s1 s2 v e :
  contacts s1 = contacts s2 -> addresses s1 = addresses s2 ->
  address_existsb s1 v e = address_existsb s2 v e.
Proof. unfold address_existsb. now intros -> ->. Qed.

Lemma resolve_tag_ext s1 s2 tag_name :
  tags s1 = tags s2 -> resolve_tag s1 tag_name = resolve_tag s2 tag_name.
Proof. unfold resolve_tag. now intros ->. Qed.

Lemma update_statements_tags s contact_id contact_update :
  tags (update_statements s contact_id contact_update) = tags s.
Proof.
  unfold update_statements.
  destruct (schemas.u_phone_numbers contact_update), (schemas.u_addresses contact_update);
    reflexivity.
Qed.

(** Either a check fails, and the update raises with nothing committed, or
    no supplied value is held by another contact and the update runs into
    its commit. *)
Lemma update_contact_cases db contact_id contact_update c :
  first (filter (fun c => Contact.id c =? contact_id) (contacts (txn db))) = Some c ->
  (exists v db',
      (crud.update_contact contact_id contact_update db
       = (Raise (ValueError (crud.phone_message v)), db')
       \/ crud.update_contact contact_id contact_update db
          = (Raise (ValueError (crud.address_message v)), db'))
      /\ committed db' = committed db)
  \/ ((forall v, schemas.u_phone contact_update = Some v ->
                 phone_existsb (txn db) (Some v) (effective_exclusion (Some contact_id))
                 = false)
      /\ (forall l pd, schemas.u_phone_numbers contact_update = Some l -> In pd l ->
                 phone_existsb (txn db) (Some (schemas.number pd))
                               (effective_exclusion (Some contact_id)) = false)
      /\ (forall l ad, schemas.u_addresses contact_update = Some l -> In ad l ->
                 address_existsb (txn db) (Some (schemas.address ad))
                                 (effective_exclusion (Some contact_id)) = false)
      /\ crud.update_contact contact_id contact_update db
         = match committed_update (txn db) c contact_id contact_update with
           | Some s' =>
               (Ok (Some (joinedload s' (updated_row c contact_update))), mkSession s' s')
           | None => (Raise IntegrityError, mkSession (committed db) (committed db))
           end).
Proof.
  intros Eget. unfold crud.update_contact, crud.get_contact.
  rewrite bind_query, Eget. cbn [option_map]. cbv iota.
  change (Contact.row (joinedload (txn db) c)) with c.
  change (Contact.tags (joinedload (txn db) c)) with (load_tags (txn db) (Contact.id c)).
  (* the scalar phone *)
  match goal with
  | |- (exists v db', (bind ?m ?k db = _ \/ _) /\ _) \/ _ =>
      set (step := m); set (rest := k)
  end.
  assert (Hstep :
    (exists v, step db = (Raise (ValueError (crud.phone_message v)), db))
    \/ ((forall v, schemas.u_phone contact_update = Some v ->
                   phone_existsb (txn db) (Some v) (effective_exclusion (Some contact_id))
                   = false)
        /\ step db = (Ok (updated_row c contact_update), db))).
  { subst step. unfold updated_row. destruct (schemas.u_phone contact_update) as [p|].
    - unfold bind. rewrite check_phone_number_exists_run.
      destruct (phone_existsb _ _ _) eqn:E.
      + left. eexists. reflexivity.
      + right. split; [now intros v [= <-]|]. reflexivity.
    - right. split; [intros v [=]|]. reflexivity. }
  destruct Hstep as [[msg Hrun]|[Hfree1 Hrun]].
  { left. exists msg, db.
    split; [left; now rewrite (bind_raise _ _ _ _ _ Hrun)|reflexivity]. }
  rewrite (bind_ok _ _ _ _ _ Hrun). subst rest. cbv beta. clear step Hrun.
  (* the phone-number list *)
  match goal with
  | |- (exists v db', (bind ?m ?k db = _ \/ _) /\ _) \/ _ =>
      set (step := m); set (rest := k)
  end.
  assert (Hstep :
    (exists v, step db = (Raise (ValueError (crud.phone_message v)), db))
    \/ ((forall l pd, schemas.u_phone_numbers contact_update = Some l -> In pd l ->
                   phone_existsb (txn db) (Some (schemas.number pd))
                                 (effective_exclusion (Some contact_id)) = false)
        /\ exists db1,
             step db
             = (Ok (new_phone_numbers
                      (update_unit_of_work (txn db) c contact_id contact_update)), db1)
             /\ committed db1 = committed db
             /\ txn db1 = match schemas.u_phone_numbers contact_update with
                          | Some _ => delete_phone_numbers_of (txn db) contact_id
                          | None => txn db
                          end)).
  { subst step. cbn [update_unit_of_work new_phone_numbers].
    destruct (schemas.u_phone_numbers contact_update) as [l|].
    - pose proof (for_each_guard
                 (fun pd => crud.check_phone_number_exists (Some (schemas.number pd))
                                                           (Some contact_id))
                 (fun pd => crud.phone_message (schemas.number pd))
                 (fun pd => phone_existsb (txn db) (Some (schemas.number pd))
                                          (effective_exclusion (Some contact_id)))
                 db l (fun pd => check_phone_number_exists_run _ _ _)) as Hfe.
      destruct (find _ l) as [pd|] eqn:Efind.
      + left. eexists. rewrite (bind_raise _ _ _ _ _ Hfe). reflexivity.
      + right. split.
        * intros l' pd [= <-] Hin. exact (find_none _ _ Efind _ Hin).
        * eexists. rewrite (bind_ok _ _ _ _ _ Hfe).
          split; [reflexivity|]. split; reflexivity.
    - right. split; [intros l pd [=]|].
      eexists. split; [reflexivity|]. split; reflexivity. }
  destruct Hstep as [[msg Hrun]|[Hfree2 [db1 [Hrun [Hcom1 Htxn1]]]]].
  { left. exists msg, db.
    split; [left; now rewrite (bind_raise _ _ _ _ _ Hrun)|reflexivity]. }
  rewrite (bind_ok _ _ _ _ _ Hrun). subst rest. cbv beta. clear step Hrun.
  assert (Hcon : contacts (txn db1) = contacts (txn db))
    by (rewrite Htxn1; now destruct (schemas.u_phone_numbers contact_update)).
  assert (Hadr : addresses (txn db1) = addresses (txn db))
    by (rewrite Htxn1; now destruct (schemas.u_phone_numbers contact_update)).
  (* the address list *)
  match goal with
  | |- (exists v db', (bind ?m ?k db1 = _ \/ _) /\ _) \/ _ =>
      set (step := m); set (rest := k)
  end.
  assert (Hstep :
    (exists v, step db1 = (Raise (ValueError (crud.address_message v)), db1))
    \/ ((forall l ad, schemas.u_addresses contact_update = Some l -> In ad l ->
                   address_existsb (txn db) (Some (schemas.address ad))
                                   (effective_exclusion (Some contact_id)) = false)
        /\ exists db2,
             step db1
             = (Ok (new_addresses
                      (update_unit_of_work (txn db) c contact_id contact_update)), db2)
             /\ committed db2 = committed db
             /\ txn db2 = update_statements (txn db) contact_id contact_update)).
  { subst step. cbn [update_unit_of_work new_addresses]. unfold update_statements.
    rewrite <- Htxn1.
    destruct (schemas.u_addresses contact_update) as [l|].
    - assert (Hchk : forall ad,
                 crud.check_address_exists (Some (schemas.address ad)) (Some contact_id) db1
                 = (Ok (address_existsb (txn db) (Some (schemas.address ad))
                                        (effective_exclusion (Some contact_id))), db1)).
      { intros ad. rewrite check_address_exists_run.
        now rewrite (address_existsb_ext _ _ _ _ Hcon Hadr). }
      pose proof (for_each_guard
                 (fun ad => crud.check_address_exists (Some (schemas.address ad))
                                                      (Some contact_id))
                 (fun ad => crud.address_message (schemas.address ad))
                 _ db1 l Hchk) as Hfe.
      destruct (find _ l) as [ad|] eqn:Efind.
      + left. eexists. rewrite (bind_raise _ _ _ _ _ Hfe). reflexivity.
      + right. split.
        * intros l' ad [= <-] Hin. exact (find_none _ _ Efind _ Hin).
        * eexists. rewrite (bind_ok _ _ _ _ _ Hfe).
          split; [reflexivity|]. split; [exact Hcom1|reflexivity].
    - right. split; [intros l ad [=]|].
      eexists. split; [reflexivity|]. split; [exact Hcom1|reflexivity]. }
  destruct Hstep as [[msg Hrun]|[Hfree3 [db2 [Hrun [Hcom2 Htxn2]]]]].
  { left. exists msg, db1.
    split; [right; now rewrite (bind_raise _ _ _ _ _ Hrun)|exact Hcom1]. }
  rewrite (bind_ok _ _ _ _ _ Hrun). subst rest. cbv beta. clear step Hrun.
  (* the tags and the commit *)
  right. split; [exact Hfree1|]. split; [exact Hfree2|]. split; [exact Hfree3|].
  unfold committed_update.
  assert (Huow :
    forall tc,
      tc = tags_collection (update_unit_of_work (txn db) c contact_id contact_update) ->
      mkUnitOfWork (Some (updated_row c contact_update))
        (new_phone_numbers (update_unit_of_work (txn db) c contact_id contact_update))
        (new_addresses (update_unit_of_work (txn db) c contact_id contact_update))
        tc None
      = update_unit_of_work (txn db) c contact_id contact_update)
    by (intros tc ->; reflexivity).
  destruct (schemas.u_tags contact_update) as [l|] eqn:Etags.
  - unfold bind, ret, commit, query. rewrite append_tags_run.
    cbn [app]. rewrite Hcom2, Htxn2.
    rewrite (map_ext _ _ (fun t => resolve_tag_ext _ (txn db) t
                                     (update_statements_tags _ _ _))).
    rewrite Huow by (cbn [update_unit_of_work tags_collection]; now rewrite Etags).
    destruct (flush _ _); reflexivity.
  - unfold bind, ret, commit, query. rewrite Hcom2, Htxn2.
    rewrite Huow by (cbn [update_unit_of_work tags_collection]; now rewrite Etags).
    destruct (flush _ _); reflexivity.
Qed.

Lemma update_contact_conflict db contact_id contact_update :
  (exists c, In c (contacts (txn db)) /\ Contact.id c = contact_id) ->
  (exists v, update_phone_conflict (txn db) contact_id contact_update v)
  \/ (exists v, update_address_conflict (txn db) contact_id contact_update v) ->
  exists v db',
    (crud.update_contact contact_id contact_update db
     = (Raise (ValueError (crud.phone_message v)), db')
     \/ crud.update_contact contact_id contact_update db
        = (Raise (ValueError (crud.address_message v)), db'))
    /\ committed db' = committed db.
Proof.
  intros [c0 [Hc0 Hid0]] Hconf.
  destruct (first (filter (fun c => Contact.id c =? contact_id) (contacts (txn db))))
    as [c|] eqn:Eget.
  2:{ pose proof (first_filter_none _ _ Eget c0 Hc0) as H. simpl in H.
      apply Z.eqb_neq in H. contradiction. }
  destruct (update_contact_cases db contact_id contact_update c Eget)
    as [H|[Hfree1 [Hfree2 [Hfree3 _]]]]; [exact H|].
  exfalso.
  destruct Hconf as [[v [[Hv|[l [Hl Hv]]] [Hne Hcl]]]|[v [[l [Hl Hv]] [Hne Hcl]]]].
  - pose proof (Hfree1 v Hv) as H.
    now rewrite (phone_existsb_of_claimed _ _ _ Hne (phone_claimed_effective _ _ _ Hcl)) in H.
  - pose proof (Hfree2 l _ Hl Hv) as H.
    change (schemas.number (schemas.mkPhoneNumberCreate v)) with v in H.
    now rewrite (phone_existsb_of_claimed _ _ _ Hne (phone_claimed_effective _ _ _ Hcl)) in H.
  - pose proof (Hfree3 l _ Hl Hv) as H.
    change (schemas.address (schemas.mkAddressCreate v)) with v in H.
    now rewrite (address_existsb_of_claimed _ _ _ Hne (address_claimed_effective _ _ _ Hcl)) in H.
Qed.

(** C2: when an update of an existing contact supplies a phone value or an
    address that another contact holds, it raises [ValueError] with the
    message that quotes a supplied value, and nothing is committed: the
    store left when the session is closed is the store from before, so the
    contact loads with its former fields, rows and tags. *)
Theorem update_conflict_commits_nothing :
  forall (db : Session) (contact_id : Z) (contact_update : schemas.ContactUpdate),
    (exists c, In c (contacts (txn db)) /\ Contact.id c = contact_id) ->
    (exists v, update_phone_conflict (txn db) contact_id contact_update v)
    \/ (exists v, update_address_conflict (txn db) contact_id contact_update v) ->
    exists v db',
      (crud.update_contact contact_id contact_update db
       = (Raise (ValueError (crud.phone_message v)), db')
       \/ crud.update_contact contact_id contact_update db
          = (Raise (ValueError (crud.address_message v)), db'))
      /\ close db' = committed db
      /\ crud.get_contact contact_id (SessionLocal (close db'))
         = crud.get_contact contact_id (SessionLocal (committed db)).
Proof.
  intros db contact_id contact_update Hex Hconf.
  destruct (update_contact_conflict db contact_id contact_update Hex Hconf)
    as [v [db' [Hrun Hcom]]].
  exists v, db'. unfold close. rewrite Hcom. repeat split. exact Hrun.
Qed.

Lemma update_conflict_commits_nothing_witness :
  exists v db',
    (crud.update_contact 2 jane_takes_johns_phone (SessionLocal john_and_jane)
     = (Raise (ValueError (crud.phone_message v)), db')
     \/ crud.update_contact 2 jane_takes_johns_phone (SessionLocal john_and_jane)
        = (Raise (ValueError (crud.address_message v)), db'))
    /\ close db' = john_and_jane
    /\ crud.get_contact 2 (SessionLocal (close db'))
       = crud.get_contact 2 (SessionLocal john_and_jane).
Proof.
  apply (update_conflict_commits_nothing (SessionLocal john_and_jane) 2
           jane_takes_johns_phone).
  - eexists. split; [right; left; reflexivity|reflexivity].
  - left. exists "1234567890". split; [left; reflexivity|].
    split; [discriminate|].
    left. eexists. split; [left; reflexivity|].
    split; [reflexivity|]. intros e [= <-]. discriminate.
Defined.

(** When the address check of an update fails after its phone-number list
    has passed, the old phone-number rows are already deleted in the open
    transaction; the committed store still has them, and closing the
    session drops the deletion. *)
Remark update_conflict_after_bulk_delete :
  exists db',
    crud.update_contact 1 new_rows_with_bobs_address (SessionLocal rows_of_two_contacts)
    = (Raise (ValueError (crud.address_message "A St")), db')
    /\ phone_numbers (txn db') = []
    /\ phone_numbers (committed db') = [PhoneNumber.mk 1 1 "111"]
    /\ close db' = rows_of_two_contacts.
Proof.
  exists (mkSession rows_of_two_contacts (delete_phone_numbers_of rows_of_two_contacts 1)).
  repeat split.
Qed.

(** ** Ordering and paging *)

Lemma value_leb_total a b : value_leb a b = false -> value_leb b a = true.
Proof.
  destruct a as [|x|x], b as [|y|y]; simpl; try congruence.
  - rewrite Z.leb_gt, Z.leb_le. lia.
  - intros H. destruct (String.leb_total x y) as [H'|H']; congruence.
Qed.

Lemma precedes_total col desc a b :
  precedes col desc a b = false -> precedes col desc b a = true.
Proof. unfold precedes. destruct desc; apply value_leb_total. Qed.

Lemma insert_by_perm le x l : Permutation (x :: l) (insert_by le x l).
Proof.
  induction l as [|y l IH]; simpl; [constructor; constructor|].
  destruct (le x y); [apply Permutation_refl|].
  eapply perm_trans; [apply perm_swap|]. now constructor.
Qed.

Lemma order_by_perm col desc rows : Permutation rows (order_by col desc rows).
Proof.
  unfold order_by. induction rows as [|x l IH]; simpl; [constructor|].
  eapply perm_trans; [|apply insert_by_perm]. now constructor.
Qed.

Lemma order_by_length col desc rows :
  List.length (order_by col desc rows) = List.length rows.
Proof. symmetry. apply Permutation_length, order_by_perm. Qed.

Lemma insert_by_sorted col desc x l :
  ordered_by col desc l -> ordered_by col desc (insert_by (precedes col desc) x l).
Proof.
  unfold ordered_by. induction 1 as [|y l Hs IH Hhd]; simpl.
  - repeat constructor.
  - destruct (precedes col desc x y) eqn:E.
    + constructor; [now constructor|now constructor].
    + constructor; [exact IH|].
      destruct l as [|z l]; simpl.
      * constructor. now apply precedes_total.
      * destruct (precedes col desc x z); constructor.
        -- now apply precedes_total.
        -- now inversion Hhd.
Qed.

Lemma order_by_sorted col desc rows : ordered_by col desc (order_by col desc rows).
Proof.
  unfold order_by. induction rows as [|x l IH]; simpl.
  - constructor.
  - now apply insert_by_sorted.
Qed.





Lemma offset_limit_page {A} (page page_size : Z) (l : list A) :
  1 <= page_size ->
  offset_limit ((page - 1) * page_size) page_size l
  = firstn (Z.to_nat page_size) (skipn (Z.to_nat ((page - 1) * page_size)) l).
Proof.
  intros H. unfold offset_limit.
  destruct (page_size <? 0) eqn:E; [apply Z.ltb_lt in E; lia|reflexivity].
Qed.

Lemma total_pages_is_ceiling total page_size :
  0 <= total -> 1 <= page_size ->
  let total_pages := (total + page_size - 1) / page_size in
  (total_pages - 1) * page_size < total <= total_pages * page_size.
Proof.
  intros Ht Hp total_pages.
  pose proof (Z.div_mod (total + page_size - 1) page_size ltac:(lia)) as Hdm.
  pose proof (Z.mod_pos_bound (total + page_size - 1) page_size ltac:(lia)) as Hb.
  fold total_pages in Hdm. nia.
Qed.

Lemma get_contacts_run inherited skip limit sort_by sort_order col db :
  getattr_Contact inherited sort_by (ColumnAttribute col_name) = ColumnAttribute col ->
  crud.get_contacts inherited skip limit sort_by sort_order db
  = (Ok (Some (map (joinedload (txn db))
                   (offset_limit skip limit
                      (order_by col (String.eqb sort_order "desc") (contacts (txn db)))),
               Z.of_nat (List.length (contacts (txn db))))), db).
Proof.
  intros H. unfold crud.get_contacts. rewrite H.
  rewrite !bind_query. unfold ret. now rewrite order_by_length.
Qed.

Lemma search_contacts_run inherited q tag skip limit sort_by sort_order col db :
  getattr_Contact inherited sort_by (ColumnAttribute col_name) = ColumnAttribute col ->
  crud.search_contacts inherited q tag skip limit sort_by sort_order db
  = (Ok (Some (map (joinedload (txn db))
                   (offset_limit skip limit
                      (order_by col (String.eqb sort_order "desc")
                         (distinct (map j_contact (crud.search_rows q tag (txn db)))))),
               Z.of_nat (List.length
                           (distinct (map j_contact (crud.search_rows q tag (txn db))))))),
     db).
Proof.
  intros H. unfold crud.search_contacts. rewrite H.
  rewrite !bind_query. unfold ret. now rewrite order_by_length.
Qed.

Lemma list_contacts_run inherited page page_size sort_by sort_order col db :
  getattr_Contact inherited sort_by (ColumnAttribute col_name) = ColumnAttribute col ->
  main.list_contacts inherited page page_size sort_by sort_order db
  = (Ok (Some (schemas.mkContactListResponse
                 (map (joinedload (txn db))
                      (offset_limit ((page - 1) * page_size) page_size
                         (order_by col (String.eqb sort_order "desc") (contacts (txn db)))))
                 (Z.of_nat (List.length (contacts (txn db))))
                 page page_size
                 ((Z.of_nat (List.length (contacts (txn db))) + page_size - 1) / page_size))),
     db).
Proof.
  intros H. unfold main.list_contacts.
  now rewrite (bind_ok _ _ _ _ _ (get_contacts_run _ _ _ _ _ _ _ H)).
Qed.

Lemma main_search_contacts_run inherited q tag page page_size sort_by sort_order col db :
  getattr_Contact inherited sort_by (ColumnAttribute col_name) = ColumnAttribute col ->
  main.search_contacts inherited q tag page page_size sort_by sort_order db
  = (Ok (Some (schemas.mkContactListResponse
                 (map (joinedload (txn db))
                      (offset_limit ((page - 1) * page_size) page_size
                         (order_by col (String.eqb sort_order "desc")
                            (distinct (map j_contact (crud.search_rows q tag (txn db)))))))
                 (Z.of_nat (List.length
                              (distinct (map j_contact (crud.search_rows q tag (txn db))))))
                 page page_size
                 ((Z.of_nat (List.length
                               (distinct (map j_contact (crud.search_rows q tag (txn db)))))
                   + page_size - 1) / page_size))),
     db).
Proof.
  intros H. unfold main.search_contacts.
  now rewrite (bind_ok _ _ _ _ _ (search_contacts_run _ _ _ _ _ _ _ _ _ H)).
Qed.






(** ** Search *)

Ltac no_substring H :=
  let pre := fresh "pre" in
  let post := fresh "post" in
  destruct H as [pre [post H]]; simpl in H;
  repeat (destruct pre; simpl in H; [try discriminate|];
          injection H as _ H; try discriminate);
  try (destruct pre; discriminate).

(** C5 fails on the query "_": LIKE reads it as "any one character", so
    John and Jane are both found although none of their names, emails,
    phones or phone-number rows contains an underscore. *)
Theorem search_underscore_finds_contacts_without_it :
  (exists found,
      crud.search_contacts (fun _ => false) (Some "_") None 0 10 "name" "asc"
                           (SessionLocal john_and_jane)
      = (Ok (Some (found, 2)), SessionLocal john_and_jane)
      /\ map Contact.row found = rev (contacts john_and_jane))
  /\ search_result (Some "_") None john_and_jane = contacts john_and_jane
  /\ forall c, In c (contacts john_and_jane) -> ~ contact_contains john_and_jane c "_".
Proof.
  split; [eexists; split; [vm_compute; reflexivity|reflexivity]|].
  split; [reflexivity|].
  intros c [<-|[<-|[]]] [H|[[v [[=] _]]|[[v [[= <-] H]]|[r [[] _]]]]];
    no_substring H.
Qed.

(** ** Tags *)

(** C8 fails when two case variants of a new tag come in one request: the
    lookup of "friend" does not see the [Tag] made for "Friend" a moment
    before, a second one is made, and the commit violates the unique index
    on [tags.name]; nothing is created.  The same happens on update, and,
    through the association's primary key, when the tag row is already in
    the table.  In two successive requests the second does reuse the row
    of the first. *)
Theorem tag_case_variants_in_one_request :
  crud.create_contact two_case_variants (SessionLocal empty_store)
  = (Raise IntegrityError, SessionLocal empty_store)
  /\ (exists detail,
         main.create_contact two_case_variants empty_store
         = (main.HTTPException 422 detail, empty_store))
  /\ fst (crud.update_contact 1 (retag ["Work"; "work"]) (SessionLocal ann_with_friend))
     = Raise IntegrityError
  /\ fst (crud.create_contact
            (schemas.mkContactCreate "Bob" None None None None (Some ["Friend"; "friend"]))
            (SessionLocal ann_with_friend))
     = Raise IntegrityError
  /\ tags ann_with_friend = [Tag.mk 1 "friend"]
  /\ tags (snd (main.create_contact (tagged "Bob" "friend") ann_with_friend))
     = [Tag.mk 1 "friend"]
  /\ contact_tag_association (snd (main.create_contact (tagged "Bob" "friend") ann_with_friend))
     = [(1, 1); (2, 1)].
Proof.
  split; [reflexivity|]. split; [eexists; reflexivity|]. repeat split.
Qed.

(** ** What a flush changes *)

Lemma fold_left_max_ge l i : i <= fold_left Z.max l i.
Proof.
  revert i. induction l as [|x l IH]; intros i; simpl; [lia|].
  specialize (IH (Z.max i x)). lia.
Qed.

Lemma fold_left_max_bound l i x : In x l -> x <= fold_left Z.max l i.
Proof.
  revert i. induction l as [|y l IH]; intros i; simpl; [intros []|].
  intros [->|H]; [|now apply IH].
  pose proof (fold_left_max_ge l (Z.max i x)). lia.
Qed.

Lemma next_rowid_fresh ids : ~ In (next_rowid ids) ids.
Proof.
  unfold next_rowid. destruct ids as [|i rest]; [intros []|].
  intros [H|H].
  - pose proof (fold_left_max_ge rest i). lia.
  - pose proof (fold_left_max_bound rest i _ H). lia.
Qed.

Lemma existsb_number_false l v :
  existsb (fun p => String.eqb (PhoneNumber.number p) v) l = false ->
  ~ In v (map PhoneNumber.number l).
Proof.
  intros H Hin. apply in_map_iff in Hin as [p [<- Hp]].
  assert (existsb (fun q => String.eqb (PhoneNumber.number q) (PhoneNumber.number p)) l
          = true) as H'.
  { apply existsb_exists. exists p. split; [exact Hp|apply String.eqb_refl]. }
  congruence.
Qed.

Lemma NoDup_snoc {A} (l : list A) x : NoDup l -> ~ In x l -> NoDup (l ++ [x])%list.
Proof.
  intros Hnd Hx. apply NoDup_app; [exact Hnd|repeat constructor; intros []|].
  intros y Hy [<-|[]]. contradiction.
Qed.

Lemma insert_each_phone_numbers s l s' :
  insert_each insert_phone_number s l = Some s' ->
  contacts s' = contacts s /\ addresses s' = addresses s /\ tags s' = tags s
  /\ contact_tag_association s' = contact_tag_association s
  /\ (forall r, In r (phone_numbers s') ->
        In r (phone_numbers s)
        \/ In (PhoneNumber.contact_id r, PhoneNumber.number r) l)
  /\ (NoDup (map PhoneNumber.number (phone_numbers s)) ->
      NoDup (map PhoneNumber.number (phone_numbers s'))).
Proof.
  revert s. induction l as [|[cid v] l IH]; intros s; simpl.
  - intros [= <-]. repeat split; auto.
  - destruct (existsb _ (phone_numbers s)) eqn:E; [discriminate|].
    intros H. apply IH in H as (H1 & H2 & H3 & H4 & H5 & H6). simpl in *.
    repeat split; auto.
    + intros r Hr. apply H5 in Hr as [Hr|Hr]; [|now (right; right)].
      apply in_app_iff in Hr as [Hr|[<-|[]]]; [now left|right; now left].
    + intros Hnd. apply H6. rewrite map_app. simpl.
      apply NoDup_snoc; [exact Hnd|now apply existsb_number_false].
Qed.

Lemma insert_each_addresses s l s' :
  insert_each insert_address s l = Some s' ->
  contacts s' = contacts s /\ phone_numbers s' = phone_numbers s /\ tags s' = tags s
  /\ contact_tag_association s' = contact_tag_association s.
Proof.
  revert s. induction l as [|[cid v] l IH]; intros s; simpl.
  - intros [= <-]. repeat split.
  - destruct (existsb _ (addresses s)); [discriminate|].
    intros H. apply IH in H as (H1 & H2 & H3 & H4). simpl in *. repeat split; auto.
Qed.

Lemma insert_each_associations s l s' :
  insert_each insert_association s l = Some s' ->
  contacts s' = contacts s /\ phone_numbers s' = phone_numbers s
  /\ addresses s' = addresses s /\ tags s' = tags s.
Proof.
  revert s. induction l as [|a l IH]; intros s; simpl.
  - intros [= <-]. repeat split.
  - unfold insert_association at 1.
    destruct (existsb _ (contact_tag_association s)); [discriminate|].
    intros H. apply IH in H as (H1 & H2 & H3 & H4). simpl in *. repeat split; auto.
Qed.

Lemma flush_new_tags_frame s refs s' ids :
  flush_new_tags s refs = Some (s', ids) ->
  contacts s' = contacts s /\ phone_numbers s' = phone_numbers s
  /\ addresses s' = addresses s
  /\ contact_tag_association s' = contact_tag_association s.
Proof.
  revert s s' ids. induction refs as [|[t|name] refs IH]; intros s s' ids; simpl.
  - intros [= <- <-]. repeat split.
  - destruct (flush_new_tags s refs) as [[s1 ids1]|] eqn:E; [|discriminate].
    intros [= <- <-]. exact (IH _ _ _ E).
  - unfold insert_tag. destruct (existsb _ (tags s)); [discriminate|].
    destruct (flush_new_tags _ refs) as [[s1 ids1]|] eqn:E; [|discriminate].
    intros [= <- <-]. apply IH in E as (H1 & H2 & H3 & H4). simpl in *.
    repeat split; auto.
Qed.

Lemma flush_tags_collection_frame s coll s' :
  flush_tags_collection s coll = Some s' ->
  contacts s' = contacts s /\ phone_numbers s' = phone_numbers s
  /\ addresses s' = addresses s.
Proof.
  unfold flush_tags_collection. destruct coll as [[[cid original] current]|].
  - destruct (flush_new_tags s current) as [[s1 ids]|] eqn:E; [|discriminate].
  destruct (appended_again _ _) eqn:Eagain; [discriminate|].
    intros H. apply insert_each_associations in H as (H1 & H2 & H3 & _).
    apply flush_new_tags_frame in E as (E1 & E2 & E3 & _). simpl in *.
    repeat split; congruence.
  - intros [= <-]. repeat split.
Qed.

(** A flush that deletes nothing: the contact table is the old one with the
    dirty row written back, every phone-number row is an old one or one of
    the new objects, and the numbers stay pairwise distinct. *)
Lemma flush_phone_view s u s' :
  flush s u = Some s' -> deleted u = None ->
  contacts s'
  = contacts (match dirty u with Some c => update_contact_row s c | None => s end)
  /\ (forall r, In r (phone_numbers s') ->
        In r (phone_numbers s)
        \/ In (PhoneNumber.contact_id r, PhoneNumber.number r) (new_phone_numbers u))
  /\ (NoDup (map PhoneNumber.number (phone_numbers s)) ->
      NoDup (map PhoneNumber.number (phone_numbers s'))).
Proof.
  unfold flush. intros H Hdel. rewrite Hdel in H.
  set (s0 := match dirty u with Some c => update_contact_row s c | None => s end) in *.
  assert (Hp0 : phone_numbers s0 = phone_numbers s)
    by (subst s0; now destruct (dirty u)).
  destruct (insert_each insert_phone_number s0 (new_phone_numbers u)) as [s1|] eqn:E1;
    [|discriminate].
  destruct (insert_each insert_address s1 (new_addresses u)) as [s2|] eqn:E2;
    [|discriminate].
  destruct (flush_tags_collection s2 (tags_collection u)) as [s3|] eqn:E3;
    [|discriminate].
  injection H as <-.
  apply insert_each_phone_numbers in E1 as (A1 & _ & _ & _ & A5 & A6).
  apply insert_each_addresses in E2 as (B1 & B2 & _).
  apply flush_tags_collection_frame in E3 as (C1 & C2 & _).
  rewrite Hp0 in A5, A6.
  split; [congruence|]. rewrite C2, B2. split; assumption.
Qed.

(** ** Phone values in reachable stores *)

Lemma handle_exception_is_no_reply {A} (e : exn) status (body : A) :
  main.handle_exception e <> main.Reply status body.
Proof.
  destruct e as [msg|]; simpl; [|discriminate].
  destruct (main.contains _ _); discriminate.
Qed.

Lemma main_create_contact_ok contact s created s' :
  main.create_contact contact s = (main.Reply 201 created, s') ->
  (forall v, ~ create_phone_conflict s contact v)
  /\ exists c, committed_create s contact = Some (c, s').
Proof.
  unfold main.create_contact, main.get_db.
  destruct (create_contact_cases (SessionLocal s) contact)
    as [[v [[H _]|[H _]]]|(Hp & _ & H)]; rewrite H.
  - intros [= E _].
    elim (handle_exception_is_no_reply (ValueError (crud.phone_message v)) 201 created E).
  - intros [= E _].
    elim (handle_exception_is_no_reply (ValueError (crud.address_message v)) 201 created E).
  - simpl txn in *. intros E. split; [exact Hp|].
    destruct (committed_create s contact) as [[c s1]|] eqn:Ec.
    + injection E as _ <-. now exists c.
    + discriminate E.
Qed.

Lemma main_update_contact_ok contact_id contact_update s updated s' :
  main.update_contact contact_id contact_update s = (main.Reply 200 updated, s') ->
  exists c,
    In c (contacts s) /\ Contact.id c = contact_id
    /\ (forall v, schemas.u_phone contact_update = Some v ->
                  phone_existsb s (Some v) (effective_exclusion (Some contact_id)) = false)
    /\ (forall l pd, schemas.u_phone_numbers contact_update = Some l -> In pd l ->
                  phone_existsb s (Some (schemas.number pd))
                                (effective_exclusion (Some contact_id)) = false)
    /\ committed_update s c contact_id contact_update = Some s'.
Proof.
  unfold main.update_contact, main.get_db.
  destruct (first (filter (fun c => Contact.id c =? contact_id) (contacts s)))
    as [c|] eqn:Eget.
  - destruct (update_contact_cases (SessionLocal s) contact_id contact_update c Eget)
      as [[v [db' [[H|H] _]]]|(H1 & H2 & _ & H)]; rewrite H.
    + intros [= E _].
      elim (handle_exception_is_no_reply (ValueError (crud.phone_message v)) 200 updated E).
    + intros [= E _].
      elim (handle_exception_is_no_reply (ValueError (crud.address_message v)) 200 updated E).
    + simpl txn in *. apply first_filter_some in Eget as [Hin Hid].
      apply Z.eqb_eq in Hid.
      intros E.
      destruct (committed_update s c contact_id contact_update) as [s1|] eqn:Ec.
      * injection E as _ <-. exists c. auto.
      * discriminate E.
  - unfold crud.update_contact, crud.get_contact. rewrite bind_query.
    unfold SessionLocal. cbn [txn]. rewrite Eget. simpl. discriminate.
Qed.

Lemma main_delete_contact_ok contact_id s s' :
  main.delete_contact contact_id s = (main.Reply 204 tt, s') ->
  exists c, s' = delete_cascade s (joinedload s c).
Proof.
  unfold main.delete_contact, main.get_db, crud.delete_contact, crud.get_contact.
  rewrite bind_query. unfold SessionLocal. cbn [txn].
  destruct (first (filter (fun c => Contact.id c =? contact_id) (contacts s))) as [c|];
    simpl; [|discriminate].
  intros [= <-]. now exists c.
Qed.

Lemma not_claimed_none s v :
  v <> "" -> ~ phone_claimed s v None -> forall o, ~ holds_phone s v o.
Proof.
  intros _ Hn o [[c [H1 [H2 _]]]|[r [H1 [H2 _]]]]; apply Hn; [left; exists c|right; exists r];
    repeat split; auto; intros e [=].
Qed.

Lemma not_claimed_holders s v e :
  v <> "" ->
  phone_existsb s (Some v) (effective_exclusion (Some e)) = false ->
  forall o, holds_phone s v o -> o = e.
Proof.
  intros Hne Hex o Hold. destruct (Z.eq_dec o e) as [|Hoe]; [assumption|exfalso].
  assert (Hcl : phone_claimed s v (Some e)).
  { destruct Hold as [[c [H1 [H2 H3]]]|[r [H1 [H2 H3]]]]; [left; exists c|right; exists r];
      repeat split; auto; intros e' [= <-]; congruence. }
  rewrite (phone_existsb_of_claimed _ _ _ Hne (phone_claimed_effective _ _ _ Hcl)) in Hex.
  discriminate.
Qed.

Lemma holders_unique_step s s' (target : Z) (supplied : string -> Prop) :
  (forall v o, holds_phone s' v o -> holds_phone s v o \/ (o = target /\ supplied v)) ->
  (forall v, v <> "" -> supplied v -> forall o, holds_phone s v o -> o = target) ->
  (forall v, v <> "" -> forall o1 o2, holds_phone s v o1 -> holds_phone s v o2 -> o1 = o2) ->
  forall v, v <> "" -> forall o1 o2, holds_phone s' v o1 -> holds_phone s' v o2 -> o1 = o2.
Proof.
  intros Hsub Hsup IH v Hne o1 o2 H1 H2.
  apply Hsub in H1 as [H1|[-> S1]]; apply Hsub in H2 as [H2|[-> S2]].
  - exact (IH v Hne _ _ H1 H2).
  - exact (Hsup v Hne S2 _ H1).
  - symmetry. exact (Hsup v Hne S1 _ H2).
  - reflexivity.
Qed.

Lemma NoDup_map_filter {A B} (f : A -> B) (g : A -> bool) l :
  NoDup (map f l) -> NoDup (map f (filter g l)).
Proof.
  induction l as [|x l IH]; simpl; [auto|].
  intros H. inversion H as [|? ? Hx Hnd]; subst.
  destruct (g x); simpl; [|auto].
  constructor; [|auto]. intros Hin. apply Hx.
  apply in_map_iff in Hin as [y [<- Hy]]. apply filter_In in Hy as [Hy _].
  now apply in_map.
Qed.

Lemma create_preserves_phone_invariant s contact c s' :
  phone_invariant s ->
  (forall v, ~ create_phone_conflict s contact v) ->
  committed_create s contact = Some (c, s') ->
  phone_invariant s'.
Proof.
  intros (Hnum & Hids & Huniq) Hfree. unfold committed_create.
  destruct (flush _ _) as [s1|] eqn:Eflush; [|discriminate].
  intros [= <- <-].
  apply flush_phone_view in Eflush as (Hcon & Hrows & Hnd); [|reflexivity].
  simpl in Hcon, Hrows, Hnd.
  set (new_id := next_rowid (map Contact.id (contacts s))) in *.
  split; [now apply Hnd|]. split.
  - rewrite Hcon, map_app. simpl. apply NoDup_snoc; [exact Hids|].
    apply next_rowid_fresh.
  - apply (holders_unique_step s s1 new_id
             (fun v => schemas.phone contact = Some v
                       \/ In (schemas.mkPhoneNumberCreate v)
                             (or_empty (schemas.phone_numbers contact)))).
    + intros v o [[c' [H1 [H2 H3]]]|[r [H1 [H2 H3]]]].
      * rewrite Hcon in H1. apply in_app_iff in H1 as [H1|[<-|[]]].
        -- left. left. now exists c'.
        -- right. simpl in *. split; [now symmetry|now left].
      * apply Hrows in H1 as [H1|H1].
        -- left. right. now exists r.
        -- right. apply in_map_iff in H1 as [pd [[= E1 E2] Hpd]].
           split; [congruence|]. right. rewrite <- H2, <- E2.
           now rewrite phone_number_create_eta.
    + intros v Hne Hsup o Hold. exfalso.
      apply (not_claimed_none s v Hne) with (o := o); [|exact Hold].
      intros Hcl. apply (Hfree v). split; [exact Hsup|now split].
    + exact Huniq.
Qed.

Lemma updated_row_id c u : Contact.id (updated_row c u) = Contact.id c.
Proof.
  unfold updated_row.
  destruct (schemas.u_name u), (schemas.u_email u), (schemas.u_phone u); reflexivity.
Qed.

Lemma updated_row_phone c u :
  Contact.phone (updated_row c u)
  = match schemas.u_phone u with Some p => Some p | None => Contact.phone c end.
Proof.
  unfold updated_row.
  destruct (schemas.u_name u), (schemas.u_email u), (schemas.u_phone u); reflexivity.
Qed.

Lemma update_statements_contacts s contact_id u :
  contacts (update_statements s contact_id u) = contacts s.
Proof.
  unfold update_statements.
  destruct (schemas.u_phone_numbers u), (schemas.u_addresses u); reflexivity.
Qed.

Lemma update_statements_phone_numbers s contact_id u :
  phone_numbers (update_statements s contact_id u)
  = match schemas.u_phone_numbers u with
    | Some _ => filter (fun p => negb (PhoneNumber.contact_id p =? contact_id))
                       (phone_numbers s)
    | None => phone_numbers s
    end.
Proof.
  unfold update_statements.
  destruct (schemas.u_phone_numbers u), (schemas.u_addresses u); reflexivity.
Qed.

Lemma update_preserves_phone_invariant s c contact_id u s' :
  phone_invariant s ->
  In c (contacts s) -> Contact.id c = contact_id ->
  (forall v, schemas.u_phone u = Some v ->
             phone_existsb s (Some v) (effective_exclusion (Some contact_id)) = false) ->
  (forall l pd, schemas.u_phone_numbers u = Some l -> In pd l ->
             phone_existsb s (Some (schemas.number pd))
                           (effective_exclusion (Some contact_id)) = false) ->
  committed_update s c contact_id u = Some s' ->
  phone_invariant s'.
Proof.
  intros (Hnum & Hids & Huniq) Hc Hid Hfree1 Hfree2 Hflush.
  apply flush_phone_view in Hflush as (Hcon & Hrows & Hnd); [|reflexivity].
  simpl in Hcon, Hrows. rewrite update_statements_contacts in Hcon.
  rewrite update_statements_phone_numbers in Hrows, Hnd.
  assert (Hold_rows : forall r,
            In r (match schemas.u_phone_numbers u with
                  | Some _ => filter (fun p => negb (PhoneNumber.contact_id p =? contact_id))
                                     (phone_numbers s)
                  | None => phone_numbers s
                  end) -> In r (phone_numbers s)).
  { intros r. destruct (schemas.u_phone_numbers u); [|auto].
    intros H. now apply filter_In in H. }
  split; [|split].
  - apply Hnd. destruct (schemas.u_phone_numbers u); [|exact Hnum].
    now apply NoDup_map_filter.
  - rewrite Hcon, map_map.
    rewrite (map_ext_in _ Contact.id); [exact Hids|].
    intros r _. destruct (Contact.id r =? Contact.id (updated_row c u)) eqn:E; [|reflexivity].
    apply Z.eqb_eq in E. now rewrite E.
  - apply (holders_unique_step s s' contact_id
             (fun v => schemas.u_phone u = Some v
                       \/ exists l, schemas.u_phone_numbers u = Some l
                                    /\ In (schemas.mkPhoneNumberCreate v) l)).
    + intros v o [[c' [H1 [H2 H3]]]|[r [H1 [H2 H3]]]].
      * rewrite Hcon in H1. apply in_map_iff in H1 as [r [Hr Hin]].
        rewrite updated_row_id, Hid in Hr.
        destruct (Contact.id r =? contact_id) eqn:E.
        -- subst c'. rewrite updated_row_id in H3. rewrite updated_row_phone in H2.
           destruct (schemas.u_phone u) as [p|] eqn:Ep.
           ++ right. split; [congruence|]. left. congruence.
           ++ left. left. exists c. repeat split; auto.
        -- subst c'. left. left. now exists r.
      * apply Hrows in H1 as [H1|H1].
        -- left. right. exists r. repeat split; auto.
        -- right. simpl in H1.
           destruct (schemas.u_phone_numbers u) as [l|] eqn:El; [|destruct H1].
           apply in_map_iff in H1 as [pd [[= E1 E2] Hpd]].
           split; [congruence|]. right. exists l. split; [reflexivity|].
           rewrite <- H2, <- E2. now rewrite phone_number_create_eta.
    + intros v Hne [Hv|[l [Hl Hv]]] o Hold.
      * exact (not_claimed_holders s v contact_id Hne (Hfree1 v Hv) o Hold).
      * exact (not_claimed_holders s v contact_id Hne (Hfree2 l _ Hl Hv) o Hold).
    + exact Huniq.
Qed.

Lemma delete_preserves_phone_invariant s obj :
  phone_invariant s -> phone_invariant (delete_cascade s obj).
Proof.
  intros (Hnum & Hids & Huniq). unfold delete_cascade. split; [|split]; simpl.
  - now apply NoDup_map_filter.
  - now apply NoDup_map_filter.
  - intros v Hne o1 o2 H1 H2. apply (Huniq v Hne).
    + destruct H1 as [[c [H [Ha Hb]]]|[r [H [Ha Hb]]]]; simpl in H;
        apply filter_In in H as [H _]; [left; now exists c|right; now exists r].
    + destruct H2 as [[c [H [Ha Hb]]]|[r [H [Ha Hb]]]]; simpl in H;
        apply filter_In in H as [H _]; [left; now exists c|right; now exists r].
Qed.

Lemma reachable_phone_invariant s : reachable s -> phone_invariant s.
Proof.
  induction 1 as [|s contact created s' _ IH Hrun
                  |s contact_id contact_update updated s' _ IH Hrun
                  |s contact_id s' _ IH Hrun].
  - split; [constructor|]. split; [constructor|].
    intros v _ o1 o2 [[c [[] _]]|[r [[] _]]].
  - apply main_create_contact_ok in Hrun as [Hfree [c Hc]].
    exact (create_preserves_phone_invariant _ _ _ _ IH Hfree Hc).
  - apply main_update_contact_ok in Hrun as (c & Hin & Hid & H1 & H2 & Hc).
    exact (update_preserves_phone_invariant _ _ _ _ _ IH Hin Hid H1 H2 Hc).
  - apply main_delete_contact_ok in Hrun as [c ->].
    now apply delete_preserves_phone_invariant.
Qed.

Lemma NoDup_map_inj {A B} (f : A -> B) (l : list A) x y :
  NoDup (map f l) -> In x l -> In y l -> f x = f y -> x = y.
Proof.
  induction l as [|z l IH]; simpl; [intros _ []|].
  intros H Hx Hy Hf. inversion H as [|? ? Hz Hnd]; subst.
  destruct Hx as [->|Hx], Hy as [->|Hy]; auto.
  - elim Hz. rewrite Hf. now apply in_map.
  - elim Hz. rewrite <- Hf. now apply in_map.
Qed.

Lemma reach_create_snd s contact created :
  reachable s ->
  fst (main.create_contact contact s) = main.Reply 201 created ->
  reachable (snd (main.create_contact contact s)).
Proof.
  intros Hs H. apply (reach_create s contact created _ Hs).
  destruct (main.create_contact contact s); simpl in *. congruence.
Qed.

(** C1, as amended: in every store reached from the empty one by requests
    that succeed, no two phone-number rows share a value, and a phone value
    other than the empty string is held by one contact at most: it is the
    scalar phone of at most one contact, and a row that carries it belongs
    to the contact whose scalar phone it is. *)
Theorem phone_value_has_one_owner :
  forall s : Store,
    reachable s ->
    NoDup (map PhoneNumber.number (phone_numbers s))
    /\ forall v, v <> "" ->
         (forall c1 c2, In c1 (contacts s) -> In c2 (contacts s) ->
                        Contact.phone c1 = Some v -> Contact.phone c2 = Some v ->
                        c1 = c2)
         /\ (forall c r, In c (contacts s) -> In r (phone_numbers s) ->
                         Contact.phone c = Some v -> PhoneNumber.number r = v ->
                         PhoneNumber.contact_id r = Contact.id c)
         /\ (forall r1 r2, In r1 (phone_numbers s) -> In r2 (phone_numbers s) ->
                           PhoneNumber.number r1 = v -> PhoneNumber.number r2 = v ->
                           r1 = r2).
Proof.
  intros s Hs. destruct (reachable_phone_invariant s Hs) as (Hnum & Hids & Huniq).
  split; [exact Hnum|]. intros v Hne. split; [|split].
  - intros c1 c2 H1 H2 P1 P2. apply (NoDup_map_inj Contact.id (contacts s)); auto.
    apply (Huniq v Hne); left; [exists c1|exists c2]; auto.
  - intros c r Hc Hr P N. apply (Huniq v Hne); [right; exists r|left; exists c]; auto.
  - intros r1 r2 H1 H2 N1 N2.
    apply (NoDup_map_inj PhoneNumber.number (phone_numbers s)); auto. congruence.
Qed.

Lemma phone_value_has_one_owner_witness :
  NoDup (map PhoneNumber.number
             (phone_numbers (snd (main.create_contact ann_twice empty_store))))
  /\ forall c r,
       In c (contacts (snd (main.create_contact ann_twice empty_store))) ->
       In r (phone_numbers (snd (main.create_contact ann_twice empty_store))) ->
       Contact.phone c = Some "1" -> PhoneNumber.number r = "1" ->
       PhoneNumber.contact_id r = Contact.id c.
Proof.
  destruct (phone_value_has_one_owner (snd (main.create_contact ann_twice empty_store)))
    as [Hnd Hv].
  - apply reach_create_snd
        with (created := Contact.mkObj (Contact.mk 1 "Ann" None (Some "1") None)
                                       [PhoneNumber.mk 1 1 "1"] [] []);
      [apply reach_empty|reflexivity].
  - split; [exact Hnd|]. apply (Hv "1"). discriminate.
Defined.

(** C1, as stated, fails: a create whose scalar phone is also in its
    phone-number list succeeds, and the value then stands twice in the
    store; and two contacts may both have the empty string as phone. *)
Lemma contact_holds_its_phone_twice :
  (exists created s,
      main.create_contact ann_twice empty_store = (main.Reply 201 created, s)
      /\ reachable s
      /\ phone_values s = ["1"; "1"]
      /\ ~ NoDup (phone_values s))
  /\ (exists s,
      reachable s
      /\ s = snd (main.create_contact (no_phone "Cy")
                    (snd (main.create_contact (no_phone "Bob") empty_store)))
      /\ phone_values s = [""; ""]).
Proof.
  split.
  - exists (Contact.mkObj (Contact.mk 1 "Ann" None (Some "1") None)
                           [PhoneNumber.mk 1 1 "1"] [] []),
           (snd (main.create_contact ann_twice empty_store)).
    split; [reflexivity|]. split.
    + apply reach_create_snd
        with (created := Contact.mkObj (Contact.mk 1 "Ann" None (Some "1") None)
                                       [PhoneNumber.mk 1 1 "1"] [] []);
        [apply reach_empty|reflexivity].
    + split; [reflexivity|].
      intros H. inversion H as [|? ? Hin _]; subst. apply Hin. now left.
  - eexists. split; [|split; reflexivity].
    apply reach_create_snd
      with (created := Contact.mkObj (Contact.mk 2 "Cy" None (Some "") None) [] [] []);
      [|reflexivity].
    apply reach_create_snd
      with (created := Contact.mkObj (Contact.mk 1 "Bob" None (Some "") None) [] [] []);
      [apply reach_empty|reflexivity].
Qed.

(** ** Tag names in reachable stores *)

Lemma lower_ascii_idem c : lower_ascii (lower_ascii c) = lower_ascii c.
Proof. destruct c as [[] [] [] [] [] [] [] []]; reflexivity. Qed.

Lemma lower_idem s : lower (lower s) = lower s.
Proof.
  induction s as [|c s IH]; simpl; [reflexivity|].
  now rewrite lower_ascii_idem, IH.
Qed.

Lemma existsb_tag_name_false l v :
  existsb (fun t => String.eqb (Tag.name t) v) l = false ->
  ~ In v (map Tag.name l).
Proof.
  intros H Hin. apply in_map_iff in Hin as [t [<- Ht]].
  assert (existsb (fun q => String.eqb (Tag.name q) (Tag.name t)) l = true) as H'.
  { apply existsb_exists. exists t. split; [exact Ht|apply String.eqb_refl]. }
  congruence.
Qed.

Lemma flush_new_tags_names s refs s' ids :
  flush_new_tags s refs = Some (s', ids) ->
  (NoDup (map Tag.name (tags s)) -> NoDup (map Tag.name (tags s')))
  /\ forall t, In t (tags s') ->
       In t (tags s) \/ In (Pending (Tag.name t)) refs.
Proof.
  revert s s' ids. induction refs as [|[t0|name] refs IH]; intros s s' ids; simpl.
  - intros [= <- <-]. split; auto.
  - destruct (flush_new_tags s refs) as [[s1 ids1]|] eqn:E; [|discriminate].
    intros [= <- <-]. destruct (IH _ _ _ E) as [H1 H2]. split; [exact H1|].
    intros t Ht. destruct (H2 t Ht); auto.
  - unfold insert_tag. destruct (existsb _ (tags s)) eqn:Eex; [discriminate|].
    destruct (flush_new_tags _ refs) as [[s1 ids1]|] eqn:E; [|discriminate].
    intros [= <- <-]. destruct (IH _ _ _ E) as [H1 H2]. simpl in H1, H2. split.
    + intros Hnd. apply H1. rewrite map_app. simpl.
      apply NoDup_snoc; [exact Hnd|now apply existsb_tag_name_false].
    + intros t Ht. destruct (H2 t Ht) as [Hin|Hin]; [|now (right; right)].
      apply in_app_iff in Hin as [Hin|[<-|[]]]; [now left|right; now left].
Qed.

Lemma flush_tags_collection_names s coll s' :
  flush_tags_collection s coll = Some s' ->
  (NoDup (map Tag.name (tags s)) -> NoDup (map Tag.name (tags s')))
  /\ forall t, In t (tags s') ->
       In t (tags s)
       \/ exists contact_id original current,
            coll = Some (contact_id, original, current)
            /\ In (Pending (Tag.name t)) current.
Proof.
  unfold flush_tags_collection. destruct coll as [[[cid original] current]|].
  - destruct (flush_new_tags s current) as [[s1 ids]|] eqn:E; [|discriminate].
  destruct (appended_again _ _) eqn:Eagain; [discriminate|].
    intros H. apply insert_each_associations in H as (_ & _ & _ & H). simpl in H.
    apply flush_new_tags_names in E as [E1 E2]. rewrite H. split; [exact E1|].
    intros t Ht. destruct (E2 t Ht); [now left|right]. now exists cid, original, current.
  - intros [= <-]. split; auto.
Qed.

Lemma flush_tag_names s u s' :
  flush s u = Some s' ->
  (NoDup (map Tag.name (tags s)) -> NoDup (map Tag.name (tags s')))
  /\ forall t, In t (tags s') ->
       In t (tags s)
       \/ exists contact_id original current,
            tags_collection u = Some (contact_id, original, current)
            /\ In (Pending (Tag.name t)) current.
Proof.
  unfold flush. intros H.
  set (s0 := match dirty u with Some c => update_contact_row s c | None => s end) in *.
  assert (Ht0 : tags s0 = tags s) by (subst s0; now destruct (dirty u)).
  destruct (insert_each insert_phone_number s0 (new_phone_numbers u)) as [s1|] eqn:E1;
    [|discriminate].
  destruct (insert_each insert_address s1 (new_addresses u)) as [s2|] eqn:E2;
    [|discriminate].
  destruct (flush_tags_collection s2 (tags_collection u)) as [s3|] eqn:E3;
    [|discriminate].
  injection H as <-.
  apply insert_each_phone_numbers in E1 as (_ & _ & A3 & _).
  apply insert_each_addresses in E2 as (_ & _ & B3 & _).
  apply flush_tags_collection_names in E3 as [C1 C2].
  assert (Ht2 : tags s2 = tags s) by congruence. rewrite Ht2 in C1, C2.
  assert (Ht3 : tags (match deleted u with
                      | Some c => delete_cascade s3 c
                      | None => s3
                      end) = tags s3) by now destruct (deleted u).
  rewrite Ht3. split; assumption.
Qed.

Lemma pending_resolved_is_lower s l name :
  In (Pending name) (map (resolve_tag s) l) -> lower name = name.
Proof.
  intros H. apply in_map_iff in H as [tag_name [H _]]. unfold resolve_tag in H.
  destruct (first _); [discriminate|]. injection H as <-. apply lower_idem.
Qed.

Lemma flush_preserves_tag_invariant s0 s u s' :
  tags s = tags s0 ->
  (forall contact_id original current name,
      tags_collection u = Some (contact_id, original, current) ->
      In (Pending name) current -> lower name = name) ->
  tag_invariant s0 -> flush s u = Some s' -> tag_invariant s'.
Proof.
  intros Ht Hpending [Hnd Hlow] Hflush. rewrite <- Ht in Hnd.
  apply flush_tag_names in Hflush as [H1 H2]. split; [now apply H1|].
  intros t Hin. destruct (H2 t Hin) as [Hold|(cid & original & current & Hc & Hp)].
  - apply Hlow. now rewrite <- Ht.
  - exact (Hpending _ _ _ _ Hc Hp).
Qed.

(** In every store reached from the empty one, the tag names are lowercase
    and pairwise distinct, so no two tag rows are equal up to case. *)
Lemma reachable_tag_names_unique s :
  reachable s ->
  tag_invariant s
  /\ forall t1 t2, In t1 (tags s) -> In t2 (tags s) ->
                   lower (Tag.name t1) = lower (Tag.name t2) -> t1 = t2.
Proof.
  intros Hs. assert (Hinv : tag_invariant s).
  { induction Hs as [|s contact created s' _ IH Hrun
                     |s contact_id contact_update updated s' _ IH Hrun
                     |s contact_id s' _ IH Hrun].
    - split; [constructor|intros t []].
    - apply main_create_contact_ok in Hrun as [_ [c Hc]].
      unfold committed_create in Hc.
      destruct (flush _ _) as [s1|] eqn:Eflush; [|discriminate].
      injection Hc as _ <-.
      refine (flush_preserves_tag_invariant s _ _ _ _ _ IH Eflush); [reflexivity|].
      intros cid original current name Hcoll Hp. simpl in Hcoll.
      destruct (schemas.tags contact) as [[|t l]|]; try discriminate.
      injection Hcoll as _ _ <-.
      apply in_app_iff in Hp as [Hp|Hp].
      + apply in_map_iff in Hp as [? [[=] _]].
      + exact (pending_resolved_is_lower _ (t :: l) _ Hp).
    - apply main_update_contact_ok in Hrun as (c & _ & _ & _ & _ & Hc).
      unfold committed_update in Hc.
      refine (flush_preserves_tag_invariant s _ _ _ _ _ IH Hc).
      + apply update_statements_tags.
      + intros cid original current name Hcoll Hp. simpl in Hcoll.
        destruct (schemas.u_tags contact_update) as [l|]; [|discriminate].
        injection Hcoll as _ _ <-. exact (pending_resolved_is_lower _ _ _ Hp).
    - apply main_delete_contact_ok in Hrun as [c ->]. exact IH. }
  split; [exact Hinv|]. destruct Hinv as [Hnd Hlow].
  intros t1 t2 H1 H2 Heq. apply (NoDup_map_inj Tag.name (tags s)); auto.
  now rewrite <- (Hlow t1 H1), <- (Hlow t2 H2).
Qed.

(** ** LIKE against a pattern free of wildcards *)

Lemma like_percent p s :
  like (String "%" p) s
  = like p s || match s with
                | EmptyString => false
                | String _ s' => like (String "%" p) s'
                end.
Proof. destruct s; reflexivity. Qed.

Lemma like_literal c p s :
  Ascii.eqb c "%" = false -> Ascii.eqb c "_" = false ->
  like (String c p) s
  = match s with
    | EmptyString => false
    | String d s' => Ascii.eqb (lower_ascii c) (lower_ascii d) && like p s'
    end.
Proof. intros H1 H2. simpl. rewrite H1, H2. reflexivity. Qed.

Lemma append_nil_right s : s ++ "" = s.
Proof. induction s as [|c s IH]; simpl; [reflexivity|now rewrite IH]. Qed.

Lemma append_associative a b c : (a ++ b) ++ c = a ++ b ++ c.
Proof. induction a as [|x a IH]; simpl; [reflexivity|now rewrite IH]. Qed.

Lemma lower_append a b : lower (a ++ b) = lower a ++ lower b.
Proof. induction a as [|x a IH]; simpl; [reflexivity|now rewrite IH]. Qed.

Lemma like_percent_iff p s :
  like (String "%" p) s = true <-> exists s1 s2, s = s1 ++ s2 /\ like p s2 = true.
Proof.
  induction s as [|c s IH]; rewrite like_percent.
  - rewrite orb_false_r. split.
    + intros H. now exists "", "".
    + intros [[|? ?] [s2 [H1 H2]]]; [|discriminate]. simpl in H1. now subst s2.
  - rewrite orb_true_iff, IH. split.
    + intros [H|[s1 [s2 [H1 H2]]]].
      * exists "", (String c s). now split.
      * exists (String c s1), s2. split; [simpl; now rewrite H1|exact H2].
    + intros [[|d s1] [s2 [H1 H2]]]; simpl in H1.
      * left. now subst s2.
      * right. injection H1 as _ H1. now exists s1, s2.
Qed.

Lemma like_any s : like "%" s = true.
Proof. apply like_percent_iff. exists s, "". split; [now rewrite append_nil_right|reflexivity]. Qed.

Lemma like_wildcard_free_prefix q p s :
  wildcard_free q = true ->
  like (q ++ p) s = true
  <-> exists s1 s2, s = s1 ++ s2 /\ lower s1 = lower q /\ like p s2 = true.
Proof.
  revert s. induction q as [|c q IH]; intros s Hq.
  - simpl. split.
    + intros H. now exists "", s.
    + intros [[|? ?] [s2 [H1 [H2 H3]]]]; [|discriminate]. simpl in H1. now subst s2.
  - simpl in Hq. apply andb_true_iff in Hq as [Hc Hq].
    apply andb_true_iff in Hc as [Hc1 Hc2].
    apply negb_true_iff in Hc1, Hc2.
    change (String c q ++ p) with (String c (q ++ p)).
    rewrite (like_literal _ _ _ Hc1 Hc2). destruct s as [|d s].
    + split; [discriminate|].
      intros [[|? ?] [s2 [H1 [H2 _]]]]; discriminate.
    + rewrite andb_true_iff, Ascii.eqb_eq, (IH s Hq). split.
      * intros [Hcd [s1 [s2 [H1 [H2 H3]]]]].
        exists (String d s1), s2. simpl. rewrite H1, H2, Hcd. auto.
      * intros [[|d' s1] [s2 [H1 [H2 H3]]]]; [discriminate|].
        simpl in H1, H2. injection H1 as <- H1. injection H2 as H2a H2b.
        split; [now symmetry|]. now exists s1, s2.
Qed.

Lemma lower_ascii_wildcard_free c :
  Ascii.eqb c "%" = false -> Ascii.eqb c "_" = false ->
  Ascii.eqb (lower_ascii c) "%" = false /\ Ascii.eqb (lower_ascii c) "_" = false.
Proof. destruct c as [[] [] [] [] [] [] [] []]; simpl; intros; split; congruence. Qed.

Lemma lower_wildcard_free q : wildcard_free q = true -> wildcard_free (lower q) = true.
Proof.
  induction q as [|c q IH]; simpl; [reflexivity|].
  intros H. apply andb_true_iff in H as [Hc Hq].
  apply andb_true_iff in Hc as [Hc1 Hc2]. apply negb_true_iff in Hc1, Hc2.
  destruct (lower_ascii_wildcard_free c Hc1 Hc2) as [-> ->]. simpl. now apply IH.
Qed.

(** For a query without [%] and [_], the LIKE test of a search is the
    substring test up to case. *)
Lemma like_search_term_is_substring q v :
  wildcard_free q = true ->
  like ("%" ++ lower q ++ "%") (lower v) = true <-> contains_ci v q.
Proof.
  intros Hq. change ("%" ++ lower q ++ "%") with (String "%" (lower q ++ "%")).
  rewrite like_percent_iff. unfold contains_ci. split.
  - intros [s1 [s2 [H1 H2]]].
    apply (like_wildcard_free_prefix _ _ _ (lower_wildcard_free _ Hq)) in H2
      as [s2a [s2b [H2 [H3 _]]]].
    exists (lower s1), (lower s2b).
    rewrite <- (lower_idem v), H1, H2, !lower_append, H3, lower_idem. reflexivity.
  - intros [pre [post H]]. exists pre, (lower q ++ post). split; [exact H|].
    apply (like_wildcard_free_prefix _ _ _ (lower_wildcard_free _ Hq)).
    exists (lower q), post. split; [reflexivity|]. split; [reflexivity|apply like_any].
Qed.

(** ** What a search finds *)

Lemma option_string_eqb_spec a b : option_string_eqb a b = true <-> a = b.
Proof.
  destruct a as [x|], b as [y|]; simpl; try (split; [discriminate|discriminate]).
  - rewrite String.eqb_eq. split; [now intros ->|now intros [= ->]].
  - split; reflexivity.
Qed.

Lemma contact_eqb_spec a b : contact_eqb a b = true <-> a = b.
Proof.
  unfold contact_eqb. rewrite !andb_true_iff, Z.eqb_eq, String.eqb_eq,
    !option_string_eqb_spec.
  destruct a, b; simpl. split.
  - intros [[[[-> ->] ->] ->] ->]. reflexivity.
  - intros [= -> -> -> -> ->]. auto.
Qed.

Lemma distinct_in l x : In x (distinct l) <-> In x l.
Proof.
  induction l as [|y l IH]; simpl; [reflexivity|].
  rewrite filter_In, IH. split.
  - intros [H|[H _]]; auto.
  - intros [H|H]; [now left|].
    destruct (contact_eqb x y) eqn:E.
    + apply contact_eqb_spec in E. left. now symmetry.
    + right. now split.
Qed.

Lemma distinct_nodup l : NoDup (distinct l).
Proof.
  induction l as [|y l IH]; simpl; constructor.
  - intros H. apply filter_In in H as [_ H].
    rewrite (proj2 (contact_eqb_spec y y) eq_refl) in H. discriminate.
  - now apply NoDup_filter.
Qed.

Lemma join_row_eta r : mkJoinRow (j_contact r) (j_phone r) (j_tag r) = r.
Proof. now destruct r. Qed.

Lemma in_outerjoin s rows r :
  In r (outerjoin_phone_numbers s rows)
  <-> exists r0,
        In r0 rows /\ j_contact r = j_contact r0 /\ j_tag r = j_tag r0
        /\ ((filter (fun p => PhoneNumber.contact_id p =? Contact.id (j_contact r0))
                    (phone_numbers s) = []
             /\ j_phone r = None)
            \/ exists p, In p (phone_numbers s)
                         /\ PhoneNumber.contact_id p = Contact.id (j_contact r0)
                         /\ j_phone r = Some p).
Proof.
  unfold outerjoin_phone_numbers. rewrite in_flat_map. split.
  - intros [r0 [H0 H]]. exists r0. split; [exact H0|].
    destruct (filter _ (phone_numbers s)) as [|p ps] eqn:E.
    + destruct H as [<-|[]]. simpl. auto.
    + apply in_map_iff in H as [p' [<- Hp']]. simpl.
      split; [reflexivity|]. split; [reflexivity|]. right. exists p'.
      rewrite <- E in Hp'. apply filter_In in Hp' as [Hp1 Hp2].
      apply Z.eqb_eq in Hp2. auto.
  - intros [r0 [H0 [Hc [Ht H]]]]. exists r0. split; [exact H0|].
    rewrite <- (join_row_eta r), Hc, Ht.
    destruct H as [[E ->]|[p [Hp1 [Hp2 ->]]]].
    + rewrite E. now left.
    + assert (Hin : In p (filter (fun p => PhoneNumber.contact_id p
                                           =? Contact.id (j_contact r0))
                                 (phone_numbers s))).
      { apply filter_In. split; [exact Hp1|now apply Z.eqb_eq]. }
      destruct (filter _ (phone_numbers s)) as [|p1 ps]; [destruct Hin|].
      apply in_map_iff. now exists p.
Qed.

Lemma search_query_contacts s term rows c :
  In c (map j_contact
            (filter (crud.matches_search_term term) (outerjoin_phone_numbers s rows)))
  <-> In c (map j_contact rows) /\ contact_like s term c.
Proof.
  rewrite !in_map_iff. split.
  - intros [r [<- Hr]]. apply filter_In in Hr as [Hr Hm].
    apply in_outerjoin in Hr as [r0 [H0 [Hc [_ Hp]]]].
    split; [now exists r0|]. unfold crud.matches_search_term in Hm.
    rewrite !orb_true_iff in Hm. unfold contact_like.
    destruct Hm as [[[Hm|Hm]|Hm]|Hm]; auto.
    do 3 right. destruct Hp as [[_ Hn]|[p [Hp1 [Hp2 Hn]]]]; rewrite Hn in Hm.
    + discriminate.
    + exists p. rewrite Hc. auto.
  - intros [[r0 [<- H0]] Hlike].
    assert (Hany : exists r, In r (outerjoin_phone_numbers s rows)
                             /\ j_contact r = j_contact r0).
    { destruct (filter (fun p => PhoneNumber.contact_id p =? Contact.id (j_contact r0))
                       (phone_numbers s)) as [|p ps] eqn:E.
      - exists (mkJoinRow (j_contact r0) None (j_tag r0)). split; [|reflexivity].
        apply in_outerjoin. exists r0. simpl.
        split; [exact H0|]. split; [reflexivity|]. split; [reflexivity|].
        left. rewrite E. now split.
      - exists (mkJoinRow (j_contact r0) (Some p) (j_tag r0)). split; [|reflexivity].
        apply in_outerjoin. exists r0. simpl.
        split; [exact H0|]. split; [reflexivity|]. split; [reflexivity|].
        right. exists p.
        assert (Hin : In p (p :: ps)) by now left.
        rewrite <- E in Hin. apply filter_In in Hin as [Hp1 Hp2].
        apply Z.eqb_eq in Hp2. auto. }
    destruct Hlike as [H|[H|[H|[p [Hp1 [Hp2 Hp3]]]]]].
    + destruct Hany as [r [Hr Hc]]. exists r. split; [exact Hc|].
      apply filter_In. split; [exact Hr|]. unfold crud.matches_search_term.
      now rewrite Hc, H.
    + destruct Hany as [r [Hr Hc]]. exists r. split; [exact Hc|].
      apply filter_In. split; [exact Hr|]. unfold crud.matches_search_term.
      rewrite Hc, H. now rewrite orb_true_r.
    + destruct Hany as [r [Hr Hc]]. exists r. split; [exact Hc|].
      apply filter_In. split; [exact Hr|]. unfold crud.matches_search_term.
      rewrite Hc, H. now rewrite !orb_true_r.
    + exists (mkJoinRow (j_contact r0) (Some p) (j_tag r0)). split; [reflexivity|].
      apply filter_In. split.
      * apply in_outerjoin. exists r0. simpl.
        split; [exact H0|]. split; [reflexivity|]. split; [reflexivity|].
        right. now exists p.
      * unfold crud.matches_search_term. simpl. rewrite Hp3. now rewrite !orb_true_r.
Qed.

Lemma search_tag_contacts s tag rows c :
  In c (map j_contact (filter (crud.matches_tag tag) (join_tags s rows)))
  <-> In c (map j_contact rows) /\ contact_tagged s c tag.
Proof.
  rewrite !in_map_iff. unfold join_tags, contact_tagged. split.
  - intros [r [<- Hr]]. apply filter_In in Hr as [Hr Hm].
    apply in_flat_map in Hr as [r0 [H0 Hr]].
    apply in_map_iff in Hr as [t [<- Ht]]. simpl in *.
    split; [now exists r0|]. exists t. split; [exact Ht|].
    unfold crud.matches_tag in Hm. simpl in Hm. now apply String.eqb_eq.
  - intros [[r0 [<- H0]] [t [Ht Hname]]].
    exists (mkJoinRow (j_contact r0) (j_phone r0) (Some t)). split; [reflexivity|].
    apply filter_In. split.
    + apply in_flat_map. exists r0. split; [exact H0|].
      apply in_map_iff. now exists t.
    + unfold crud.matches_tag. simpl. now apply String.eqb_eq.
Qed.

Lemma contact_like_is_contains s q c :
  wildcard_free q = true ->
  contact_like s ("%" ++ lower q ++ "%") c <-> contact_contains s c q.
Proof.
  intros Hq. unfold contact_like, contact_contains, sql_lower_like.
  rewrite (like_search_term_is_substring q (Contact.name c) Hq).
  assert (Hopt : forall o : option string,
             match o with Some v => like ("%" ++ lower q ++ "%") (lower v) | None => false end
             = true
             <-> exists v, o = Some v /\ contains_ci v q).
  { intros [v|].
    - rewrite (like_search_term_is_substring q v Hq). split.
      + intros H. now exists v.
      + now intros [v' [[= <-] H]].
    - split; [discriminate|]. now intros [v [[=] _]]. }
  rewrite !Hopt. split.
  - intros [H|[H|[H|[r [H1 [H2 H3]]]]]]; auto.
    do 3 right. exists r. rewrite <- (like_search_term_is_substring q _ Hq). auto.
  - intros [H|[H|[H|[r [H1 [H2 H3]]]]]]; auto.
    do 3 right. exists r. rewrite (like_search_term_is_substring q _ Hq). auto.
Qed.

(** For a query free of [%] and [_], a search finds each contact once, and
    finds exactly the contacts of which one of the four values contains the
    query up to case (when a non-empty query is given) and which carry a
    tag of the given name up to case (when a non-empty tag is given). *)
Lemma search_finds_exactly_the_matches s q tag :
  (forall q', q = Some q' -> wildcard_free q' = true) ->
  NoDup (search_result q tag s)
  /\ forall c,
       In c (search_result q tag s)
       <-> In c (contacts s)
           /\ (forall q', q = Some q' -> q' <> "" -> contact_contains s c q')
           /\ (forall t, tag = Some t -> t <> "" -> contact_tagged s c t).
Proof.
  intros Hq. unfold search_result. split; [apply distinct_nodup|].
  intros c. rewrite distinct_in. unfold crud.search_rows.
  set (rows0 := map (fun c => mkJoinRow c None None) (contacts s)).
  assert (H0 : map j_contact rows0 = contacts s).
  { subst rows0. rewrite map_map. simpl. apply map_id. }
  set (rows1 := match q with
                | Some ((String _ _) as query) =>
                    filter (crud.matches_search_term ("%" ++ lower query ++ "%"))
                           (outerjoin_phone_numbers s rows0)
                | _ => rows0
                end).
  assert (H1 : In c (map j_contact rows1)
               <-> In c (contacts s)
                   /\ (forall q', q = Some q' -> q' <> "" -> contact_contains s c q')).
  { subst rows1. destruct q as [[|a q]|].
    - rewrite H0. split; [|tauto]. intros H. split; [exact H|].
      intros q' [= <-] Hne. now elim Hne.
    - rewrite search_query_contacts, H0,
        (contact_like_is_contains s (String a q) c (Hq _ eq_refl)).
      split.
      + intros [Hc Hl]. split; [exact Hc|]. now intros q' [= <-] _.
      + intros [Hc Hl]. split; [exact Hc|]. now apply Hl.
    - rewrite H0. split; [|tauto]. intros H. split; [exact H|]. intros q' [=]. }
  destruct tag as [[|a t]|].
  - rewrite H1. split; [|tauto]. intros [Hc Hl]. repeat split; auto.
    intros t [= <-] Hne. now elim Hne.
  - rewrite search_tag_contacts, H1. split.
    + intros [[Hc Hl] Ht]. repeat split; auto. now intros t' [= <-] _.
    + intros [Hc [Hl Ht]]. repeat split; auto. now apply Ht.
  - rewrite H1. split; [|tauto]. intros [Hc Hl]. repeat split; auto. intros t [=].
Qed.

Lemma search_result_spec s q tag c :
  In c (search_result q tag s)
  <-> In c (contacts s)
      /\ match q with
         | Some ((String _ _) as query) => contact_like s ("%" ++ lower query ++ "%") c
         | _ => True
         end
      /\ match tag with
         | Some ((String _ _) as t) => contact_tagged s c t
         | _ => True
         end.
Proof.
  unfold search_result. rewrite distinct_in. unfold crud.search_rows.
  set (rows0 := map (fun c => mkJoinRow c None None) (contacts s)).
  assert (H0 : map j_contact rows0 = contacts s).
  { subst rows0. rewrite map_map. simpl. apply map_id. }
  set (rows1 := match q with
                | Some ((String _ _) as query) =>
                    filter (crud.matches_search_term ("%" ++ lower query ++ "%"))
                           (outerjoin_phone_numbers s rows0)
                | _ => rows0
                end).
  assert (H1 : In c (map j_contact rows1)
               <-> In c (contacts s)
                   /\ match q with
                      | Some ((String _ _) as query) =>
                          contact_like s ("%" ++ lower query ++ "%") c
                      | _ => True
                      end).
  { subst rows1. destruct q as [[|a q]|].
    - rewrite H0. tauto.
    - now rewrite search_query_contacts, H0.
    - rewrite H0. tauto. }
  destruct tag as [[|a t]|].
  - rewrite H1. tauto.
  - rewrite search_tag_contacts, H1. tauto.
  - rewrite H1. tauto.
Qed.

(** ** Pages *)

Lemma same_contact_refl a : same_contact a a.
Proof. repeat split. apply Permutation_refl. Qed.

Lemma same_contacts_refl l : Forall2 same_contact l l.
Proof. induction l; constructor; [apply same_contact_refl|assumption]. Qed.

Lemma same_contacts_length l l' :
  Forall2 same_contact l l' -> List.length l = List.length l'.
Proof. induction 1; simpl; congruence. Qed.




(** * Further properties *)

(** ** What a request answers *)

Lemma substring_at_prefix needle rest :
  substring 0 (String.length needle) (needle ++ rest) = needle.
Proof. induction needle as [|c n IH]; simpl; [now destruct rest|now rewrite IH]. Qed.

Lemma substring_after_prefix pre needle rest :
  substring (String.length pre) (String.length needle) (pre ++ needle ++ rest) = needle.
Proof. induction pre as [|c p IH]; simpl; [apply substring_at_prefix|exact IH]. Qed.

Lemma contains_infix pre needle rest :
  needle <> "" -> main.contains needle (pre ++ needle ++ rest) = true.
Proof.
  intros Hne. unfold main.contains.
  destruct (String.index 0 needle (pre ++ needle ++ rest)) eqn:E; [reflexivity|].
  exfalso.
  exact (String.index_correct3 0 (String.length pre) _ _ E Hne (Nat.le_0_l _)
           (substring_after_prefix pre needle rest)).
Qed.

Lemma phone_message_is_conflict v :
  main.contains "already assigned" (lower (crud.phone_message v)) = true.
Proof.
  unfold crud.phone_message. rewrite !lower_append.
  change (lower "' is already assigned to another contact")
    with ("' is " ++ "already assigned" ++ " to another contact").
  rewrite <- !append_associative. rewrite append_associative.
  apply contains_infix. discriminate.
Qed.

Lemma address_message_is_conflict v :
  main.contains "already assigned" (lower (crud.address_message v)) = true.
Proof.
  unfold crud.address_message. rewrite !lower_append.
  change (lower "' is already assigned to another contact")
    with ("' is " ++ "already assigned" ++ " to another contact").
  rewrite <- !append_associative. rewrite append_associative.
  apply contains_infix. discriminate.
Qed.

(** X1: a create, an update or a delete either returns, and then what its
    transaction holds is committed, or it leaves the committed store as it
    was: so does a create or an update that raises, whatever it raises, and
    so does an update or a delete (of an id within SQLite's integers) that
    finds no contact, which leaves the whole session as it was. *)
Theorem request_succeeds_or_changes_nothing :
  forall (db : Session),
    (forall contact,
        (exists created s',
            crud.create_contact contact db = (Ok created, mkSession s' s'))
        \/ (exists e db',
               crud.create_contact contact db = (Raise e, db')
               /\ close db' = committed db))
    /\ (forall contact_id contact_update,
        sqlite_integer contact_id ->
        (exists updated s',
            crud.update_contact contact_id contact_update db
            = (Ok (Some updated), mkSession s' s'))
        \/ crud.update_contact contact_id contact_update db = (Ok None, db)
        \/ (exists e db',
               crud.update_contact contact_id contact_update db = (Raise e, db')
               /\ close db' = committed db))
    /\ (forall contact_id,
        sqlite_integer contact_id ->
        (exists s', crud.delete_contact contact_id db = (Ok true, mkSession s' s'))
        \/ crud.delete_contact contact_id db = (Ok false, db)).
Proof.
  intros db. split; [|split].
  - intros contact.
    destruct (create_contact_cases db contact)
      as [[v [[H _]|[H _]]]|(_ & _ & H)]; rewrite H.
    + right. now eexists _, _.
    + right. now eexists _, _.
    + destruct (committed_create (txn db) contact) as [[c s1]|].
      * left. now eexists _, _.
      * right. now eexists _, _.
  - intros contact_id contact_update _.
    destruct (first (filter (fun c => Contact.id c =? contact_id) (contacts (txn db))))
      as [c|] eqn:Eget.
    + destruct (update_contact_cases db contact_id contact_update c Eget)
        as [[v [db' [[H|H] Hcom]]]|(_ & _ & _ & H)]; rewrite H.
      * right. right. now eexists _, _.
      * right. right. now eexists _, _.
      * destruct (committed_update (txn db) c contact_id contact_update) as [s1|].
        -- left. now eexists _, _.
        -- right. right. now eexists _, _.
    + right. left. unfold crud.update_contact, crud.get_contact.
      rewrite bind_query, Eget. reflexivity.
  - intros contact_id _.
    unfold crud.delete_contact, crud.get_contact. rewrite bind_query.
    destruct (first (filter (fun c => Contact.id c =? contact_id) (contacts (txn db))))
      as [c|].
    + left. unfold bind, commit, flush. simpl. now eexists.
    + right. reflexivity.
Qed.

Lemma request_succeeds_or_changes_nothing_witness :
  (exists s',
      crud.delete_contact 1 (SessionLocal john_and_jane) = (Ok true, mkSession s' s'))
  \/ crud.delete_contact 1 (SessionLocal john_and_jane)
     = (Ok false, SessionLocal john_and_jane).
Proof.
  apply (proj2 (proj2 (request_succeeds_or_changes_nothing (SessionLocal john_and_jane))) 1).
  unfold sqlite_integer. lia.
Defined.

(** ** The rows a flush writes *)

Lemma insert_each_phone_numbers_rows s l s' :
  insert_each insert_phone_number s l = Some s' ->
  exists rows,
    phone_numbers s' = (phone_numbers s ++ rows)%list
    /\ map (fun r => (PhoneNumber.contact_id r, PhoneNumber.number r)) rows = l.
Proof.
  revert s. induction l as [|[cid v] l IH]; intros s; simpl.
  - intros [= <-]. exists []. now rewrite app_nil_r.
  - destruct (existsb _ (phone_numbers s)); [discriminate|].
    intros H. apply IH in H as [rows [H1 H2]]. simpl in H1.
    eexists (_ :: rows). rewrite H1, <- app_assoc. split; [reflexivity|].
    simpl. now rewrite H2.
Qed.

Lemma insert_each_addresses_rows s l s' :
  insert_each insert_address s l = Some s' ->
  exists rows,
    addresses s' = (addresses s ++ rows)%list
    /\ map (fun r => (Address.contact_id r, Address.address r)) rows = l.
Proof.
  revert s. induction l as [|[cid v] l IH]; intros s; simpl.
  - intros [= <-]. exists []. now rewrite app_nil_r.
  - destruct (existsb _ (addresses s)); [discriminate|].
    intros H. apply IH in H as [rows [H1 H2]]. simpl in H1.
    eexists (_ :: rows). rewrite H1, <- app_assoc. split; [reflexivity|].
    simpl. now rewrite H2.
Qed.

Lemma insert_each_associations_rows s l s' :
  insert_each insert_association s l = Some s' ->
  contact_tag_association s' = (contact_tag_association s ++ l)%list.
Proof.
  revert s. induction l as [|a l IH]; intros s; simpl.
  - intros [= <-]. now rewrite app_nil_r.
  - unfold insert_association at 1.
    destruct (existsb _ (contact_tag_association s)); [discriminate|].
    intros H. apply IH in H. simpl in H. now rewrite H, <- app_assoc.
Qed.

Lemma flush_new_tags_rows s refs s' ids :
  flush_new_tags s refs = Some (s', ids) ->
  exists rows, tags s' = (tags s ++ rows)%list.
Proof.
  revert s s' ids. induction refs as [|[t|name] refs IH]; intros s s' ids; simpl.
  - intros [= <- <-]. exists []. now rewrite app_nil_r.
  - destruct (flush_new_tags s refs) as [[s1 ids1]|] eqn:E; [|discriminate].
    intros [= <- <-]. exact (IH _ _ _ E).
  - unfold insert_tag. destruct (existsb _ (tags s)); [discriminate|].
    destruct (flush_new_tags _ refs) as [[s1 ids1]|] eqn:E; [|discriminate].
    intros [= <- <-]. apply IH in E as [rows E]. simpl in E.
    eexists (_ :: rows). now rewrite E, <- app_assoc.
Qed.

Lemma flush_tags_collection_rows s coll s' :
  flush_tags_collection s coll = Some s' ->
  (exists rows, tags s' = (tags s ++ rows)%list)
  /\ (coll = None -> s' = s).
Proof.
  unfold flush_tags_collection. destruct coll as [[[cid original] current]|].
  - destruct (flush_new_tags s current) as [[s1 ids]|] eqn:E; [|discriminate].
  destruct (appended_again _ _) eqn:Eagain; [discriminate|].
    intros H. apply insert_each_associations in H as (_ & _ & _ & H). simpl in H.
    apply flush_new_tags_rows in E as [rows E]. split; [|discriminate].
    exists rows. congruence.
  - intros [= <-]. split; [|reflexivity]. exists []. now rewrite app_nil_r.
Qed.

(** A flush that deletes nothing only appends to the child tables and to
    the tag table. *)
Lemma flush_appends s u s' :
  flush s u = Some s' -> deleted u = None ->
  contacts s'
  = contacts (match dirty u with Some c => update_contact_row s c | None => s end)
  /\ (exists rows,
         phone_numbers s' = (phone_numbers s ++ rows)%list
         /\ map (fun r => (PhoneNumber.contact_id r, PhoneNumber.number r)) rows
            = new_phone_numbers u)
  /\ (exists rows,
         addresses s' = (addresses s ++ rows)%list
         /\ map (fun r => (Address.contact_id r, Address.address r)) rows
            = new_addresses u)
  /\ (exists rows, tags s' = (tags s ++ rows)%list)
  /\ (tags_collection u = None ->
      tags s' = tags s /\ contact_tag_association s' = contact_tag_association s).
Proof.
  unfold flush. intros H Hdel. rewrite Hdel in H.
  set (s0 := match dirty u with Some c => update_contact_row s c | None => s end) in *.
  assert (Hp0 : phone_numbers s0 = phone_numbers s) by (subst s0; now destruct (dirty u)).
  assert (Ha0 : addresses s0 = addresses s) by (subst s0; now destruct (dirty u)).
  assert (Ht0 : tags s0 = tags s) by (subst s0; now destruct (dirty u)).
  assert (Hc0 : contact_tag_association s0 = contact_tag_association s)
    by (subst s0; now destruct (dirty u)).
  destruct (insert_each insert_phone_number s0 (new_phone_numbers u)) as [s1|] eqn:E1;
    [|discriminate].
  destruct (insert_each insert_address s1 (new_addresses u)) as [s2|] eqn:E2;
    [|discriminate].
  destruct (flush_tags_collection s2 (tags_collection u)) as [s3|] eqn:E3;
    [|discriminate].
  injection H as <-.
  destruct (insert_each_phone_numbers_rows _ _ _ E1) as [prows [P1 P2]].
  destruct (insert_each_addresses_rows _ _ _ E2) as [arows [A1 A2]].
  apply insert_each_phone_numbers in E1 as (F1 & F2 & F3 & F4 & _).
  apply insert_each_addresses in E2 as (G1 & G2 & G3 & G4).
  destruct (flush_tags_collection_rows _ _ _ E3) as [[trows T1] T2].
  apply flush_tags_collection_frame in E3 as (C1 & C2 & C3).
  split; [congruence|]. split; [|split; [|split]].
  - exists prows. split; [congruence|exact P2].
  - exists arows. split; [congruence|exact A2].
  - exists trows. congruence.
  - intros Hnone. rewrite (T2 Hnone). split; congruence.
Qed.

Lemma filter_nothing {A} (f : A -> bool) l :
  (forall x, In x l -> f x = false) -> filter f l = [].
Proof.
  induction l as [|x l IH]; simpl; intros H; [reflexivity|].
  rewrite (H x (or_introl eq_refl)). apply IH. intros y Hy. apply H. now right.
Qed.

Lemma next_rowid_above ids x : In x ids -> x < next_rowid ids.
Proof.
  unfold next_rowid. destruct ids as [|i rest]; [intros []|].
  intros [<-|H].
  - pose proof (fold_left_max_ge rest i). lia.
  - pose proof (fold_left_max_bound rest i _ H). lia.
Qed.

(** A create that returns has run into its commit, and the commit went
    through. *)
Lemma create_contact_ok db contact created db' :
  crud.create_contact contact db = (Ok created, db') ->
  exists c s',
    committed_create (txn db) contact = Some (c, s')
    /\ created = joinedload s' c /\ db' = mkSession s' s'
    /\ (forall v, ~ create_phone_conflict (txn db) contact v)
    /\ (forall v, ~ create_address_conflict (txn db) contact v).
Proof.
  destruct (create_contact_cases db contact) as [[v [[H _]|[H _]]]|(Hp & Ha & H)];
    rewrite H; try discriminate.
  destruct (committed_create (txn db) contact) as [[c s1]|]; [|discriminate].
  intros [= <- <-]. exists c, s1. auto.
Qed.

Lemma flush_new_tags_persistent_ids s l refs s' ids :
  flush_new_tags s (map Persistent l ++ refs)%list = Some (s', ids) ->
  exists rest, ids = (map Tag.id l ++ rest)%list.
Proof.
  revert s' ids. induction l as [|t l IH]; intros s' ids; simpl.
  - intros _. now exists ids.
  - destruct (flush_new_tags s (map Persistent l ++ refs)%list) as [[s1 ids1]|] eqn:E;
      [|discriminate].
    intros [= <- <-]. destruct (IH _ _ eq_refl) as [rest ->]. now exists rest.
Qed.

Lemma filter_everything {A} (f : A -> bool) l :
  (forall x, In x l -> f x = true) -> filter f l = l.
Proof.
  induction l as [|x l IH]; simpl; intros H; [reflexivity|].
  rewrite (H x (or_introl eq_refl)), IH; [reflexivity|].
  intros y Hy. apply H. now right.
Qed.

Lemma mem_in i l : mem i l = true <-> In i l.
Proof.
  unfold mem. rewrite existsb_exists. split.
  - intros [x [H1 H2]]. apply Z.eqb_eq in H2. now subst.
  - intros H. exists i. split; [exact H|apply Z.eqb_refl].
Qed.

(** The commit of a create leaves every association row in place. *)
Lemma committed_create_keeps_associations s contact c s' :
  committed_create s contact = Some (c, s') ->
  exists rows, contact_tag_association s' = (contact_tag_association s ++ rows)%list.
Proof.
  unfold committed_create, flush. cbn [dirty new_phone_numbers new_addresses deleted
    tags_collection create_unit_of_work].
  set (s0 := snd (insert_contact s _ _ _)).
  set (c0 := fst (insert_contact s _ _ _)).
  destruct (insert_each insert_phone_number s0 _) as [s1|] eqn:E1; [|discriminate].
  destruct (insert_each insert_address s1 _) as [s2|] eqn:E2; [|discriminate].
  apply insert_each_phone_numbers in E1 as (_ & _ & _ & F4 & _).
  apply insert_each_addresses in E2 as (_ & _ & _ & G4).
  assert (H2 : contact_tag_association s2 = contact_tag_association s)
    by (rewrite G4, F4; reflexivity).
  destruct (schemas.tags contact) as [[|t l]|].
  - simpl. intros [= <- <-]. exists []. now rewrite app_nil_r.
  - unfold flush_tags_collection.
    destruct (flush_new_tags s2 _) as [[s3 ids]|] eqn:E3; [|discriminate].
    destruct (appended_again _ _) eqn:Eagain; [discriminate|].
    destruct (flush_new_tags_persistent_ids _ _ _ _ _ E3) as [rest Hids].
    apply flush_new_tags_frame in E3 as (_ & _ & _ & T4).
    destruct (insert_each insert_association _ _) as [s4|] eqn:E4; [|discriminate].
    intros [= <- <-]. apply insert_each_associations_rows in E4. simpl in E4.
    rewrite filter_everything in E4.
    + eexists. rewrite E4, T4, H2. reflexivity.
    + intros a _. destruct (fst a =? _); [|reflexivity]. simpl.
      destruct (mem (snd a) ids) eqn:Ei; [now rewrite andb_false_r|].
      destruct (mem (snd a) (map Tag.id _)) eqn:Em; [exfalso|reflexivity].
      apply mem_in in Em.
      assert (Hin : mem (snd a) ids = true)
        by (apply mem_in; rewrite Hids; apply in_or_app; left; exact Em).
      congruence.
  - simpl. intros [= <- <-]. exists []. now rewrite app_nil_r.
Qed.

(** X2: a create that returns has committed; the new contact row carries
    the request's name, email and phone, no address, and an id above every
    id of the table; and the five tables of the committed store are the old
    ones with rows appended: the contact row, one phone-number row and one
    address row for each entry of the request, in its order. *)
Theorem create_only_appends :
  forall (db : Session) (contact : schemas.ContactCreate)
         (created : Contact.obj) (db' : Session),
    crud.create_contact contact db = (Ok created, db') ->
    exists s',
      db' = mkSession s' s'
      /\ Contact.row created
         = Contact.mk (Contact.id (Contact.row created)) (schemas.name contact)
                      (schemas.email contact) (schemas.phone contact) None
      /\ (forall c, In c (contacts (txn db)) ->
                    Contact.id c < Contact.id (Contact.row created))
      /\ contacts s' = (contacts (txn db) ++ [Contact.row created])%list
      /\ (exists rows,
             phone_numbers s' = (phone_numbers (txn db) ++ rows)%list
             /\ map (fun r => (PhoneNumber.contact_id r, PhoneNumber.number r)) rows
                = map (fun pd => (Contact.id (Contact.row created), schemas.number pd))
                      (or_empty (schemas.phone_numbers contact)))
      /\ (exists rows,
             addresses s' = (addresses (txn db) ++ rows)%list
             /\ map (fun r => (Address.contact_id r, Address.address r)) rows
                = map (fun ad => (Contact.id (Contact.row created), schemas.address ad))
                      (or_empty (schemas.addresses contact)))
      /\ (exists rows, tags s' = (tags (txn db) ++ rows)%list)
      /\ (exists rows,
             contact_tag_association s'
             = (contact_tag_association (txn db) ++ rows)%list).
Proof.
  intros db contact created db' Hrun.
  apply create_contact_ok in Hrun as (c & s' & Hc & -> & -> & _ & _).
  exists s'. split; [reflexivity|].
  pose proof (committed_create_keeps_associations _ _ _ _ Hc) as Hassoc.
  unfold committed_create in Hc.
  destruct (flush _ _) as [s1|] eqn:Eflush; [|discriminate].
  injection Hc as <- <-.
  apply flush_appends in Eflush as (Hcon & Hp & Ha & Ht & _); [|reflexivity].
  cbn [joinedload Contact.row]. simpl in Hcon, Hp, Ha, Ht.
  split; [reflexivity|]. split.
  - intros c Hin. simpl. apply next_rowid_above. now apply in_map.
  - split; [exact Hcon|]. split; [exact Hp|]. split; [exact Ha|].
    split; [exact Ht|exact Hassoc].
Qed.

Lemma create_only_appends_witness :
  exists s',
    contacts s'
    = (contacts john_and_jane ++ [Contact.mk 3 "Ann" None (Some "1") None])%list
    /\ exists rows,
         phone_numbers s' = (phone_numbers john_and_jane ++ rows)%list
         /\ map (fun r => (PhoneNumber.contact_id r, PhoneNumber.number r)) rows
            = [(3, "1")].
Proof.
  destruct (create_only_appends (SessionLocal john_and_jane) ann_twice
              (Contact.mkObj (Contact.mk 3 "Ann" None (Some "1") None)
                             [PhoneNumber.mk 1 3 "1"] [] [])
              (mkSession
                 (mkStore (contacts john_and_jane
                           ++ [Contact.mk 3 "Ann" None (Some "1") None])%list
                          [PhoneNumber.mk 1 3 "1"] [] [] [])
                 (mkStore (contacts john_and_jane
                           ++ [Contact.mk 3 "Ann" None (Some "1") None])%list
                          [PhoneNumber.mk 1 3 "1"] [] [] []))
              eq_refl)
    as [s' [_ [_ [_ [Hc [Hp _]]]]]].
  exists s'. split; [exact Hc|exact Hp].
Defined.

(** X3: the object a create returns is the object a later read of its id
    returns, in any session opened on the committed store. *)
Theorem create_then_get_contact :
  forall (db : Session) (contact : schemas.ContactCreate)
         (created : Contact.obj) (db' : Session),
    crud.create_contact contact db = (Ok created, db') ->
    crud.get_contact (Contact.id (Contact.row created)) (SessionLocal (close db'))
    = (Ok (Some created), SessionLocal (close db')).
Proof.
  intros db contact created db' Hrun.
  apply create_contact_ok in Hrun as (c & s' & Hc & -> & -> & _ & _).
  unfold committed_create in Hc.
  destruct (flush _ _) as [s1|] eqn:Eflush; [|discriminate].
  injection Hc as <- <-.
  apply flush_appends in Eflush as (Hcon & _); [|reflexivity]. simpl in Hcon.
  unfold crud.get_contact, query, close, SessionLocal. cbn [txn committed joinedload
    Contact.row]. rewrite Hcon, filter_app. simpl. rewrite Z.eqb_refl.
  rewrite filter_nothing; [reflexivity|].
  intros x Hx. apply Z.eqb_neq. intros E.
  apply (next_rowid_fresh (map Contact.id (contacts (txn db)))).
  rewrite <- E. now apply in_map.
Qed.

Lemma create_then_get_contact_witness :
  crud.get_contact 3
    (SessionLocal (mkStore (contacts john_and_jane
                            ++ [Contact.mk 3 "Ann" None (Some "1") None])%list
                           [PhoneNumber.mk 1 3 "1"] [] [] []))
  = (Ok (Some (Contact.mkObj (Contact.mk 3 "Ann" None (Some "1") None)
                             [PhoneNumber.mk 1 3 "1"] [] [])),
     SessionLocal (mkStore (contacts john_and_jane
                            ++ [Contact.mk 3 "Ann" None (Some "1") None])%list
                           [PhoneNumber.mk 1 3 "1"] [] [] [])).
Proof.
  exact (create_then_get_contact (SessionLocal john_and_jane) ann_twice
           (Contact.mkObj (Contact.mk 3 "Ann" None (Some "1") None)
                          [PhoneNumber.mk 1 3 "1"] [] [])
           (mkSession
              (mkStore (contacts john_and_jane
                        ++ [Contact.mk 3 "Ann" None (Some "1") None])%list
                       [PhoneNumber.mk 1 3 "1"] [] [] [])
              (mkStore (contacts john_and_jane
                        ++ [Contact.mk 3 "Ann" None (Some "1") None])%list
                       [PhoneNumber.mk 1 3 "1"] [] [] []))
           eq_refl).
Defined.

(** ** Update *)

(** An update that returns a contact has found it, passed its checks and
    committed. *)
Lemma update_contact_ok db contact_id contact_update updated db' :
  crud.update_contact contact_id contact_update db = (Ok (Some updated), db') ->
  exists c s',
    first (filter (fun c => Contact.id c =? contact_id) (contacts (txn db))) = Some c
    /\ committed_update (txn db) c contact_id contact_update = Some s'
    /\ updated = joinedload s' (updated_row c contact_update)
    /\ db' = mkSession s' s'.
Proof.
  destruct (first (filter (fun c => Contact.id c =? contact_id) (contacts (txn db))))
    as [c|] eqn:Eget.
  - destruct (update_contact_cases db contact_id contact_update c Eget)
      as [[v [db1 [[H|H] _]]]|(_ & _ & _ & H)]; rewrite H; try discriminate.
    destruct (committed_update (txn db) c contact_id contact_update) as [s1|] eqn:Ec;
      [|discriminate].
    intros [= <- <-]. exists c, s1. auto.
  - unfold crud.update_contact, crud.get_contact. rewrite bind_query, Eget.
    simpl. discriminate.
Qed.

Lemma update_statements_addresses s contact_id u :
  addresses (update_statements s contact_id u)
  = match schemas.u_addresses u with
    | Some _ => filter (fun a => negb (Address.contact_id a =? contact_id)) (addresses s)
    | None => addresses s
    end.
Proof.
  unfold update_statements.
  destruct (schemas.u_phone_numbers u), (schemas.u_addresses u); reflexivity.
Qed.

Lemma update_statements_associations s contact_id u :
  contact_tag_association (update_statements s contact_id u) = contact_tag_association s.
Proof.
  unfold update_statements.
  destruct (schemas.u_phone_numbers u), (schemas.u_addresses u); reflexivity.
Qed.

(** The tables a committed update leaves. *)
Lemma committed_update_tables s c contact_id u s' :
  committed_update s c contact_id u = Some s' ->
  contacts s'
  = map (fun r => if Contact.id r =? Contact.id c then updated_row c u else r) (contacts s)
  /\ (exists rows,
         phone_numbers s'
         = (match schemas.u_phone_numbers u with
            | Some _ => filter (fun p => negb (PhoneNumber.contact_id p =? contact_id))
                               (phone_numbers s)
            | None => phone_numbers s
            end ++ rows)%list
         /\ map (fun r => (PhoneNumber.contact_id r, PhoneNumber.number r)) rows
            = match schemas.u_phone_numbers u with
              | Some l => map (fun pd => (contact_id, schemas.number pd)) l
              | None => []
              end)
  /\ (exists rows,
         addresses s'
         = (match schemas.u_addresses u with
            | Some _ => filter (fun a => negb (Address.contact_id a =? contact_id))
                               (addresses s)
            | None => addresses s
            end ++ rows)%list
         /\ map (fun r => (Address.contact_id r, Address.address r)) rows
            = match schemas.u_addresses u with
              | Some l => map (fun ad => (contact_id, schemas.address ad)) l
              | None => []
              end)
  /\ (exists rows, tags s' = (tags s ++ rows)%list)
  /\ (schemas.u_tags u = None ->
      tags s' = tags s /\ contact_tag_association s' = contact_tag_association s).
Proof.
  unfold committed_update. intros H.
  apply flush_appends in H as (Hcon & Hp & Ha & Ht & Hn); [|reflexivity].
  cbn [dirty new_phone_numbers new_addresses tags_collection update_unit_of_work]
    in Hcon, Hp, Ha, Hn.
  unfold update_contact_row in Hcon. cbn [contacts set_contacts] in Hcon.
  rewrite update_statements_contacts, updated_row_id in Hcon.
  rewrite update_statements_phone_numbers in Hp.
  rewrite update_statements_addresses in Ha.
  rewrite update_statements_tags in Ht, Hn.
  rewrite update_statements_associations in Hn.
  split; [exact Hcon|]. split; [exact Hp|]. split; [exact Ha|]. split; [exact Ht|].
  intros Hu. apply Hn. now rewrite Hu.
Qed.

(** X4: an update of an id, within SQLite's integers, that no contact has
    answers [None] whatever it supplies, and leaves the session as it was;
    and [None] is answered in that case only. *)
Theorem update_of_missing_contact :
  forall (db : Session) (contact_id : Z) (contact_update : schemas.ContactUpdate),
    sqlite_integer contact_id ->
    ((forall c, In c (contacts (txn db)) -> Contact.id c <> contact_id)
     <-> crud.update_contact contact_id contact_update db = (Ok None, db)).
Proof.
  intros db contact_id contact_update _.
  destruct (first (filter (fun c => Contact.id c =? contact_id) (contacts (txn db))))
    as [c|] eqn:Eget.
  - pose proof (first_filter_some _ _ _ Eget) as [Hin Hid]. apply Z.eqb_eq in Hid.
    split; [intros H; now elim (H c Hin)|].
    destruct (update_contact_cases db contact_id contact_update c Eget)
      as [[v [db1 [[H|H] _]]]|(_ & _ & _ & H)]; rewrite H; try discriminate.
    destruct (committed_update _ _ _ _); discriminate.
  - split.
    + intros _. unfold crud.update_contact, crud.get_contact.
      rewrite bind_query, Eget. reflexivity.
    + intros _ c Hin. pose proof (first_filter_none _ _ Eget c Hin) as H.
      now apply Z.eqb_neq in H.
Qed.

Lemma update_of_missing_contact_witness :
  (forall c, In c (contacts john_and_jane) -> Contact.id c <> 7)
  <-> crud.update_contact 7 rename_and_renumber (SessionLocal john_and_jane)
      = (Ok None, SessionLocal john_and_jane).
Proof.
  apply (update_of_missing_contact (SessionLocal john_and_jane) 7 rename_and_renumber).
  unfold sqlite_integer. lia.
Defined.

Lemma map_replace_same (c : Contact.t) l :
  NoDup (map Contact.id l) -> In c l ->
  map (fun r => if Contact.id r =? Contact.id c then c else r) l = l.
Proof.
  intros Hnd Hin. rewrite <- (map_id l) at 2. apply map_ext_in. intros r Hr.
  destruct (Contact.id r =? Contact.id c) eqn:E; [|reflexivity].
  apply Z.eqb_eq in E. symmetry. exact (NoDup_map_inj Contact.id l _ _ Hnd Hr Hin E).
Qed.

(** X5: on a contact table with distinct ids, an update that supplies
    nothing returns the contact as it is and commits the store it found. *)
Theorem update_with_nothing_supplied :
  forall (db : Session) (c : Contact.t),
    NoDup (map Contact.id (contacts (txn db))) ->
    In c (contacts (txn db)) ->
    crud.update_contact (Contact.id c) empty_update db
    = (Ok (Some (joinedload (txn db) c)), mkSession (txn db) (txn db)).
Proof.
  intros db c Hnd Hin.
  assert (Eget : first (filter (fun r => Contact.id r =? Contact.id c)
                               (contacts (txn db))) = Some c).
  { destruct (first _) as [c'|] eqn:E.
    - apply first_filter_some in E as [Hin' Hid]. apply Z.eqb_eq in Hid.
      f_equal. exact (NoDup_map_inj Contact.id _ _ _ Hnd Hin' Hin Hid).
    - pose proof (first_filter_none _ _ E c Hin) as H. simpl in H.
      now rewrite Z.eqb_refl in H. }
  destruct (update_contact_cases db (Contact.id c) empty_update c Eget)
    as [[v [db1 [[H|H] _]]]|(_ & _ & _ & H)].
  - exfalso. unfold crud.update_contact, crud.get_contact in H.
    rewrite bind_query, Eget in H. discriminate H.
  - exfalso. unfold crud.update_contact, crud.get_contact in H.
    rewrite bind_query, Eget in H. discriminate H.
  - rewrite H. unfold committed_update, flush. simpl.
    change (updated_row c empty_update) with c. unfold update_contact_row.
    change (update_statements (txn db) (Contact.id c) empty_update) with (txn db).
    rewrite (map_replace_same c _ Hnd Hin).
    now destruct (txn db).
Qed.

Lemma update_with_nothing_supplied_witness :
  crud.update_contact 2 empty_update (SessionLocal john_and_jane)
  = (Ok (Some (joinedload john_and_jane
                 (Contact.mk 2 "Jane" None (Some "9876543210") None))),
     mkSession john_and_jane john_and_jane).
Proof.
  apply (update_with_nothing_supplied (SessionLocal john_and_jane)
           (Contact.mk 2 "Jane" None (Some "9876543210") None)).
  - repeat constructor; simpl; intuition discriminate.
  - right. now left.
Defined.

Lemma updated_row_fields c u :
  Contact.id (updated_row c u) = Contact.id c
  /\ Contact.name (updated_row c u)
     = match schemas.u_name u with Some n => n | None => Contact.name c end
  /\ Contact.email (updated_row c u)
     = match schemas.u_email u with Some e => Some e | None => Contact.email c end
  /\ Contact.phone (updated_row c u)
     = match schemas.u_phone u with Some p => Some p | None => Contact.phone c end
  /\ Contact.address (updated_row c u) = Contact.address c.
Proof.
  unfold updated_row.
  destruct (schemas.u_name u), (schemas.u_email u), (schemas.u_phone u); repeat split.
Qed.

(** X6: an update that returns a contact has committed, and what the patch
    does not supply is kept: the name, email and phone of the row, its
    address, every other contact row, and, when the patch has no
    phone-number list, no address list or no tag list, the phone-number
    table, the address table, or the tag and association tables. *)
Theorem update_keeps_what_is_not_supplied :
  forall (db : Session) (contact_id : Z) (contact_update : schemas.ContactUpdate)
         (updated : Contact.obj) (db' : Session),
    crud.update_contact contact_id contact_update db = (Ok (Some updated), db') ->
    exists c s',
      In c (contacts (txn db)) /\ Contact.id c = contact_id
      /\ db' = mkSession s' s'
      /\ Contact.id (Contact.row updated) = contact_id
      /\ Contact.name (Contact.row updated)
         = match schemas.u_name contact_update with
           | Some n => n
           | None => Contact.name c
           end
      /\ Contact.email (Contact.row updated)
         = match schemas.u_email contact_update with
           | Some e => Some e
           | None => Contact.email c
           end
      /\ Contact.phone (Contact.row updated)
         = match schemas.u_phone contact_update with
           | Some p => Some p
           | None => Contact.phone c
           end
      /\ Contact.address (Contact.row updated) = Contact.address c
      /\ contacts s'
         = map (fun r => if Contact.id r =? contact_id then Contact.row updated else r)
               (contacts (txn db))
      /\ (schemas.u_phone_numbers contact_update = None ->
          phone_numbers s' = phone_numbers (txn db))
      /\ (schemas.u_addresses contact_update = None ->
          addresses s' = addresses (txn db))
      /\ (schemas.u_tags contact_update = None ->
          tags s' = tags (txn db)
          /\ contact_tag_association s' = contact_tag_association (txn db)).
Proof.
  intros db contact_id u updated db' Hrun.
  apply update_contact_ok in Hrun as (c & s' & Eget & Hc & -> & ->).
  apply first_filter_some in Eget as [Hin Hid]. apply Z.eqb_eq in Hid.
  apply committed_update_tables in Hc as (Hcon & [prows [Hp Hp']] & [arows [Ha Ha']]
                                          & _ & Ht).
  destruct (updated_row_fields c u) as (F1 & F2 & F3 & F4 & F5).
  exists c, s'. cbn [joinedload Contact.row].
  split; [exact Hin|]. split; [exact Hid|]. split; [reflexivity|].
  split; [congruence|]. split; [exact F2|]. split; [exact F3|]. split; [exact F4|].
  split; [exact F5|]. split; [now rewrite <- Hid|]. split; [|split; [|exact Ht]].
  - intros Hn. rewrite Hn in Hp, Hp'. destruct prows; [|discriminate].
    now rewrite app_nil_r in Hp.
  - intros Hn. rewrite Hn in Ha, Ha'. destruct arows; [|discriminate].
    now rewrite app_nil_r in Ha.
Qed.

Lemma update_keeps_what_is_not_supplied_witness :
  exists s',
    contacts s' = [Contact.mk 1 "Ann B" None None None; Contact.mk 2 "Bob" None None None]
    /\ addresses s' = addresses rows_of_two_contacts
    /\ tags s' = tags rows_of_two_contacts.
Proof.
  destruct (update_keeps_what_is_not_supplied (SessionLocal rows_of_two_contacts) 1
              rename_and_renumber
              (Contact.mkObj (Contact.mk 1 "Ann B" None None None)
                 [PhoneNumber.mk 1 1 "222"; PhoneNumber.mk 2 1 "333"] [] [])
              (mkSession
                 (mkStore [Contact.mk 1 "Ann B" None None None;
                           Contact.mk 2 "Bob" None None None]
                          [PhoneNumber.mk 1 1 "222"; PhoneNumber.mk 2 1 "333"]
                          [Address.mk 1 2 "A St"] [] [])
                 (mkStore [Contact.mk 1 "Ann B" None None None;
                           Contact.mk 2 "Bob" None None None]
                          [PhoneNumber.mk 1 1 "222"; PhoneNumber.mk 2 1 "333"]
                          [Address.mk 1 2 "A St"] [] []))
              eq_refl)
    as (c & s' & _ & _ & Hs & _ & _ & _ & _ & _ & Hcon & _ & Ha & Ht).
  exists s'. injection Hs as <-.
  split; [reflexivity|]. split; [exact (Ha eq_refl)|exact (proj1 (Ht eq_refl))].
Defined.

Lemma filter_owner_after_replace {A} (owner : A -> Z) (contact_id : Z)
    (old rows : list A) :
  (forall r, In r rows -> owner r = contact_id) ->
  filter (fun r => owner r =? contact_id)
         (filter (fun r => negb (owner r =? contact_id)) old ++ rows)%list
  = rows.
Proof.
  intros H. rewrite filter_app, filter_filter.
  rewrite filter_nothing by (intros x _; now destruct (owner x =? contact_id)).
  simpl. apply filter_everything. intros r Hr. apply Z.eqb_eq. now apply H.
Qed.

Lemma rows_owned {A B} (owner : A -> Z) (value : A -> B) (contact_id : Z)
    (rows : list A) (l : list B) :
  map (fun r => (owner r, value r)) rows = map (fun v => (contact_id, v)) l ->
  (forall r, In r rows -> owner r = contact_id) /\ map value rows = l.
Proof.
  revert l. induction rows as [|r rows IH]; intros [|v l]; simpl; try discriminate.
  - intros _. split; [intros r []|reflexivity].
  - intros [= H1 H2 H3]. destruct (IH _ H3) as [I1 I2]. split.
    + intros x [<-|Hx]; auto.
    + now rewrite H2, I2.
Qed.

(** X7: a phone-number list or an address list in a patch replaces the
    contact's rows instead of adding to them: after an update that returns,
    the rows of other contacts are the old ones, and the contact's own rows
    carry exactly the supplied values, in the order supplied. *)
Theorem update_replaces_supplied_lists :
  forall (db : Session) (contact_id : Z) (contact_update : schemas.ContactUpdate)
         (updated : Contact.obj) (db' : Session),
    crud.update_contact contact_id contact_update db = (Ok (Some updated), db') ->
    (forall l, schemas.u_phone_numbers contact_update = Some l ->
       filter (fun p => negb (PhoneNumber.contact_id p =? contact_id))
              (phone_numbers (txn db'))
       = filter (fun p => negb (PhoneNumber.contact_id p =? contact_id))
                (phone_numbers (txn db))
       /\ map PhoneNumber.number (Contact.phone_numbers updated)
          = map schemas.number l)
    /\ (forall l, schemas.u_addresses contact_update = Some l ->
       filter (fun a => negb (Address.contact_id a =? contact_id))
              (addresses (txn db'))
       = filter (fun a => negb (Address.contact_id a =? contact_id))
                (addresses (txn db))
       /\ map Address.address (Contact.addresses updated)
          = map schemas.address l).
Proof.
  intros db contact_id u updated db' Hrun.
  apply update_contact_ok in Hrun as (c & s' & Eget & Hc & -> & ->).
  apply first_filter_some in Eget as [Hin Hid]. apply Z.eqb_eq in Hid.
  apply committed_update_tables in Hc as (_ & [prows [Hp Hp']] & [arows [Ha Ha']] & _).
  cbn [txn joinedload Contact.phone_numbers Contact.addresses].
  rewrite updated_row_id, Hid. split.
  - intros l Hl. rewrite Hl in Hp, Hp'.
    rewrite <- (map_map schemas.number (fun v => (contact_id, v))) in Hp'.
    apply (rows_owned PhoneNumber.contact_id PhoneNumber.number contact_id prows
             (map schemas.number l)) in Hp' as [Hown Hval].
    + rewrite Hp. split.
      * rewrite filter_app, filter_filter.
        rewrite (filter_nothing _ prows)
          by (intros r Hr; rewrite (Hown r Hr), Z.eqb_refl; reflexivity).
        rewrite app_nil_r. apply filter_ext_in'. intros r _.
        now destruct (PhoneNumber.contact_id r =? contact_id).
      * rewrite (filter_owner_after_replace PhoneNumber.contact_id _ _ _ Hown).
        exact Hval.
  - intros l Hl. rewrite Hl in Ha, Ha'.
    rewrite <- (map_map schemas.address (fun v => (contact_id, v))) in Ha'.
    apply (rows_owned Address.contact_id Address.address contact_id arows
             (map schemas.address l)) in Ha' as [Hown Hval].
    + rewrite Ha. split.
      * rewrite filter_app, filter_filter.
        rewrite (filter_nothing _ arows)
          by (intros r Hr; rewrite (Hown r Hr), Z.eqb_refl; reflexivity).
        rewrite app_nil_r. apply filter_ext_in'. intros r _.
        now destruct (Address.contact_id r =? contact_id).
      * rewrite (filter_owner_after_replace Address.contact_id _ _ _ Hown).
        exact Hval.
Qed.

Lemma update_replaces_supplied_lists_witness :
  map PhoneNumber.number [PhoneNumber.mk 1 1 "222"; PhoneNumber.mk 2 1 "333"]
  = ["222"; "333"].
Proof.
  destruct (update_replaces_supplied_lists (SessionLocal rows_of_two_contacts) 1
              rename_and_renumber
              (Contact.mkObj (Contact.mk 1 "Ann B" None None None)
                 [PhoneNumber.mk 1 1 "222"; PhoneNumber.mk 2 1 "333"] [] [])
              (mkSession
                 (mkStore [Contact.mk 1 "Ann B" None None None;
                           Contact.mk 2 "Bob" None None None]
                          [PhoneNumber.mk 1 1 "222"; PhoneNumber.mk 2 1 "333"]
                          [Address.mk 1 2 "A St"] [] [])
                 (mkStore [Contact.mk 1 "Ann B" None None None;
                           Contact.mk 2 "Bob" None None None]
                          [PhoneNumber.mk 1 1 "222"; PhoneNumber.mk 2 1 "333"]
                          [Address.mk 1 2 "A St"] [] []))
              eq_refl)
    as [Hp _].
  exact (proj2 (Hp _ eq_refl)).
Defined.

(** ** Delete *)

Lemma delete_contact_ok db contact_id db' :
  crud.delete_contact contact_id db = (Ok true, db') ->
  exists c,
    In c (contacts (txn db)) /\ Contact.id c = contact_id
    /\ db' = mkSession (delete_cascade (txn db) (joinedload (txn db) c))
                       (delete_cascade (txn db) (joinedload (txn db) c)).
Proof.
  unfold crud.delete_contact, crud.get_contact. rewrite bind_query.
  destruct (first (filter (fun c => Contact.id c =? contact_id) (contacts (txn db))))
    as [c|] eqn:Eget; simpl; [|discriminate].
  apply first_filter_some in Eget as [Hin Hid]. apply Z.eqb_eq in Hid.
  unfold bind, commit, flush. simpl. intros [= <-]. now exists c.
Qed.

(** X8: once a delete has answered [True], a read of the same id finds
    nothing and a second delete of it answers [False], changing nothing. *)
Theorem delete_then_contact_is_gone :
  forall (db : Session) (contact_id : Z) (db' : Session),
    crud.delete_contact contact_id db = (Ok true, db') ->
    crud.get_contact contact_id (SessionLocal (close db'))
    = (Ok None, SessionLocal (close db'))
    /\ crud.delete_contact contact_id (SessionLocal (close db'))
       = (Ok false, SessionLocal (close db')).
Proof.
  intros db contact_id db' Hrun.
  apply delete_contact_ok in Hrun as (c & _ & Hid & ->).
  unfold crud.delete_contact, crud.get_contact. rewrite bind_query.
  unfold query, close, SessionLocal. cbn [txn committed delete_cascade contacts].
  cbn [joinedload Contact.row]. rewrite Hid, filter_filter.
  rewrite filter_nothing
    by (intros x _; now destruct (Contact.id x =? contact_id)).
  split; reflexivity.
Qed.

Lemma delete_then_contact_is_gone_witness :
  crud.get_contact 1
    (SessionLocal (mkStore [Contact.mk 2 "Jane" None (Some "9876543210") None]
                           [] [] [] []))
  = (Ok None,
     SessionLocal (mkStore [Contact.mk 2 "Jane" None (Some "9876543210") None]
                           [] [] [] [])).
Proof.
  exact (proj1 (delete_then_contact_is_gone (SessionLocal john_and_jane) 1
                  (mkSession
                     (mkStore [Contact.mk 2 "Jane" None (Some "9876543210") None]
                              [] [] [] [])
                     (mkStore [Contact.mk 2 "Jane" None (Some "9876543210") None]
                              [] [] [] []))
                  eq_refl)).
Defined.

(** ** What every request leaves in place *)

Lemma create_request_step contact s :
  snd (main.create_contact contact s) = s
  \/ exists c, committed_create s contact = Some (c, snd (main.create_contact contact s)).
Proof.
  unfold main.create_contact, main.get_db.
  destruct (create_contact_cases (SessionLocal s) contact)
    as [[v [[H _]|[H _]]]|(_ & _ & H)]; rewrite H; try (left; reflexivity).
  unfold SessionLocal. cbn [txn committed].
  destruct (committed_create s contact) as [[c s1]|]; [|left; reflexivity].
  right. now exists c.
Qed.

Lemma update_request_step contact_id contact_update s :
  snd (main.update_contact contact_id contact_update s) = s
  \/ exists c,
       In c (contacts s) /\ Contact.id c = contact_id
       /\ committed_update s c contact_id contact_update
          = Some (snd (main.update_contact contact_id contact_update s)).
Proof.
  unfold main.update_contact, main.get_db.
  destruct (first (filter (fun c => Contact.id c =? contact_id) (contacts s)))
    as [c|] eqn:Eget.
  - destruct (update_contact_cases (SessionLocal s) contact_id contact_update c Eget)
      as [[v [db' [[H|H] Hcom]]]|(_ & _ & _ & H)]; rewrite H;
      try (left; exact Hcom).
    unfold SessionLocal. cbn [txn committed].
    apply first_filter_some in Eget as [Hin Hid]. apply Z.eqb_eq in Hid.
    destruct (committed_update s c contact_id contact_update) as [s1|] eqn:Ec;
      [|left; reflexivity].
    right. now exists c.
  - left. unfold crud.update_contact, crud.get_contact. rewrite bind_query.
    unfold SessionLocal. cbn [txn]. rewrite Eget. reflexivity.
Qed.

Lemma delete_request_step contact_id s :
  snd (main.delete_contact contact_id s) = s
  \/ exists c,
       In c (contacts s) /\ Contact.id c = contact_id
       /\ snd (main.delete_contact contact_id s) = delete_cascade s (joinedload s c).
Proof.
  unfold main.delete_contact, main.get_db, crud.delete_contact, crud.get_contact.
  rewrite bind_query. unfold SessionLocal. cbn [txn].
  destruct (first (filter (fun c => Contact.id c =? contact_id) (contacts s)))
    as [c|] eqn:Eget; [|left; reflexivity].
  apply first_filter_some in Eget as [Hin Hid]. apply Z.eqb_eq in Hid.
  right. now exists c.
Qed.

Lemma flush_new_tags_rows_named s refs s' ids :
  flush_new_tags s refs = Some (s', ids) ->
  exists rows,
    tags s' = (tags s ++ rows)%list
    /\ forall t, In t rows -> In (Pending (Tag.name t)) refs.
Proof.
  revert s s' ids. induction refs as [|[t0|name] refs IH]; intros s s' ids; simpl.
  - intros [= <- <-]. exists []. split; [now rewrite app_nil_r|intros t []].
  - destruct (flush_new_tags s refs) as [[s1 ids1]|] eqn:E; [|discriminate].
    intros [= <- <-]. destruct (IH _ _ _ E) as [rows [H1 H2]].
    exists rows. split; [exact H1|]. intros t Ht. right. now apply H2.
  - unfold insert_tag. destruct (existsb _ (tags s)); [discriminate|].
    destruct (flush_new_tags _ refs) as [[s1 ids1]|] eqn:E; [|discriminate].
    intros [= <- <-]. destruct (IH _ _ _ E) as [rows [H1 H2]]. simpl in H1.
    eexists (_ :: rows). split; [now rewrite H1, <- app_assoc|].
    intros t [<-|Ht]; [now left|right; now apply H2].
Qed.

Lemma flush_tag_rows_named s u s' :
  flush s u = Some s' ->
  exists rows,
    tags s' = (tags s ++ rows)%list
    /\ forall t, In t rows ->
         exists contact_id original current,
           tags_collection u = Some (contact_id, original, current)
           /\ In (Pending (Tag.name t)) current.
Proof.
  unfold flush. intros H.
  set (s0 := match dirty u with Some c => update_contact_row s c | None => s end) in *.
  assert (Ht0 : tags s0 = tags s) by (subst s0; now destruct (dirty u)).
  destruct (insert_each insert_phone_number s0 (new_phone_numbers u)) as [s1|] eqn:E1;
    [|discriminate].
  destruct (insert_each insert_address s1 (new_addresses u)) as [s2|] eqn:E2;
    [|discriminate].
  destruct (flush_tags_collection s2 (tags_collection u)) as [s3|] eqn:E3;
    [|discriminate].
  injection H as <-.
  apply insert_each_phone_numbers in E1 as (_ & _ & A3 & _).
  apply insert_each_addresses in E2 as (_ & _ & B3 & _).
  assert (Ht2 : tags s2 = tags s) by congruence.
  assert (Ht3 : tags (match deleted u with
                      | Some c => delete_cascade s3 c
                      | None => s3
                      end) = tags s3) by now destruct (deleted u).
  rewrite Ht3. unfold flush_tags_collection in E3.
  destruct (tags_collection u) as [[[cid original] current]|].
  - destruct (flush_new_tags s2 current) as [[s4 ids]|] eqn:E4; [|discriminate].
  destruct (appended_again _ _) eqn:Eagain; [discriminate|].
    apply insert_each_associations in E3 as (_ & _ & _ & E3). simpl in E3.
    apply flush_new_tags_rows_named in E4 as [rows [R1 R2]].
    exists rows. split; [congruence|].
    intros t Ht. exists cid, original, current. split; [reflexivity|now apply R2].
  - injection E3 as <-. exists []. split; [now rewrite app_nil_r, Ht2|intros t []].
Qed.

Lemma pending_resolved_name s l name :
  In (Pending name) (map (resolve_tag s) l) -> exists n, In n l /\ name = lower n.
Proof.
  intros H. apply in_map_iff in H as [n [H Hn]]. unfold resolve_tag in H.
  destruct (first _); [discriminate|]. injection H as <-. now exists n.
Qed.

(** X9: no request removes or changes a tag row.  A create or an update
    leaves the tag table as it was or appends rows to it, each named, when
    the tag names of the request are ASCII, by the lowercase form of one of
    them; a delete leaves the tag table as it was. *)
Theorem tag_rows_are_only_appended :
  forall (s : Store),
    (forall contact,
        exists rows,
          tags (snd (main.create_contact contact s)) = (tags s ++ rows)%list
          /\ ((forall n, In n (or_empty (schemas.tags contact)) -> is_ascii n = true) ->
              forall t, In t rows ->
                exists n, In n (or_empty (schemas.tags contact))
                          /\ Tag.name t = lower n))
    /\ (forall contact_id contact_update,
        exists rows,
          tags (snd (main.update_contact contact_id contact_update s))
          = (tags s ++ rows)%list
          /\ ((forall n, In n (or_empty (schemas.u_tags contact_update)) ->
                         is_ascii n = true) ->
              forall t, In t rows ->
                exists n, In n (or_empty (schemas.u_tags contact_update))
                          /\ Tag.name t = lower n))
    /\ (forall contact_id, tags (snd (main.delete_contact contact_id s)) = tags s).
Proof.
  intros s. split; [|split].
  - intros contact.
    destruct (create_request_step contact s) as [->|[c Hc]].
    { exists []. split; [now rewrite app_nil_r|intros _ t []]. }
    unfold committed_create in Hc.
    destruct (flush _ _) as [s1|] eqn:Eflush; [|discriminate].
    injection Hc as _ <-.
    apply flush_tag_rows_named in Eflush as [rows [R1 R2]].
    exists rows. split; [exact R1|].
    intros _ t Ht. destruct (R2 t Ht) as (cid & original & current & Hcoll & Hp).
    simpl in Hcoll. destruct (schemas.tags contact) as [[|n l]|]; try discriminate.
    injection Hcoll as _ _ <-. apply in_app_iff in Hp as [Hp|Hp].
    + apply in_map_iff in Hp as [? [[=] _]].
    + exact (pending_resolved_name _ (n :: l) _ Hp).
  - intros contact_id contact_update.
    destruct (update_request_step contact_id contact_update s) as [->|[c (_ & _ & Hc)]].
    { exists []. split; [now rewrite app_nil_r|intros _ t []]. }
    unfold committed_update in Hc.
    apply flush_tag_rows_named in Hc as [rows [R1 R2]].
    rewrite update_statements_tags in R1.
    exists rows. split; [exact R1|].
    intros _ t Ht. destruct (R2 t Ht) as (cid & original & current & Hcoll & Hp).
    simpl in Hcoll. destruct (schemas.u_tags contact_update) as [l|]; [|discriminate].
    injection Hcoll as _ _ <-. exact (pending_resolved_name _ _ _ Hp).
  - intros contact_id.
    destruct (delete_request_step contact_id s) as [->|[c (_ & _ & ->)]]; reflexivity.
Qed.

(** ** Keys in reachable stores *)

Lemma insert_each_phone_numbers_ids s l s' :
  insert_each insert_phone_number s l = Some s' ->
  NoDup (map PhoneNumber.id (phone_numbers s)) ->
  NoDup (map PhoneNumber.id (phone_numbers s')).
Proof.
  revert s. induction l as [|[cid v] l IH]; intros s; simpl.
  - now intros [= <-].
  - destruct (existsb _ (phone_numbers s)); [discriminate|].
    intros H Hnd. apply (IH _ H). simpl. rewrite map_app. simpl.
    apply NoDup_snoc; [exact Hnd|apply next_rowid_fresh].
Qed.

Lemma existsb_address_false l v :
  existsb (fun a => String.eqb (Address.address a) v) l = false ->
  ~ In v (map Address.address l).
Proof.
  intros H Hin. apply in_map_iff in Hin as [a [<- Ha]].
  assert (existsb (fun q => String.eqb (Address.address q) (Address.address a)) l = true)
    as H'.
  { apply existsb_exists. exists a. split; [exact Ha|apply String.eqb_refl]. }
  congruence.
Qed.

Lemma insert_each_addresses_keys s l s' :
  insert_each insert_address s l = Some s' ->
  (NoDup (map Address.id (addresses s)) -> NoDup (map Address.id (addresses s')))
  /\ (NoDup (map Address.address (addresses s)) ->
      NoDup (map Address.address (addresses s'))).
Proof.
  revert s. induction l as [|[cid v] l IH]; intros s; simpl.
  - intros [= <-]. auto.
  - destruct (existsb _ (addresses s)) eqn:E; [discriminate|].
    intros H. destruct (IH _ H) as [I1 I2]. simpl in I1, I2. split; intros Hnd.
    + apply I1. rewrite map_app. simpl.
      apply NoDup_snoc; [exact Hnd|apply next_rowid_fresh].
    + apply I2. rewrite map_app. simpl.
      apply NoDup_snoc; [exact Hnd|now apply existsb_address_false].
Qed.

Lemma existsb_association_false l (a : Z * Z) :
  existsb (fun b => (fst b =? fst a) && (snd b =? snd a)) l = false -> ~ In a l.
Proof.
  intros H Hin.
  assert (existsb (fun b => (fst b =? fst a) && (snd b =? snd a)) l = true) as H'.
  { apply existsb_exists. exists a. split; [exact Hin|]. now rewrite !Z.eqb_refl. }
  congruence.
Qed.

Lemma insert_each_associations_nodup s l s' :
  insert_each insert_association s l = Some s' ->
  NoDup (contact_tag_association s) -> NoDup (contact_tag_association s').
Proof.
  revert s. induction l as [|a l IH]; intros s; simpl.
  - now intros [= <-].
  - unfold insert_association at 1.
    destruct (existsb _ (contact_tag_association s)) eqn:E; [discriminate|].
    intros H Hnd. apply (IH _ H). simpl.
    apply NoDup_snoc; [exact Hnd|now apply existsb_association_false].
Qed.

Lemma flush_new_tags_ids s refs s' ids :
  flush_new_tags s refs = Some (s', ids) ->
  (NoDup (map Tag.id (tags s)) -> NoDup (map Tag.id (tags s')))
  /\ ((forall t, In (Persistent t) refs -> In t (tags s)) ->
      forall i, In i ids -> exists t, In t (tags s') /\ Tag.id t = i).
Proof.
  revert s s' ids. induction refs as [|[t0|name] refs IH]; intros s s' ids; simpl.
  - intros [= <- <-]. split; [auto|intros _ i []].
  - destruct (flush_new_tags s refs) as [[s1 ids1]|] eqn:E; [|discriminate].
    intros [= <- <-]. destruct (IH _ _ _ E) as [I1 I2].
    destruct (flush_new_tags_rows _ _ _ _ E) as [rows Hrows].
    split; [exact I1|]. intros Hp i [<-|Hi].
    + exists t0. split; [|reflexivity]. rewrite Hrows. apply in_or_app. left.
      apply Hp. now left.
    + apply I2; [|exact Hi]. intros t Ht. apply Hp. now right.
  - unfold insert_tag. destruct (existsb _ (tags s)); [discriminate|].
    destruct (flush_new_tags _ refs) as [[s1 ids1]|] eqn:E; [|discriminate].
    intros [= <- <-]. destruct (IH _ _ _ E) as [I1 I2].
    destruct (flush_new_tags_rows _ _ _ _ E) as [rows Hrows]. simpl in I1, I2, Hrows.
    split.
    + intros Hnd. apply I1. rewrite map_app. simpl.
      apply NoDup_snoc; [exact Hnd|apply next_rowid_fresh].
    + intros Hp i [<-|Hi].
      * exists (Tag.mk (next_rowid (map Tag.id (tags s))) name).
        split; [|reflexivity]. rewrite Hrows. apply in_or_app. left.
        apply in_or_app. right. now left.
      * apply I2; [|exact Hi]. intros t Ht. apply in_or_app. left. apply Hp. now right.
Qed.

Lemma flush_tags_collection_keys s coll s' :
  flush_tags_collection s coll = Some s' ->
  (NoDup (map Tag.id (tags s)) -> NoDup (map Tag.id (tags s')))
  /\ (NoDup (contact_tag_association s) -> NoDup (contact_tag_association s'))
  /\ ((forall contact_id original current t,
          coll = Some (contact_id, original, current) ->
          In (Persistent t) current -> In t (tags s)) ->
      forall a, In a (contact_tag_association s') ->
        In a (contact_tag_association s)
        \/ exists contact_id original current,
             coll = Some (contact_id, original, current)
             /\ fst a = contact_id
             /\ exists t, In t (tags s') /\ Tag.id t = snd a).
Proof.
  unfold flush_tags_collection. destruct coll as [[[cid original] current]|].
  - destruct (flush_new_tags s current) as [[s1 ids]|] eqn:E; [|discriminate].
  destruct (appended_again _ _) eqn:Eagain; [discriminate|].
    intros H.
    pose proof (insert_each_associations_rows _ _ _ H) as Hrows.
    pose proof (insert_each_associations_nodup _ _ _ H) as Hnd.
    apply insert_each_associations in H as (_ & _ & _ & Ht). simpl in Ht, Hrows, Hnd.
    destruct (flush_new_tags_ids _ _ _ _ E) as [I1 I2].
    apply flush_new_tags_frame in E as (_ & _ & _ & E4).
    split; [now rewrite Ht|]. split.
    + intros H0. apply Hnd. apply NoDup_filter. now rewrite E4.
    + intros Hp a Ha. rewrite Hrows in Ha. apply in_app_iff in Ha as [Ha|Ha].
      * left. apply filter_In in Ha as [Ha _]. now rewrite <- E4.
      * right. exists cid, original, current. split; [reflexivity|].
        apply in_map_iff in Ha as [i [<- Hi]]. split; [reflexivity|].
        apply filter_In in Hi as [Hi _]. rewrite Ht. simpl.
        apply I2; [|exact Hi]. intros t Hin. exact (Hp _ _ _ _ eq_refl Hin).
  - intros [= <-]. split; [auto|]. split; [auto|]. intros _ a Ha. now left.
Qed.

(** What a flush that deletes nothing does to the keys and to the
    association rows. *)
Lemma flush_keys s u s' :
  flush s u = Some s' -> deleted u = None ->
  (NoDup (map PhoneNumber.id (phone_numbers s)) ->
   NoDup (map PhoneNumber.id (phone_numbers s')))
  /\ (NoDup (map Address.id (addresses s)) -> NoDup (map Address.id (addresses s')))
  /\ (NoDup (map Address.address (addresses s)) ->
      NoDup (map Address.address (addresses s')))
  /\ (NoDup (map Tag.id (tags s)) -> NoDup (map Tag.id (tags s')))
  /\ (NoDup (contact_tag_association s) -> NoDup (contact_tag_association s'))
  /\ ((forall contact_id original current t,
          tags_collection u = Some (contact_id, original, current) ->
          In (Persistent t) current -> In t (tags s)) ->
      forall a, In a (contact_tag_association s') ->
        In a (contact_tag_association s)
        \/ exists contact_id original current,
             tags_collection u = Some (contact_id, original, current)
             /\ fst a = contact_id
             /\ exists t, In t (tags s') /\ Tag.id t = snd a).
Proof.
  unfold flush. intros H Hdel. rewrite Hdel in H.
  set (s0 := match dirty u with Some c => update_contact_row s c | None => s end) in *.
  assert (Hp0 : phone_numbers s0 = phone_numbers s) by (subst s0; now destruct (dirty u)).
  assert (Ha0 : addresses s0 = addresses s) by (subst s0; now destruct (dirty u)).
  assert (Ht0 : tags s0 = tags s) by (subst s0; now destruct (dirty u)).
  assert (Hc0 : contact_tag_association s0 = contact_tag_association s)
    by (subst s0; now destruct (dirty u)).
  destruct (insert_each insert_phone_number s0 (new_phone_numbers u)) as [s1|] eqn:E1;
    [|discriminate].
  destruct (insert_each insert_address s1 (new_addresses u)) as [s2|] eqn:E2;
    [|discriminate].
  destruct (flush_tags_collection s2 (tags_collection u)) as [s3|] eqn:E3;
    [|discriminate].
  injection H as <-.
  pose proof (insert_each_phone_numbers_ids _ _ _ E1) as P1.
  destruct (insert_each_addresses_keys _ _ _ E2) as [A1 A2].
  apply insert_each_phone_numbers in E1 as (_ & F2 & F3 & F4 & _).
  apply insert_each_addresses in E2 as (_ & G2 & G3 & G4).
  destruct (flush_tags_collection_keys _ _ _ E3) as (T1 & T2 & T3).
  apply flush_tags_collection_frame in E3 as (_ & C2 & C3).
  assert (Ht2 : tags s2 = tags s) by congruence.
  assert (Hc2 : contact_tag_association s2 = contact_tag_association s) by congruence.
  rewrite Ht2 in T1, T3. rewrite Hc2 in T2, T3.
  split; [rewrite C2, G2, <- Hp0; exact P1|].
  split; [rewrite C3, <- F2, <- Ha0 in *; exact A1|].
  split; [rewrite C3, <- F2, <- Ha0 in *; exact A2|].
  split; [exact T1|]. split; [exact T2|exact T3].
Qed.

Lemma next_rowid_positive ids : (forall x, In x ids -> 1 <= x) -> 1 <= next_rowid ids.
Proof.
  unfold next_rowid. destruct ids as [|i rest]; [lia|].
  intros H. pose proof (fold_left_max_ge rest i). specialize (H i (or_introl eq_refl)).
  lia.
Qed.

Lemma load_tags_in s contact_id t :
  In t (load_tags s contact_id) ->
  In t (tags s) /\ In (contact_id, Tag.id t) (contact_tag_association s).
Proof.
  unfold load_tags. intros H. apply in_flat_map in H as [[c i] [Ha Ht]]. simpl in Ht.
  destruct (c =? contact_id) eqn:E; [|destruct Ht].
  apply Z.eqb_eq in E. apply filter_In in Ht as [Ht Hi]. apply Z.eqb_eq in Hi.
  split; [exact Ht|]. now rewrite Hi, <- E.
Qed.

Lemma resolve_tag_persistent s n t :
  resolve_tag s n = Persistent t -> In t (tags s) /\ Tag.name t = lower n.
Proof.
  unfold resolve_tag. destruct (first _) as [t'|] eqn:E; [|discriminate].
  intros [= <-]. apply first_filter_some in E as [H1 H2].
  now apply String.eqb_eq in H2.
Qed.

Lemma create_collection_persistent s1 c contact cid original current t :
  tags_collection (create_unit_of_work s1 c contact) = Some (cid, original, current) ->
  In (Persistent t) current -> In t (tags s1).
Proof.
  simpl. destruct (schemas.tags contact) as [[|n l]|]; try discriminate.
  intros [= _ _ <-] H. apply in_app_iff in H as [H|H].
  - apply in_map_iff in H as [t' [[= ->] H]]. now apply load_tags_in in H.
  - change (In (Persistent t) (map (resolve_tag s1) (n :: l))) in H.
    apply in_map_iff in H as [n' [H _]]. now apply resolve_tag_persistent in H.
Qed.

Lemma update_collection_persistent s c contact_id u cid original current t :
  tags_collection (update_unit_of_work s c contact_id u) = Some (cid, original, current) ->
  In (Persistent t) current -> In t (tags s).
Proof.
  simpl. destruct (schemas.u_tags u) as [l|]; [|discriminate].
  intros [= _ _ <-] H.
  apply in_map_iff in H as [n' [H _]]. now apply resolve_tag_persistent in H.
Qed.

Lemma create_collection_owner s1 c contact cid original current :
  tags_collection (create_unit_of_work s1 c contact) = Some (cid, original, current) ->
  cid = Contact.id c.
Proof.
  simpl. destruct (schemas.tags contact) as [[|n l]|]; try discriminate.
  now intros [= <- _ _].
Qed.

Lemma update_collection_owner s c contact_id u cid original current :
  tags_collection (update_unit_of_work s c contact_id u) = Some (cid, original, current) ->
  cid = contact_id.
Proof.
  simpl. destruct (schemas.u_tags u) as [l|]; [|discriminate].
  now intros [= <- _ _].
Qed.

Lemma create_preserves_primary_keys s contact c s' :
  primary_keys s -> committed_create s contact = Some (c, s') -> primary_keys s'.
Proof.
  intros (K1 & K2 & K3 & K4 & K5 & K6). unfold committed_create.
  destruct (flush _ _) as [s1|] eqn:Eflush; [|discriminate].
  intros [= <- <-].
  pose proof (flush_keys _ _ _ Eflush eq_refl) as (P & A & _ & T & C & _).
  apply flush_appends in Eflush as (Hcon & _); [|reflexivity].
  simpl in Hcon, P, A, T, C.
  split; [|split; [|split; [|split; [|split]]]]; auto.
  - rewrite Hcon, map_app. simpl. apply NoDup_snoc; [exact K1|apply next_rowid_fresh].
  - intros c Hc. rewrite Hcon in Hc. apply in_app_iff in Hc as [Hc|[<-|[]]]; auto.
    simpl. apply next_rowid_positive. intros x Hx.
    apply in_map_iff in Hx as [c' [<- Hc']]. auto.
Qed.

Lemma map_replace_ids (c' : Contact.t) cid l :
  Contact.id c' = cid ->
  map Contact.id (map (fun r => if Contact.id r =? cid then c' else r) l)
  = map Contact.id l.
Proof.
  intros Hid. rewrite map_map. apply map_ext. intros r.
  destruct (Contact.id r =? cid) eqn:E; [|reflexivity].
  apply Z.eqb_eq in E. congruence.
Qed.

Lemma update_preserves_primary_keys s c contact_id u s' :
  primary_keys s -> committed_update s c contact_id u = Some s' -> primary_keys s'.
Proof.
  intros (K1 & K2 & K3 & K4 & K5 & K6) Hc.
  pose proof (committed_update_tables _ _ _ _ _ Hc) as (Hcon & _).
  unfold committed_update in Hc.
  pose proof (flush_keys _ _ _ Hc eq_refl) as (P & A & _ & T & C & _).
  rewrite update_statements_phone_numbers in P.
  rewrite update_statements_addresses in A.
  rewrite update_statements_tags in T.
  rewrite update_statements_associations in C.
  assert (Hids : map Contact.id (contacts s') = map Contact.id (contacts s)).
  { rewrite Hcon. apply map_replace_ids. apply updated_row_id. }
  split; [|split; [|split; [|split; [|split]]]]; auto.
  - now rewrite Hids.
  - intros c' Hc'. apply (in_map Contact.id) in Hc'. rewrite Hids in Hc'.
    apply in_map_iff in Hc' as [c0 [<- H0]]. auto.
  - apply P. destruct (schemas.u_phone_numbers u); [|exact K3].
    now apply NoDup_map_filter.
  - apply A. destruct (schemas.u_addresses u); [|exact K4].
    now apply NoDup_map_filter.
Qed.

Lemma delete_preserves_primary_keys s obj :
  primary_keys s -> primary_keys (delete_cascade s obj).
Proof.
  intros (K1 & K2 & K3 & K4 & K5 & K6). unfold delete_cascade.
  split; [|split; [|split; [|split; [|split]]]]; simpl; auto.
  - now apply NoDup_map_filter.
  - intros c Hc. apply filter_In in Hc as [Hc _]. auto.
  - now apply NoDup_map_filter.
  - now apply NoDup_map_filter.
  - now apply NoDup_filter.
Qed.

Lemma reachable_primary_keys s : reachable s -> primary_keys s.
Proof.
  induction 1 as [|s contact created s' _ IH Hrun
                  |s contact_id contact_update updated s' _ IH Hrun
                  |s contact_id s' _ IH Hrun].
  - repeat split; try constructor. intros c [].
  - apply main_create_contact_ok in Hrun as [_ [c Hc]].
    exact (create_preserves_primary_keys _ _ _ _ IH Hc).
  - apply main_update_contact_ok in Hrun as (c & _ & _ & _ & _ & Hc).
    exact (update_preserves_primary_keys _ _ _ _ _ IH Hc).
  - apply main_delete_contact_ok in Hrun as [c ->].
    now apply delete_preserves_primary_keys.
Qed.

(** X10: in every store reached from the empty one, the ids of each table
    are pairwise distinct, the contact ids are positive, and no
    contact-tag pair is associated twice. *)
Theorem reachable_store_has_primary_keys :
  forall s : Store,
    reachable s ->
    NoDup (map Contact.id (contacts s))
    /\ (forall c, In c (contacts s) -> 1 <= Contact.id c)
    /\ NoDup (map PhoneNumber.id (phone_numbers s))
    /\ NoDup (map Address.id (addresses s))
    /\ NoDup (map Tag.id (tags s))
    /\ NoDup (contact_tag_association s).
Proof. intros s Hs. exact (reachable_primary_keys s Hs). Qed.

(** ** References in reachable stores *)

Lemma create_preserves_referential_integrity s contact c s' :
  referential_integrity s -> committed_create s contact = Some (c, s') ->
  referential_integrity s'.
Proof.
  intros (R1 & R2 & R3). unfold committed_create.
  destruct (flush _ _) as [s1|] eqn:Eflush; [|discriminate].
  intros [= <- <-].
  pose proof (flush_keys _ _ _ Eflush eq_refl) as (_ & _ & _ & _ & _ & Hassoc).
  apply flush_appends in Eflush
    as (Hcon & [prows [Hp Hp']] & [arows [Ha Ha']] & [trows Ht] & _); [|reflexivity].
  simpl in Hcon, Hp, Hp', Ha, Ha', Ht.
  set (c := Contact.mk (next_rowid (map Contact.id (contacts s))) (schemas.name contact)
                       (schemas.email contact) (schemas.phone contact) None) in *.
  assert (Hold : forall x, (exists c0, In c0 (contacts s) /\ Contact.id c0 = x) ->
                           exists c0, In c0 (contacts s1) /\ Contact.id c0 = x).
  { intros x [c0 [H1 H2]]. exists c0. split; [|exact H2].
    rewrite Hcon. apply in_or_app. now left. }
  assert (Hnew : exists c0, In c0 (contacts s1) /\ Contact.id c0 = Contact.id c).
  { exists c. split; [|reflexivity]. rewrite Hcon. apply in_or_app. right. now left. }
  split; [|split].
  - intros r Hr. rewrite Hp in Hr. apply in_app_iff in Hr as [Hr|Hr]; [now apply Hold, R1|].
    apply (in_map (fun r => (PhoneNumber.contact_id r, PhoneNumber.number r))) in Hr.
    rewrite Hp' in Hr. apply in_map_iff in Hr as [pd [[= <- _] _]]. exact Hnew.
  - intros r Hr. rewrite Ha in Hr. apply in_app_iff in Hr as [Hr|Hr]; [now apply Hold, R2|].
    apply (in_map (fun r => (Address.contact_id r, Address.address r))) in Hr.
    rewrite Ha' in Hr. apply in_map_iff in Hr as [ad [[= <- _] _]]. exact Hnew.
  - intros a Ha0. apply Hassoc in Ha0 as [Ha0|(cid & original & current & Hc & Hf & Htag)].
    + destruct (R3 a Ha0) as [Hc0 [t [Ht1 Ht2]]]. split; [now apply Hold|].
      exists t. split; [|exact Ht2]. rewrite Ht. apply in_or_app. now left.
    + apply create_collection_owner in Hc. split; [|exact Htag].
      rewrite Hf, Hc. exact Hnew.
    + intros cid original current t Hc Ht0.
      exact (create_collection_persistent _ _ _ _ _ _ _ Hc Ht0).
Qed.

Lemma update_preserves_referential_integrity s c contact_id u s' :
  referential_integrity s -> In c (contacts s) -> Contact.id c = contact_id ->
  committed_update s c contact_id u = Some s' ->
  referential_integrity s'.
Proof.
  intros (R1 & R2 & R3) Hin Hid Hc.
  pose proof (committed_update_tables _ _ _ _ _ Hc)
    as (Hcon & [prows [Hp Hp']] & [arows [Ha Ha']] & [trows Ht] & _).
  unfold committed_update in Hc.
  pose proof (flush_keys _ _ _ Hc eq_refl) as (_ & _ & _ & _ & _ & Hassoc).
  rewrite update_statements_tags, update_statements_associations in Hassoc.
  assert (Hold : forall x, (exists c0, In c0 (contacts s) /\ Contact.id c0 = x) ->
                           exists c0, In c0 (contacts s') /\ Contact.id c0 = x).
  { intros x [c0 [H1 H2]].
    assert (Hx : In x (map Contact.id (contacts s')))
      by (rewrite Hcon, (map_replace_ids _ _ _ (updated_row_id c u)), <- H2;
          now apply in_map).
    apply in_map_iff in Hx as [c1 [H3 H4]]. now exists c1. }
  assert (Hself : exists c0, In c0 (contacts s') /\ Contact.id c0 = contact_id)
    by (apply Hold; now exists c).
  split; [|split].
  - intros r Hr. rewrite Hp in Hr. apply in_app_iff in Hr as [Hr|Hr].
    + apply Hold, R1. destruct (schemas.u_phone_numbers u); [|exact Hr].
      now apply filter_In in Hr.
    + apply (in_map (fun r => (PhoneNumber.contact_id r, PhoneNumber.number r))) in Hr.
      rewrite Hp' in Hr. destruct (schemas.u_phone_numbers u); [|destruct Hr].
      apply in_map_iff in Hr as [pd [[= <- _] _]]. exact Hself.
  - intros r Hr. rewrite Ha in Hr. apply in_app_iff in Hr as [Hr|Hr].
    + apply Hold, R2. destruct (schemas.u_addresses u); [|exact Hr].
      now apply filter_In in Hr.
    + apply (in_map (fun r => (Address.contact_id r, Address.address r))) in Hr.
      rewrite Ha' in Hr. destruct (schemas.u_addresses u); [|destruct Hr].
      apply in_map_iff in Hr as [ad [[= <- _] _]]. exact Hself.
  - intros a Ha0. apply Hassoc in Ha0 as [Ha0|(cid & original & current & Hcoll & Hf & Htag)].
    + destruct (R3 a Ha0) as [Hc0 [t [Ht1 Ht2]]]. split; [now apply Hold|].
      exists t. split; [|exact Ht2]. rewrite Ht. apply in_or_app. now left.
    + apply update_collection_owner in Hcoll. split; [|exact Htag].
      rewrite Hf, Hcoll. exact Hself.
    + intros cid original current t Hcoll Ht0.
      exact (update_collection_persistent _ _ _ _ _ _ _ _ Hcoll Ht0).
Qed.

Lemma delete_preserves_referential_integrity s obj :
  referential_integrity s -> referential_integrity (delete_cascade s obj).
Proof.
  intros (R1 & R2 & R3). unfold delete_cascade.
  set (cid := Contact.id (Contact.row obj)).
  assert (Hkeep : forall x, x <> cid ->
            (exists c0, In c0 (contacts s) /\ Contact.id c0 = x) ->
            exists c0, In c0 (filter (fun r => negb (Contact.id r =? cid)) (contacts s))
                       /\ Contact.id c0 = x).
  { intros x Hx [c0 [H1 H2]]. exists c0. split; [|exact H2].
    apply filter_In. split; [exact H1|]. apply negb_true_iff, Z.eqb_neq. congruence. }
  split; [|split]; simpl.
  - intros r Hr. apply filter_In in Hr as [Hr Hne].
    apply negb_true_iff, Z.eqb_neq in Hne. apply Hkeep; auto.
  - intros r Hr. apply filter_In in Hr as [Hr Hne].
    apply negb_true_iff, Z.eqb_neq in Hne. apply Hkeep; auto.
  - intros a Ha. apply filter_In in Ha as [Ha Hne].
    apply negb_true_iff, Z.eqb_neq in Hne. destruct (R3 a Ha) as [H1 H2].
    split; [apply Hkeep; auto|exact H2].
Qed.

Lemma reachable_referential_integrity s : reachable s -> referential_integrity s.
Proof.
  induction 1 as [|s contact created s' _ IH Hrun
                  |s contact_id contact_update updated s' _ IH Hrun
                  |s contact_id s' _ IH Hrun].
  - split; [|split]; intros r [].
  - apply main_create_contact_ok in Hrun as [_ [c Hc]].
    exact (create_preserves_referential_integrity _ _ _ _ IH Hc).
  - apply main_update_contact_ok in Hrun as (c & Hin & Hid & _ & _ & Hc).
    exact (update_preserves_referential_integrity _ _ _ _ _ IH Hin Hid Hc).
  - apply main_delete_contact_ok in Hrun as [c ->].
    now apply delete_preserves_referential_integrity.
Qed.

(** X11: in every store reached from the empty one, each phone-number row
    and each address row belongs to a contact of the store, and each
    association row joins a contact of the store with a tag of the store. *)
Theorem reachable_store_has_no_dangling_rows :
  forall s : Store,
    reachable s ->
    (forall r, In r (phone_numbers s) ->
       exists c, In c (contacts s) /\ Contact.id c = PhoneNumber.contact_id r)
    /\ (forall r, In r (addresses s) ->
          exists c, In c (contacts s) /\ Contact.id c = Address.contact_id r)
    /\ (forall a, In a (contact_tag_association s) ->
          (exists c, In c (contacts s) /\ Contact.id c = fst a)
          /\ (exists t, In t (tags s) /\ Tag.id t = snd a)).
Proof. intros s Hs. exact (reachable_referential_integrity s Hs). Qed.

Lemma reachable_after_ann_twice :
  reachable (snd (main.create_contact ann_twice empty_store)).
Proof.
  apply reach_create_snd
    with (created := Contact.mkObj (Contact.mk 1 "Ann" None (Some "1") None)
                                   [PhoneNumber.mk 1 1 "1"] [] []);
    [apply reach_empty|reflexivity].
Defined.

Lemma reachable_ann_with_friend : reachable ann_with_friend.
Proof.
  apply reach_create_snd
    with (created := Contact.mkObj (Contact.mk 1 "Ann" None None None)
                                   [] [] [Tag.mk 1 "friend"]);
    [apply reach_empty|reflexivity].
Defined.

Lemma reachable_store_has_primary_keys_witness :
  NoDup (map Contact.id (contacts ann_with_friend))
  /\ NoDup (contact_tag_association ann_with_friend).
Proof.
  destruct (reachable_store_has_primary_keys ann_with_friend reachable_ann_with_friend)
    as (H1 & _ & _ & _ & _ & H2).
  split; [exact H1|exact H2].
Defined.

Lemma reachable_store_has_no_dangling_rows_witness :
  (exists c, In c (contacts ann_with_friend) /\ Contact.id c = 1)
  /\ (exists t, In t (tags ann_with_friend) /\ Tag.id t = 1).
Proof.
  apply (proj2 (proj2 (reachable_store_has_no_dangling_rows
                         ann_with_friend reachable_ann_with_friend)) (1, 1)).
  left. reflexivity.
Defined.

(** ** The address column and the address rows *)

Lemma create_preserves_address_invariant s contact c s' :
  address_invariant s -> committed_create s contact = Some (c, s') ->
  address_invariant s'.
Proof.
  intros [A1 A2]. unfold committed_create.
  destruct (flush _ _) as [s1|] eqn:Eflush; [|discriminate].
  intros [= <- <-].
  pose proof (flush_keys _ _ _ Eflush eq_refl) as (_ & _ & A & _).
  apply flush_appends in Eflush as (Hcon & _); [|reflexivity].
  simpl in Hcon, A. split; [|now apply A].
  intros c Hc. rewrite Hcon in Hc. apply in_app_iff in Hc as [Hc|[<-|[]]]; auto.
Qed.

Lemma update_preserves_address_invariant s c contact_id u s' :
  address_invariant s -> In c (contacts s) ->
  committed_update s c contact_id u = Some s' -> address_invariant s'.
Proof.
  intros [A1 A2] Hin Hc.
  pose proof (committed_update_tables _ _ _ _ _ Hc) as (Hcon & _).
  unfold committed_update in Hc.
  pose proof (flush_keys _ _ _ Hc eq_refl) as (_ & _ & A & _).
  rewrite update_statements_addresses in A. split.
  - intros c' Hc'. rewrite Hcon in Hc'. apply in_map_iff in Hc' as [c0 [<- H0]].
    destruct (Contact.id c0 =? Contact.id c); [|now apply A1].
    destruct (updated_row_fields c u) as (_ & _ & _ & _ & ->). now apply A1.
  - apply A. destruct (schemas.u_addresses u); [|exact A2].
    now apply NoDup_map_filter.
Qed.

Lemma delete_preserves_address_invariant s obj :
  address_invariant s -> address_invariant (delete_cascade s obj).
Proof.
  intros [A1 A2]. unfold delete_cascade. split; simpl.
  - intros c Hc. apply filter_In in Hc as [Hc _]. auto.
  - now apply NoDup_map_filter.
Qed.

Lemma reachable_address_invariant s : reachable s -> address_invariant s.
Proof.
  induction 1 as [|s contact created s' _ IH Hrun
                  |s contact_id contact_update updated s' _ IH Hrun
                  |s contact_id s' _ IH Hrun].
  - split; [intros c []|constructor].
  - apply main_create_contact_ok in Hrun as [_ [c Hc]].
    exact (create_preserves_address_invariant _ _ _ _ IH Hc).
  - apply main_update_contact_ok in Hrun as (c & Hin & _ & _ & _ & Hc).
    exact (update_preserves_address_invariant _ _ _ _ _ IH Hin Hc).
  - apply main_delete_contact_ok in Hrun as [c ->].
    now apply delete_preserves_address_invariant.
Qed.

(** X12: no request writes the address column of a contact: in every store
    reached from the empty one that column is empty in every contact row,
    and no two address rows carry the same address. *)
Theorem reachable_store_keeps_addresses_in_rows :
  forall s : Store,
    reachable s ->
    (forall c, In c (contacts s) -> Contact.address c = None)
    /\ NoDup (map Address.address (addresses s))
    /\ forall r1 r2, In r1 (addresses s) -> In r2 (addresses s) ->
                     Address.address r1 = Address.address r2 -> r1 = r2.
Proof.
  intros s Hs. destruct (reachable_address_invariant s Hs) as [A1 A2].
  split; [exact A1|]. split; [exact A2|].
  intros r1 r2 H1 H2 He. exact (NoDup_map_inj Address.address _ _ _ A2 H1 H2 He).
Qed.

Lemma reachable_store_keeps_addresses_in_rows_witness :
  NoDup (map Address.address
             (addresses (snd (main.create_contact ann_twice empty_store))))
  /\ Contact.address (Contact.mk 1 "Ann" None (Some "1") None) = None.
Proof.
  destruct (reachable_store_keeps_addresses_in_rows _ reachable_after_ann_twice)
    as (H1 & H2 & _).
  split; [exact H2|]. apply H1. left. reflexivity.
Defined.

(** ** The excluded contact in reachable stores *)

Lemma phone_claimed_on_positive_ids s p e :
  (forall c, In c (contacts s) -> 1 <= Contact.id c) ->
  referential_integrity s ->
  phone_claimed s p (effective_exclusion (Some e)) <-> phone_claimed s p (Some e).
Proof.
  intros Hpos (R1 & _). unfold effective_exclusion.
  destruct (e =? 0) eqn:E; [|reflexivity]. apply Z.eqb_eq in E. subst e.
  unfold phone_claimed. split.
  - intros [[c [H1 [H2 _]]]|[r [H1 [H2 _]]]].
    + left. exists c. repeat split; auto. intros e [= <-].
      specialize (Hpos c H1). lia.
    + right. exists r. repeat split; auto. intros e [= <-].
      destruct (R1 r H1) as [c [Hc Hid]]. specialize (Hpos c Hc). lia.
  - intros [[c [H1 [H2 _]]]|[r [H1 [H2 _]]]].
    + left. exists c. repeat split; auto. intros e [=].
    + right. exists r. repeat split; auto. intros e [=].
Qed.

Lemma address_claimed_on_reachable s p e :
  (forall c, In c (contacts s) -> 1 <= Contact.id c) ->
  referential_integrity s -> address_invariant s ->
  address_claimed s p (effective_exclusion (Some e))
  <-> exists r, In r (addresses s) /\ Address.address r = p /\ Address.contact_id r <> e.
Proof.
  intros Hpos (_ & R2 & _) [A1 _]. unfold address_claimed. split.
  - intros [[c [H1 [H2 _]]]|[r [H1 [H2 H3]]]].
    + rewrite (A1 c H1) in H2. discriminate.
    + exists r. repeat split; auto. unfold effective_exclusion in H3.
      destruct (e =? 0) eqn:E; [|now apply H3].
      apply Z.eqb_eq in E. subst e.
      destruct (R2 r H1) as [c [Hc Hid]]. specialize (Hpos c Hc). lia.
  - intros [r [H1 [H2 H3]]]. right. exists r. repeat split; auto.
    unfold effective_exclusion. destruct (e =? 0); intros e' [=]. now subst e'.
Qed.

(** X13: in a store reached from the empty one, a check with an excluded
    contact leaves out exactly the rows of that contact, whatever the id:
    the phone check answers [True] exactly when a contact other than the
    excluded one holds the value as its phone or in a phone-number row, and
    the address check exactly when an address row of another contact
    carries the value. *)
Theorem check_exists_excludes_the_given_contact :
  forall (s : Store) (v : option string) (e : Z),
    reachable s ->
    (exists b,
        crud.check_phone_number_exists v (Some e) (SessionLocal s)
        = (Ok b, SessionLocal s)
        /\ (b = true <->
            exists p, v = Some p /\ p <> "" /\ phone_claimed s p (Some e)))
    /\ (exists b,
        crud.check_address_exists v (Some e) (SessionLocal s)
        = (Ok b, SessionLocal s)
        /\ (b = true <->
            exists p, v = Some p /\ p <> ""
                      /\ exists r, In r (addresses s) /\ Address.address r = p
                                   /\ Address.contact_id r <> e)).
Proof.
  intros s v e Hs.
  destruct (reachable_primary_keys s Hs) as (_ & Hpos & _).
  pose proof (reachable_referential_integrity s Hs) as Href.
  pose proof (reachable_address_invariant s Hs) as Hadr.
  split.
  - eexists. split; [apply check_phone_number_exists_run|].
    cbn [txn SessionLocal]. rewrite phone_existsb_iff. split.
    + intros [p [H1 [H2 H3]]]. exists p. repeat split; auto.
      now apply (phone_claimed_on_positive_ids s p e Hpos Href).
    + intros [p [H1 [H2 H3]]]. exists p. repeat split; auto.
      now apply (phone_claimed_on_positive_ids s p e Hpos Href).
  - eexists. split; [apply check_address_exists_run|].
    cbn [txn SessionLocal]. rewrite address_existsb_iff. split.
    + intros [p [H1 [H2 H3]]]. exists p. repeat split; auto.
      now apply (address_claimed_on_reachable s p e Hpos Href Hadr).
    + intros [p [H1 [H2 H3]]]. exists p. repeat split; auto.
      now apply (address_claimed_on_reachable s p e Hpos Href Hadr).
Qed.

Lemma check_exists_excludes_the_given_contact_witness :
  exists b,
    crud.check_phone_number_exists
      (Some "1") (Some 0) (SessionLocal (snd (main.create_contact ann_twice empty_store)))
    = (Ok b, SessionLocal (snd (main.create_contact ann_twice empty_store)))
    /\ (b = true <->
        exists p, Some "1" = Some p /\ p <> ""
                  /\ phone_claimed (snd (main.create_contact ann_twice empty_store))
                                   p (Some 0)).
Proof.
  exact (proj1 (check_exists_excludes_the_given_contact
                  (snd (main.create_contact ann_twice empty_store)) (Some "1") 0
                  reachable_after_ann_twice)).
Defined.

(** X14: in every store reached from the empty one, the tag names are
    lowercase and pairwise distinct, so that no two tag rows have names
    equal up to case. *)
Theorem reachable_store_has_one_tag_per_name :
  forall s : Store,
    reachable s ->
    NoDup (map Tag.name (tags s))
    /\ (forall t, In t (tags s) -> lower (Tag.name t) = Tag.name t)
    /\ forall t1 t2, In t1 (tags s) -> In t2 (tags s) ->
                     lower (Tag.name t1) = lower (Tag.name t2) -> t1 = t2.
Proof.
  intros s Hs. destruct (reachable_tag_names_unique s Hs) as [[H1 H2] H3].
  split; [exact H1|]. split; [exact H2|exact H3].
Qed.

Lemma reachable_store_has_one_tag_per_name_witness :
  NoDup (map Tag.name (tags ann_with_friend))
  /\ lower (Tag.name (Tag.mk 1 "friend")) = Tag.name (Tag.mk 1 "friend").
Proof.
  destruct (reachable_store_has_one_tag_per_name
              ann_with_friend reachable_ann_with_friend) as (H1 & H2 & _).
  split; [exact H1|]. apply H2. left. reflexivity.
Defined.

(** ** Searching *)

(** X15: for an ASCII query free of [%] and [_] and an ASCII tag (offset
    and limit being SQLite integers), a search counts the contacts that
    match and pages them in the order of the sort column, each once and
    loaded with its rows and its tags: those of which the name, the email,
    the phone or a phone-number row contains the query up to the case of
    its letters (when a non-empty query is given) and which carry a tag
    of the given name up to case (when a non-empty tag is given). *)
Theorem search_counts_and_pages_the_matches :
  forall (inherited : string -> bool) (db : Session) (q tag : option string)
         (skip limit : Z) (sort_by sort_order : string) (col : Column),
    (forall q', q = Some q' -> wildcard_free q' = true /\ is_ascii q' = true) ->
    (forall t, tag = Some t -> is_ascii t = true) ->
    sqlite_integer skip -> sqlite_integer limit ->
    getattr_Contact inherited sort_by (ColumnAttribute col_name) = ColumnAttribute col ->
    exists found returned,
      NoDup found
      /\ ordered_by col (String.eqb sort_order "desc") found
      /\ (forall c,
             In c found
             <-> In c (contacts (txn db))
                 /\ (forall q', q = Some q' -> q' <> "" -> contact_contains (txn db) c q')
                 /\ (forall t, tag = Some t -> t <> "" -> contact_tagged (txn db) c t))
      /\ crud.search_contacts inherited q tag skip limit sort_by sort_order db
         = (Ok (Some (returned, Z.of_nat (List.length found))), db)
      /\ Forall2 same_contact returned
           (map (joinedload (txn db)) (offset_limit skip limit found)).
Proof.
  intros inherited db q tag skip limit sort_by sort_order col Hq _ _ _ Hcol.
  destruct (search_finds_exactly_the_matches (txn db) q tag
              (fun q' H => proj1 (Hq q' H))) as [Hnd Hin].
  pose proof (order_by_perm col (String.eqb sort_order "desc")
                (search_result q tag (txn db))) as Hperm.
  exists (order_by col (String.eqb sort_order "desc") (search_result q tag (txn db))).
  eexists.
  split; [exact (Permutation_NoDup Hperm Hnd)|].
  split; [apply order_by_sorted|].
  split.
  { intros c. rewrite <- (Hin c). split.
    - apply Permutation_in. now apply Permutation_sym.
    - now apply Permutation_in. }
  split.
  - rewrite (search_contacts_run _ _ _ _ _ _ _ _ _ Hcol), order_by_length.
    reflexivity.
  - apply same_contacts_refl.
Qed.

Lemma search_counts_and_pages_the_matches_witness :
  exists found returned,
    NoDup found
    /\ crud.search_contacts (fun _ => false) (Some "AN") (Some "Friend") 0 10 "name" "asc"
                            (SessionLocal ann_and_bob)
       = (Ok (Some (returned, Z.of_nat (List.length found))), SessionLocal ann_and_bob)
    /\ Forall2 same_contact returned
         (map (joinedload ann_and_bob) (offset_limit 0 10 found)).
Proof.
  destruct (search_counts_and_pages_the_matches
              (fun _ => false) (SessionLocal ann_and_bob) (Some "AN") (Some "Friend")
              0 10 "name" "asc" col_name)
    as (found & returned & H1 & _ & _ & H2 & H3).
  - intros q' [= <-]. split; reflexivity.
  - intros t [= <-]. reflexivity.
  - unfold sqlite_integer. lia.
  - unfold sqlite_integer. lia.
  - reflexivity.
  - exists found, returned. split; [exact H1|]. split; [exact H2|exact H3].
Defined.

Lemma search_rows_up_to_case q q' tag tag' s :
  same_up_to_case q q' -> same_up_to_case tag tag' ->
  crud.search_rows q tag s = crud.search_rows q' tag' s.
Proof.
  unfold same_up_to_case, crud.search_rows. intros Hq Ht.
  set (rows0 := map (fun c => mkJoinRow c None None) (contacts s)).
  assert (E1 : match q with
               | Some ((String _ _) as query) =>
                   filter (crud.matches_search_term ("%" ++ lower query ++ "%"))
                          (outerjoin_phone_numbers s rows0)
               | _ => rows0
               end
               = match q' with
                 | Some ((String _ _) as query) =>
                     filter (crud.matches_search_term ("%" ++ lower query ++ "%"))
                            (outerjoin_phone_numbers s rows0)
                 | _ => rows0
                 end).
  { destruct q as [[|a q]|], q' as [[|a' q']|]; try discriminate; try reflexivity.
    simpl in Hq. injection Hq as Ha Hr. cbn [lower]. now rewrite Ha, Hr. }
  rewrite E1. clear E1.
  destruct tag as [[|a t]|], tag' as [[|a' t']|]; try discriminate; try reflexivity.
  simpl in Ht. injection Ht as Ha Hr.
  apply filter_ext. intros r. unfold crud.matches_tag.
  destruct (j_tag r); [|reflexivity]. cbn [lower]. now rewrite Ha, Hr.
Qed.

(** X16: a search does not tell a query, or a tag, from another that is
    equal to it up to the case of its letters. *)
Theorem search_ignores_case :
  forall (inherited : string -> bool) (db : Session) (q q' tag tag' : option string)
         (skip limit : Z) (sort_by sort_order : string),
    same_up_to_case q q' -> same_up_to_case tag tag' ->
    crud.search_contacts inherited q tag skip limit sort_by sort_order db
    = crud.search_contacts inherited q' tag' skip limit sort_by sort_order db.
Proof.
  intros inherited db q q' tag tag' skip limit sort_by sort_order Hq Ht.
  unfold crud.search_contacts.
  destruct (getattr_Contact inherited sort_by (ColumnAttribute col_name)); [|reflexivity].
  rewrite !bind_query. unfold ret.
  now rewrite (search_rows_up_to_case q q' tag tag' (txn db) Hq Ht).
Qed.

Lemma search_ignores_case_witness :
  crud.search_contacts (fun _ => false) (Some "ANN") (Some "Friend") 0 10 "name" "asc"
                       (SessionLocal ann_and_bob)
  = crud.search_contacts (fun _ => false) (Some "ann") (Some "FRIEND") 0 10 "name" "asc"
                         (SessionLocal ann_and_bob).
Proof.
  apply search_ignores_case; reflexivity.
Defined.

Lemma distinct_of_nodup l : NoDup l -> distinct l = l.
Proof.
  induction 1 as [|x l Hx Hnd IH]; simpl; [reflexivity|].
  rewrite IH. f_equal. apply filter_everything. intros y Hy.
  apply negb_true_iff. destruct (contact_eqb y x) eqn:E; [|reflexivity].
  apply contact_eqb_spec in E. now subst.
Qed.

Lemma nodup_of_ids (l : list Contact.t) : NoDup (map Contact.id l) -> NoDup l.
Proof. apply NoDup_map_inv. Qed.

Lemma search_rows_without_filter s q tag :
  (q = None \/ q = Some "") -> (tag = None \/ tag = Some "") ->
  map j_contact (crud.search_rows q tag s) = contacts s.
Proof.
  intros [->| ->] [->| ->]; unfold crud.search_rows; rewrite map_map; apply map_id.
Qed.

(** X17: on a contact table with distinct ids, a search with neither a
    query nor a tag (absent or empty) answers what the listing answers. *)
Theorem search_without_filter_is_the_listing :
  forall (inherited : string -> bool) (db : Session) (q tag : option string)
         (page page_size : Z) (sort_by sort_order : string),
    NoDup (map Contact.id (contacts (txn db))) ->
    (q = None \/ q = Some "") -> (tag = None \/ tag = Some "") ->
    main.search_contacts inherited q tag page page_size sort_by sort_order db
    = main.list_contacts inherited page page_size sort_by sort_order db.
Proof.
  intros inherited db q tag page page_size sort_by sort_order Hnd Hq Ht.
  unfold main.search_contacts, main.list_contacts, crud.search_contacts, crud.get_contacts.
  destruct (getattr_Contact inherited sort_by (ColumnAttribute col_name)); [|reflexivity].
  unfold bind, query, ret.
  now rewrite (search_rows_without_filter _ _ _ Hq Ht),
              (distinct_of_nodup _ (nodup_of_ids _ Hnd)).
Qed.

Lemma search_without_filter_is_the_listing_witness :
  main.search_contacts (fun _ => false) (Some "") None 1 10 "name" "desc"
                       (SessionLocal ann_and_bob)
  = main.list_contacts (fun _ => false) 1 10 "name" "desc" (SessionLocal ann_and_bob).
Proof.
  apply search_without_filter_is_the_listing.
  - apply NoDup_cons; [intros [H|[]]; discriminate H|].
    apply NoDup_cons; [intros []|apply NoDup_nil].
  - now right.
  - now left.
Defined.

(** ** Pages *)

Lemma slices_cover {A} (n m : nat) (l : list A) :
  (0 < n)%nat -> (List.length l <= m * n)%nat ->
  List.concat (map (fun k => firstn n (skipn (k * n) l)) (seq 0 m)) = l.
Proof.
  intros Hn. revert l. induction m as [|m IH]; intros l Hl.
  - destruct l; [reflexivity|simpl in Hl; lia].
  - cbn [seq map List.concat]. rewrite <- seq_shift, map_map.
    rewrite (map_ext (fun k => firstn n (skipn (S k * n) l))
                     (fun k => firstn n (skipn (k * n) (skipn n l)))).
    + rewrite IH; [apply firstn_skipn|]. rewrite length_skipn. simpl in Hl. lia.
    + intros k. rewrite skipn_skipn. do 2 f_equal. lia.
Qed.

Lemma pages_cover {A B} (f : A -> B) (page_size : Z) (l : list A) :
  1 <= page_size ->
  List.concat (map (fun k => map f (offset_limit ((Z.of_nat k - 1) * page_size) page_size l))
              (seq 1 (Z.to_nat ((Z.of_nat (List.length l) + page_size - 1) / page_size))))
  = map f l.
Proof.
  intros Hsize.
  pose proof (total_pages_is_ceiling (Z.of_nat (List.length l)) page_size
                ltac:(lia) Hsize) as Hceil. cbv zeta in Hceil.
  set (total_pages := (Z.of_nat (List.length l) + page_size - 1) / page_size) in *.
  rewrite <- seq_shift, map_map.
  rewrite (map_ext _ (fun k => map f (firstn (Z.to_nat page_size)
                                             (skipn (k * Z.to_nat page_size) l)))).
  - rewrite <- (map_map (fun k => firstn (Z.to_nat page_size)
                                         (skipn (k * Z.to_nat page_size) l)) (map f)).
    rewrite <- concat_map. f_equal. apply slices_cover; [lia|].
    assert (0 <= total_pages) by nia. nia.
  - intros k. rewrite (offset_limit_page _ _ _ Hsize). do 3 f_equal. nia.
Qed.

Lemma page_beyond_the_last {A} (page page_size : Z) (l : list A) :
  1 <= page_size ->
  (Z.of_nat (List.length l) + page_size - 1) / page_size < page ->
  offset_limit ((page - 1) * page_size) page_size l = [].
Proof.
  intros Hsize Hpage.
  pose proof (total_pages_is_ceiling (Z.of_nat (List.length l)) page_size
                ltac:(lia) Hsize) as Hceil. cbv zeta in Hceil.
  rewrite (offset_limit_page _ _ _ Hsize).
  rewrite skipn_all2; [now rewrite firstn_nil|]. nia.
Qed.

(** X18: for a page size of 1 or more (the page size, the offsets and the
    size of the contact table being SQLite integers), the pages of a
    listing, and those of a search, leave nothing out and repeat nothing:
    there is an ordering by the sort column, of the whole contact table for
    a listing and without duplicates for a search, such that every page
    reports the same [total_pages], pages 1 to [total_pages], one after the
    other, are the contacts of that ordering, each loaded with its rows
    and its tags, and every later page is empty. *)
Theorem pages_partition_the_result :
  forall (inherited : string -> bool) (db : Session) (q tag : option string)
         (page_size : Z) (sort_by sort_order : string) (col : Column),
    1 <= page_size -> sqlite_integer page_size ->
    sqlite_integer (Z.of_nat (List.length (contacts (txn db)))) ->
    getattr_Contact inherited sort_by (ColumnAttribute col_name) = ColumnAttribute col ->
    let desc := String.eqb sort_order "desc" in
    let list_page := fun page =>
      main.list_contacts inherited page page_size sort_by sort_order db in
    let search_page := fun page =>
      main.search_contacts inherited q tag page page_size sort_by sort_order db in
    (exists total_pages listed,
        Permutation (contacts (txn db)) listed
        /\ ordered_by col desc listed
        /\ (forall page,
               1 <= page -> sqlite_integer ((page - 1) * page_size) ->
               exists r,
                 list_page page = (Ok (Some r), db)
                 /\ schemas.total_pages r = total_pages)
        /\ Forall2 same_contact (all_pages list_page total_pages)
                   (map (joinedload (txn db)) listed)
        /\ forall page,
             total_pages < page -> sqlite_integer ((page - 1) * page_size) ->
             page_contacts (list_page page) = [])
    /\ (exists total_pages found,
        NoDup found
        /\ (forall c, In c found -> In c (contacts (txn db)))
        /\ ordered_by col desc found
        /\ (forall page,
               1 <= page -> sqlite_integer ((page - 1) * page_size) ->
               exists r,
                 search_page page = (Ok (Some r), db)
                 /\ schemas.total_pages r = total_pages)
        /\ Forall2 same_contact (all_pages search_page total_pages)
                   (map (joinedload (txn db)) found)
        /\ forall page,
             total_pages < page -> sqlite_integer ((page - 1) * page_size) ->
             page_contacts (search_page page) = []).
Proof.
  intros inherited db q tag page_size sort_by sort_order col Hsize _ _ Hcol
         desc list_page search_page.
  split.
  - exists ((Z.of_nat (List.length (contacts (txn db))) + page_size - 1) / page_size),
           (order_by col desc (contacts (txn db))).
    assert (Hrun : forall page,
               page_contacts (list_page page)
               = map (joinedload (txn db))
                     (offset_limit ((page - 1) * page_size) page_size
                        (order_by col desc (contacts (txn db))))).
    { intros page. unfold list_page, page_contacts.
      now rewrite (list_contacts_run _ _ _ _ _ _ _ Hcol). }
    split; [apply order_by_perm|]. split; [apply order_by_sorted|].
    split; [|split].
    + intros page _ _. eexists.
      split; [apply (list_contacts_run _ _ _ _ _ _ _ Hcol)|]. reflexivity.
    + unfold all_pages. rewrite (map_ext _ _ (fun k => Hrun (Z.of_nat k))).
      rewrite <- (order_by_length col desc (contacts (txn db))).
      rewrite pages_cover by exact Hsize. apply same_contacts_refl.
    + intros page Hpage _.
      rewrite Hrun, page_beyond_the_last; [reflexivity|exact Hsize|].
      now rewrite order_by_length.
  - set (found := search_result q tag (txn db)).
    exists ((Z.of_nat (List.length found) + page_size - 1) / page_size),
           (order_by col desc found).
    assert (Hrun : forall page,
               page_contacts (search_page page)
               = map (joinedload (txn db))
                     (offset_limit ((page - 1) * page_size) page_size
                        (order_by col desc found))).
    { intros page. unfold search_page, page_contacts.
      now rewrite (main_search_contacts_run _ _ _ _ _ _ _ _ _ Hcol). }
    split; [exact (Permutation_NoDup (order_by_perm _ _ _) (distinct_nodup _))|].
    split.
    { intros c Hc.
      apply (Permutation_in _ (Permutation_sym (order_by_perm col desc _))) in Hc.
      now apply search_result_spec in Hc. }
    split; [apply order_by_sorted|]. split; [|split].
    + intros page _ _. eexists.
      split; [apply (main_search_contacts_run _ _ _ _ _ _ _ _ _ Hcol)|]. reflexivity.
    + unfold all_pages. rewrite (map_ext _ _ (fun k => Hrun (Z.of_nat k))).
      rewrite <- (order_by_length col desc found).
      rewrite pages_cover by exact Hsize. apply same_contacts_refl.
    + intros page Hpage _.
      rewrite Hrun, page_beyond_the_last; [reflexivity|exact Hsize|].
      now rewrite order_by_length.
Qed.

Lemma pages_partition_the_result_witness :
  exists total_pages listed,
    Permutation (contacts five_contacts) listed
    /\ ordered_by col_name true listed
    /\ Forall2 same_contact
         (all_pages (fun page => main.list_contacts (fun _ => false) page 2 "name" "desc"
                                                    (SessionLocal five_contacts))
                    total_pages)
         (map (joinedload five_contacts) listed).
Proof.
  destruct (pages_partition_the_result (fun _ => false) (SessionLocal five_contacts)
              None None 2 "name" "desc" col_name)
    as [(total_pages & listed & H1 & H2 & _ & H3 & _) _].
  - lia.
  - unfold sqlite_integer. lia.
  - vm_compute. split; discriminate.
  - reflexivity.
  - exists total_pages, listed. split; [exact H1|]. split; [exact H2|exact H3].
Defined.

(** ** Reading back an update *)

Lemma first_after_replace (c c' : Contact.t) contact_id l :
  Contact.id c = contact_id -> Contact.id c' = contact_id ->
  first (filter (fun r => Contact.id r =? contact_id) l) = Some c ->
  first (filter (fun r => Contact.id r =? contact_id)
                (map (fun r => if Contact.id r =? Contact.id c then c' else r) l))
  = Some c'.
Proof.
  intros Hc Hc'. rewrite Hc. induction l as [|x l IH]; simpl; [discriminate|].
  destruct (Contact.id x =? contact_id) eqn:E.
  - intros _. now rewrite Hc', Z.eqb_refl.
  - rewrite E. exact IH.
Qed.

(** X19: the object an update returns is the object a later read of the
    same id returns, in any session opened on the committed store. *)
Theorem update_then_get_contact :
  forall (db : Session) (contact_id : Z) (contact_update : schemas.ContactUpdate)
         (updated : Contact.obj) (db' : Session),
    crud.update_contact contact_id contact_update db = (Ok (Some updated), db') ->
    crud.get_contact contact_id (SessionLocal (close db'))
    = (Ok (Some updated), SessionLocal (close db')).
Proof.
  intros db contact_id contact_update updated db' Hrun.
  apply update_contact_ok in Hrun as (c & s' & Hget & Hc & -> & ->).
  pose proof (committed_update_tables _ _ _ _ _ Hc) as (Hcon & _).
  pose proof (first_filter_some _ _ _ Hget) as [_ Hid]. apply Z.eqb_eq in Hid.
  unfold crud.get_contact, query, close, SessionLocal. cbn [txn committed].
  rewrite Hcon.
  rewrite (first_after_replace c (updated_row c contact_update) contact_id _ Hid
             (eq_trans (updated_row_id c contact_update) Hid) Hget).
  reflexivity.
Qed.

Lemma update_then_get_contact_witness :
  crud.get_contact 2
    (SessionLocal (mkStore [Contact.mk 1 "John" None (Some "1234567890") None;
                            Contact.mk 2 "Ann B" None (Some "9876543210") None]
                           [PhoneNumber.mk 1 2 "222"; PhoneNumber.mk 2 2 "333"] [] [] []))
  = (Ok (Some (Contact.mkObj (Contact.mk 2 "Ann B" None (Some "9876543210") None)
                             [PhoneNumber.mk 1 2 "222"; PhoneNumber.mk 2 2 "333"] [] [])),
     SessionLocal (mkStore [Contact.mk 1 "John" None (Some "1234567890") None;
                            Contact.mk 2 "Ann B" None (Some "9876543210") None]
                           [PhoneNumber.mk 1 2 "222"; PhoneNumber.mk 2 2 "333"] [] [] [])).
Proof.
  exact (update_then_get_contact (SessionLocal john_and_jane) 2 rename_and_renumber
           (Contact.mkObj (Contact.mk 2 "Ann B" None (Some "9876543210") None)
                          [PhoneNumber.mk 1 2 "222"; PhoneNumber.mk 2 2 "333"] [] [])
           (mkSession
              (mkStore [Contact.mk 1 "John" None (Some "1234567890") None;
                        Contact.mk 2 "Ann B" None (Some "9876543210") None]
                       [PhoneNumber.mk 1 2 "222"; PhoneNumber.mk 2 2 "333"] [] [] [])
              (mkStore [Contact.mk 1 "John" None (Some "1234567890") None;
                        Contact.mk 2 "Ann B" None (Some "9876543210") None]
                       [PhoneNumber.mk 1 2 "222"; PhoneNumber.mk 2 2 "333"] [] [] []))
           eq_refl).
Defined.

(** ** Values repeated within one request *)

Lemma insert_each_phone_numbers_distinct s l s' :
  insert_each insert_phone_number s l = Some s' ->
  NoDup (map snd l)
  /\ forall v, In v (map snd l) -> ~ In v (map PhoneNumber.number (phone_numbers s)).
Proof.
  revert s. induction l as [|[cid v] l IH]; intros s; simpl.
  - intros _. split; [constructor|intros v []].
  - destruct (existsb _ (phone_numbers s)) eqn:E; [discriminate|].
    apply existsb_number_false in E.
    intros H. apply IH in H as [H1 H2]. simpl in H2. split.
    + constructor; [|exact H1]. intros Hin. apply (H2 v Hin).
      rewrite map_app. apply in_or_app. right. now left.
    + intros v' [<-|Hv']; [exact E|]. intros Hin. apply (H2 v' Hv').
      rewrite map_app. apply in_or_app. now left.
Qed.

Lemma insert_each_addresses_distinct s l s' :
  insert_each insert_address s l = Some s' ->
  NoDup (map snd l)
  /\ forall v, In v (map snd l) -> ~ In v (map Address.address (addresses s)).
Proof.
  revert s. induction l as [|[cid v] l IH]; intros s; simpl.
  - intros _. split; [constructor|intros v []].
  - destruct (existsb _ (addresses s)) eqn:E; [discriminate|].
    apply existsb_address_false in E.
    intros H. apply IH in H as [H1 H2]. simpl in H2. split.
    + constructor; [|exact H1]. intros Hin. apply (H2 v Hin).
      rewrite map_app. apply in_or_app. right. now left.
    + intros v' [<-|Hv']; [exact E|]. intros Hin. apply (H2 v' Hv').
      rewrite map_app. apply in_or_app. now left.
Qed.

Lemma flush_new_rows_distinct s u s' :
  flush s u = Some s' ->
  NoDup (map snd (new_phone_numbers u)) /\ NoDup (map snd (new_addresses u)).
Proof.
  unfold flush.
  destruct (insert_each insert_phone_number _ (new_phone_numbers u)) as [s1|] eqn:E1;
    [|discriminate].
  destruct (insert_each insert_address s1 (new_addresses u)) as [s2|] eqn:E2;
    [|discriminate].
  intros _. split.
  - exact (proj1 (insert_each_phone_numbers_distinct _ _ _ E1)).
  - exact (proj1 (insert_each_addresses_distinct _ _ _ E2)).
Qed.

(** X20: a request that lists the same phone number twice, or the same
    address twice, is never carried out: whenever a create is answered with
    201 or an update with 200, the numbers of its phone-number list were
    pairwise distinct, and so were the addresses of its address list. *)
Theorem repeated_values_are_never_stored :
  forall (s : Store),
    (forall contact created s',
        main.create_contact contact s = (main.Reply 201 created, s') ->
        NoDup (map schemas.number (or_empty (schemas.phone_numbers contact)))
        /\ NoDup (map schemas.address (or_empty (schemas.addresses contact))))
    /\ (forall contact_id contact_update updated s',
        main.update_contact contact_id contact_update s = (main.Reply 200 updated, s') ->
        NoDup (map schemas.number (or_empty (schemas.u_phone_numbers contact_update)))
        /\ NoDup (map schemas.address (or_empty (schemas.u_addresses contact_update)))).
Proof.
  intros s. split.
  - intros contact created s' Hrun.
    apply main_create_contact_ok in Hrun as [_ [c Hc]].
    unfold committed_create in Hc.
    destruct (flush _ _) as [s1|] eqn:Eflush; [|discriminate].
    apply flush_new_rows_distinct in Eflush as [H1 H2].
    cbn [new_phone_numbers new_addresses create_unit_of_work] in H1, H2.
    rewrite map_map in H1, H2. split; [exact H1|exact H2].
  - intros contact_id contact_update updated s' Hrun.
    apply main_update_contact_ok in Hrun as (c & _ & _ & _ & _ & Hc).
    unfold committed_update in Hc.
    apply flush_new_rows_distinct in Hc as [H1 H2].
    cbn [new_phone_numbers new_addresses update_unit_of_work] in H1, H2.
    split.
    + destruct (schemas.u_phone_numbers contact_update); [|constructor].
      now rewrite map_map in H1.
    + destruct (schemas.u_addresses contact_update); [|constructor].
      now rewrite map_map in H2.
Qed.

Lemma repeated_values_are_never_stored_witness :
  NoDup (map schemas.number (or_empty (schemas.phone_numbers ann_twice))).
Proof.
  exact (proj1 (proj1 (repeated_values_are_never_stored empty_store) ann_twice
                  (Contact.mkObj (Contact.mk 1 "Ann" None (Some "1") None)
                                 [PhoneNumber.mk 1 1 "1"] [] [])
                  (snd (main.create_contact ann_twice empty_store)) eq_refl)).
Defined.

(** ** The tags of a contact after a write *)

Lemma load_tags_iff s contact_id t :
  In t (load_tags s contact_id)
  <-> In t (tags s) /\ In (contact_id, Tag.id t) (contact_tag_association s).
Proof.
  split; [apply load_tags_in|]. intros [Ht Ha]. unfold load_tags.
  apply in_flat_map. exists (contact_id, Tag.id t). split; [exact Ha|].
  simpl. rewrite Z.eqb_refl. apply filter_In. split; [exact Ht|apply Z.eqb_refl].
Qed.

Lemma load_tags_ext s1 s2 contact_id :
  tags s1 = tags s2 -> contact_tag_association s1 = contact_tag_association s2 ->
  load_tags s1 contact_id = load_tags s2 contact_id.
Proof. unfold load_tags. now intros -> ->. Qed.

Lemma insert_tag_row s name t s1 :
  insert_tag s name = Some (t, s1) ->
  Tag.name t = name /\ tags s1 = (tags s ++ [t])%list.
Proof.
  unfold insert_tag. destruct (existsb _ (tags s)); [discriminate|].
  intros [= <- <-]. split; reflexivity.
Qed.

(** The tag rows the members of a flushed collection stand for. *)
Lemma flush_new_tags_resolved s refs s' ids :
  flush_new_tags s refs = Some (s', ids) ->
  (forall t, In (Persistent t) refs -> In t (tags s)) ->
  exists ts,
    ids = map Tag.id ts
    /\ (forall t, In t ts ->
          In t (tags s') /\ (In (Persistent t) refs \/ In (Pending (Tag.name t)) refs))
    /\ (forall ref, In ref refs ->
          exists t, In t ts /\ match ref with
                               | Persistent t0 => t = t0
                               | Pending name => Tag.name t = name
                               end).
Proof.
  revert s ids. induction refs as [|[t0|name] refs IH]; intros s ids; simpl.
  - intros [= <- <-] _. exists []. split; [reflexivity|]. split; [intros t []|intros r []].
  - destruct (flush_new_tags s refs) as [[s1 ids1]|] eqn:E; [|discriminate].
    intros [= <- <-] Hp.
    destruct (IH _ _ E (fun t H => Hp t (or_intror H))) as (ts & -> & H1 & H2).
    destruct (flush_new_tags_rows _ _ _ _ E) as [rows Hrows].
    exists (t0 :: ts). split; [reflexivity|]. split.
    + intros t [<-|Ht].
      * split; [|left; now left]. rewrite Hrows. apply in_or_app. left.
        apply Hp. now left.
      * destruct (H1 t Ht) as [I1 [I2|I2]]; split; auto.
    + intros ref [<-|Hr].
      * exists t0. split; [now left|reflexivity].
      * destruct (H2 ref Hr) as [t [I1 I2]]. exists t. split; [now right|exact I2].
  - destruct (insert_tag s name) as [[t1 s1]|] eqn:Ei; [|discriminate].
    destruct (flush_new_tags s1 refs) as [[s2 ids2]|] eqn:E; [|discriminate].
    intros [= <- <-] Hp.
    destruct (insert_tag_row _ _ _ _ Ei) as [Hn Ht1].
    assert (Hp1 : forall t, In (Persistent t) refs -> In t (tags s1)).
    { intros t Ht. rewrite Ht1. apply in_or_app. left. apply Hp. now right. }
    destruct (IH _ _ E Hp1) as (ts & -> & H1 & H2).
    destruct (flush_new_tags_rows _ _ _ _ E) as [rows Hrows].
    exists (t1 :: ts). split; [reflexivity|]. split.
    + intros t [<-|Ht].
      * split; [|right; left; now rewrite Hn]. rewrite Hrows, Ht1.
        apply in_or_app. left. apply in_or_app. right. now left.
      * destruct (H1 t Ht) as [I1 [I2|I2]]; split; auto.
    + intros ref [<-|Hr].
      * exists t1. split; [now left|exact Hn].
      * destruct (H2 ref Hr) as [t [I1 I2]]. exists t. split; [now right|exact I2].
Qed.

(** After the flush of a collection whose original state is what the
    store links the contact to, the contact is linked to the tag rows of
    the collection's members, and to no other. *)
Lemma flush_tags_collection_loads s contact_id current s' :
  flush_tags_collection s (Some (contact_id, load_tags s contact_id, current)) = Some s' ->
  NoDup (map Tag.id (tags s)) ->
  (forall a, In a (contact_tag_association s) ->
             exists t, In t (tags s) /\ Tag.id t = snd a) ->
  (forall t, In (Persistent t) current -> In t (tags s)) ->
  exists ts,
    (forall t, In t (load_tags s' contact_id) <-> In t ts)
    /\ (forall t, In t ts ->
          In (Persistent t) current \/ In (Pending (Tag.name t)) current)
    /\ (forall ref, In ref current ->
          exists t, In t ts /\ match ref with
                               | Persistent t0 => t = t0
                               | Pending name => Tag.name t = name
                               end).
Proof.
  unfold flush_tags_collection. intros H Hnd Href Hper.
  destruct (flush_new_tags s current) as [[s1 ids]|] eqn:E; [|discriminate].
  destruct (appended_again _ _) eqn:Eagain; [discriminate|].
  destruct (flush_new_tags_resolved _ _ _ _ E Hper) as (ts & Hids & H1 & H2).
  pose proof (proj1 (flush_new_tags_ids _ _ _ _ E) Hnd) as Hnd1.
  destruct (flush_new_tags_rows _ _ _ _ E) as [rows Hrows].
  destruct (flush_new_tags_frame _ _ _ _ E) as (_ & _ & _ & Hassoc1).
  pose proof (insert_each_associations_rows _ _ _ H) as Hassoc.
  destruct (insert_each_associations _ _ _ H) as (_ & _ & _ & Htags).
  cbn [contact_tag_association tags set_association] in Hassoc, Htags.
  rewrite Hassoc1 in Hassoc.
  assert (Hin_ids : forall t, In t (tags s1) -> In (Tag.id t) ids -> In t ts).
  { intros t Ht Hi. rewrite Hids in Hi. apply in_map_iff in Hi as [t1 [Hid Ht1]].
    rewrite <- (NoDup_map_inj Tag.id (tags s1) t1 t Hnd1 (proj1 (H1 t1 Ht1)) Ht Hid).
    exact Ht1. }
  exists ts. split; [|split; [intros t Ht; exact (proj2 (H1 t Ht))|exact H2]].
  intros t. rewrite load_tags_iff, Htags, Hassoc, in_app_iff. split.
  - intros [Ht [Ha|Ha]].
    + apply filter_In in Ha as [Ha Hkeep]. cbn [fst snd] in Hkeep.
      rewrite Z.eqb_refl in Hkeep.
      destruct (Href _ Ha) as [t0 [Ht0 Hid0]]. cbn [snd] in Hid0.
      assert (t0 = t).
      { apply (NoDup_map_inj Tag.id (tags s1)); auto.
        rewrite Hrows. apply in_or_app. now left. }
      subst t0.
      assert (Hmem : mem (Tag.id t) (map Tag.id (load_tags s contact_id)) = true).
      { apply mem_in, in_map, load_tags_iff. split; assumption. }
      rewrite Hmem in Hkeep. simpl in Hkeep.
      apply negb_true_iff, negb_false_iff, mem_in in Hkeep. now apply Hin_ids.
    + apply in_map_iff in Ha as [i [[= ->] Hi]]. apply filter_In in Hi as [Hi _].
      now apply Hin_ids.
  - intros Ht. destruct (H1 t Ht) as [Hs1 _]. split; [exact Hs1|].
    assert (Hi : In (Tag.id t) ids) by (rewrite Hids; now apply in_map).
    destruct (mem (Tag.id t) (map Tag.id (load_tags s contact_id))) eqn:Hmem.
    + left. apply filter_In. cbn [fst snd]. split.
      * apply mem_in, in_map_iff in Hmem as [t0 [Hid0 Ht0]].
        apply load_tags_iff in Ht0 as [_ Ha0]. now rewrite <- Hid0.
      * rewrite Z.eqb_refl, Hmem. apply mem_in in Hi. now rewrite Hi.
    + right. apply in_map_iff. exists (Tag.id t). split; [reflexivity|].
      apply filter_In. split; [exact Hi|]. now rewrite Hmem.
Qed.

Lemma flush_tags_step s u s' :
  flush s u = Some s' -> deleted u = None ->
  exists s2,
    tags s2 = tags s /\ contact_tag_association s2 = contact_tag_association s
    /\ flush_tags_collection s2 (tags_collection u) = Some s'.
Proof.
  unfold flush. intros H Hdel. rewrite Hdel in H.
  set (s0 := match dirty u with Some c => update_contact_row s c | None => s end) in *.
  assert (Ht0 : tags s0 = tags s) by (subst s0; now destruct (dirty u)).
  assert (Hc0 : contact_tag_association s0 = contact_tag_association s)
    by (subst s0; now destruct (dirty u)).
  destruct (insert_each insert_phone_number s0 (new_phone_numbers u)) as [s1|] eqn:E1;
    [|discriminate].
  destruct (insert_each insert_address s1 (new_addresses u)) as [s2|] eqn:E2;
    [|discriminate].
  destruct (flush_tags_collection s2 (tags_collection u)) as [s3|] eqn:E3;
    [|discriminate].
  injection H as <-.
  destruct (insert_each_phone_numbers _ _ _ E1) as (_ & _ & P1 & P2 & _).
  destruct (insert_each_addresses _ _ _ E2) as (_ & _ & A1 & A2).
  exists s2. split; [congruence|]. split; [congruence|exact E3].
Qed.

(** The names of the resolved tag rows are the lowercased names asked for. *)
Lemma resolved_names s l ts :
  (forall t, In t ts ->
     In (Persistent t) (map (resolve_tag s) l)
     \/ In (Pending (Tag.name t)) (map (resolve_tag s) l)) ->
  (forall ref, In ref (map (resolve_tag s) l) ->
     exists t, In t ts /\ match ref with
                          | Persistent t0 => t = t0
                          | Pending name => Tag.name t = name
                          end) ->
  forall name, In name (map Tag.name ts) <-> In name (map lower l).
Proof.
  intros H1 H2 name. split.
  - intros Hn. apply in_map_iff in Hn as [t [<- Ht]]. apply in_map_iff.
    destruct (H1 t Ht) as [Hp|Hp].
    + apply in_map_iff in Hp as [n [Hr Hn]]. exists n. split; [|exact Hn].
      now apply resolve_tag_persistent in Hr as [_ ->].
    + apply pending_resolved_name in Hp as [n [Hn ->]]. now exists n.
  - intros Hn. apply in_map_iff in Hn as [n [<- Hn]].
    destruct (H2 (resolve_tag s n) (in_map _ _ _ Hn)) as [t [Ht Hm]].
    apply in_map_iff. exists t. split; [|exact Ht].
    destruct (resolve_tag s n) as [t0|m] eqn:Er.
    + subst t0. now apply resolve_tag_persistent in Er as [_ ->].
    + unfold resolve_tag in Er. destruct (first _); [discriminate|].
      injection Er as <-. exact Hm.
Qed.

Lemma in_names_of {ts l : list Tag.t} :
  (forall t, In t l <-> In t ts) ->
  forall name, In name (map Tag.name l) <-> In name (map Tag.name ts).
Proof.
  intros H name. rewrite !in_map_iff. split; intros [t [Hn Ht]]; exists t;
    (split; [exact Hn|now apply H]).
Qed.

Lemma load_tags_fresh s contact_id :
  (forall a, In a (contact_tag_association s) -> fst a <> contact_id) ->
  load_tags s contact_id = [].
Proof.
  intros H. destruct (load_tags s contact_id) as [|t l] eqn:E; [reflexivity|].
  assert (Ht : In t (load_tags s contact_id)) by (rewrite E; now left).
  apply load_tags_in in Ht as [_ Ha]. now elim (H _ Ha).
Qed.

(** X21: in a store reached from the empty one, the contact a create
    returns has what the request asked for: a phone-number row for each
    number and an address row for each address, in the order of the
    request, and, when the tag names of the request are ASCII, the tags
    whose names are those names lowercased. *)
Theorem create_returns_what_was_asked :
  forall (db : Session) (contact : schemas.ContactCreate)
         (created : Contact.obj) (db' : Session),
    reachable (txn db) ->
    crud.create_contact contact db = (Ok created, db') ->
    map PhoneNumber.number (Contact.phone_numbers created)
    = map schemas.number (or_empty (schemas.phone_numbers contact))
    /\ map Address.address (Contact.addresses created)
       = map schemas.address (or_empty (schemas.addresses contact))
    /\ ((forall n, In n (or_empty (schemas.tags contact)) -> is_ascii n = true) ->
        forall name,
          In name (map Tag.name (Contact.tags created))
          <-> In name (map lower (or_empty (schemas.tags contact)))).
Proof.
  intros db contact created db' Hs Hrun.
  destruct (reachable_primary_keys _ Hs) as (_ & _ & _ & _ & Htid & _).
  destruct (reachable_referential_integrity _ Hs) as (R1 & R2 & R3).
  apply create_contact_ok in Hrun as (c & s' & Hc & -> & _ & _ & _).
  unfold committed_create in Hc.
  destruct (flush _ _) as [s1|] eqn:Eflush; [|discriminate].
  injection Hc as <- <-.
  set (s0 := snd (insert_contact (txn db) (schemas.name contact) (schemas.email contact)
                                 (schemas.phone contact))) in *.
  set (c := Contact.mk (next_rowid (map Contact.id (contacts (txn db))))
                       (schemas.name contact) (schemas.email contact)
                       (schemas.phone contact) None) in *.
  assert (Hfresh : forall c0, In c0 (contacts (txn db)) -> Contact.id c0 <> Contact.id c).
  { intros c0 Hc0 E.
    pose proof (next_rowid_above (map Contact.id (contacts (txn db))) (Contact.id c0)
                  (in_map _ _ _ Hc0)) as Hlt.
    subst c. simpl in E. lia. }
  pose proof (flush_appends _ _ _ Eflush eq_refl)
    as (_ & [prows [Hp Hp']] & [arows [Ha Ha']] & _).
  destruct (flush_tags_step _ _ _ Eflush eq_refl) as (s2 & Ht2 & Ha2 & Htags).
  cbn [new_phone_numbers new_addresses create_unit_of_work] in Hp', Ha'.
  change (Contact.phone_numbers (joinedload s1 c))
    with (filter (fun p => PhoneNumber.contact_id p =? Contact.id c) (phone_numbers s1)).
  change (Contact.addresses (joinedload s1 c))
    with (filter (fun a => Address.contact_id a =? Contact.id c) (addresses s1)).
  change (Contact.tags (joinedload s1 c)) with (load_tags s1 (Contact.id c)).
  split; [|split].
  - rewrite <- (map_map schemas.number (fun v => (Contact.id c, v))) in Hp'.
    apply (rows_owned PhoneNumber.contact_id PhoneNumber.number) in Hp' as [Hown Hval].
    rewrite Hp, filter_app, filter_nothing, (filter_everything _ prows); [exact Hval| |].
    + intros r Hr. apply Z.eqb_eq. now apply Hown.
    + intros r Hr. apply Z.eqb_neq. destruct (R1 r Hr) as [c0 [Hc0 <-]]. now apply Hfresh.
  - rewrite <- (map_map schemas.address (fun v => (Contact.id c, v))) in Ha'.
    apply (rows_owned Address.contact_id Address.address) in Ha' as [Hown Hval].
    rewrite Ha, filter_app, filter_nothing, (filter_everything _ arows); [exact Hval| |].
    + intros r Hr. apply Z.eqb_eq. now apply Hown.
    + intros r Hr. apply Z.eqb_neq. destruct (R2 r Hr) as [c0 [Hc0 <-]]. now apply Hfresh.
  - intros _.
    assert (Hnone : forall s, contact_tag_association s = contact_tag_association (txn db) ->
                              load_tags s (Contact.id c) = []).
    { intros s Hassoc. apply load_tags_fresh. rewrite Hassoc. intros a Hin.
      destruct (R3 a Hin) as [[c0 [Hc0 <-]] _]. now apply Hfresh. }
    cbn [tags_collection create_unit_of_work] in Htags.
    destruct (schemas.tags contact) as [[|n l]|].
    + injection Htags as Heq. rewrite <- Heq, (Hnone s2 Ha2). reflexivity.
    + change (flush_tags_collection s2
                (Some (Contact.id c, load_tags s0 (Contact.id c),
                       (map Persistent (load_tags s0 (Contact.id c))
                        ++ map (resolve_tag s0) (n :: l))%list)) = Some s1) in Htags.
      rewrite (Hnone s0 eq_refl) in Htags.
      change (map Persistent [] ++ map (resolve_tag s0) (n :: l))%list
        with (map (resolve_tag s0) (n :: l)) in Htags.
      rewrite <- (Hnone s2 Ha2) in Htags.
      apply flush_tags_collection_loads in Htags as (ts & Hload & H1 & H2).
      * intros name. rewrite (in_names_of Hload name).
        exact (resolved_names s0 (n :: l) ts H1 H2 name).
      * now rewrite Ht2.
      * intros a Hin. rewrite Ha2 in Hin. rewrite Ht2.
        exact (proj2 (R3 a Hin)).
      * intros t Ht. rewrite Ht2. apply in_map_iff in Ht as [m [Hr _]].
        now apply resolve_tag_persistent in Hr.
    + injection Htags as Heq. rewrite <- Heq, (Hnone s2 Ha2). reflexivity.
Qed.

Lemma create_returns_what_was_asked_witness :
  map PhoneNumber.number
      (Contact.phone_numbers (Contact.mkObj (Contact.mk 2 "Cara" None None None)
                                [PhoneNumber.mk 1 2 "7"; PhoneNumber.mk 2 2 "8"]
                                [Address.mk 1 2 "C St"]
                                [Tag.mk 1 "friend"; Tag.mk 2 "work"]))
  = map schemas.number (or_empty (schemas.phone_numbers cara))
  /\ (In "work" (map Tag.name [Tag.mk 1 "friend"; Tag.mk 2 "work"])
      <-> In "work" (map lower (or_empty (schemas.tags cara)))).
Proof.
  destruct (create_returns_what_was_asked (SessionLocal ann_with_friend) cara
              (Contact.mkObj (Contact.mk 2 "Cara" None None None)
                             [PhoneNumber.mk 1 2 "7"; PhoneNumber.mk 2 2 "8"]
                             [Address.mk 1 2 "C St"]
                             [Tag.mk 1 "friend"; Tag.mk 2 "work"])
              (snd (crud.create_contact cara (SessionLocal ann_with_friend)))
              reachable_ann_with_friend eq_refl)
    as (H1 & _ & H3).
  split; [exact H1|]. apply H3.
  intros n [<-|[<-|[]]]; reflexivity.
Defined.

Lemma nodup_app_disjoint {A} (l1 l2 : list A) x :
  NoDup (l1 ++ l2)%list -> In x l1 -> ~ In x l2.
Proof.
  induction l1 as [|y l1 IH]; simpl; [intros _ []|].
  intros H [<-|Hx] H2; inversion H as [|? ? Hn Hnd]; subst.
  - apply Hn. apply in_or_app. now right.
  - exact (IH Hnd Hx H2).
Qed.

(** Tag rows appended with fresh ids are found by no id that an older tag
    row has. *)
Lemma filter_tag_id_appended (old rows : list Tag.t) i :
  NoDup (map Tag.id (old ++ rows)%list) ->
  (exists t, In t old /\ Tag.id t = i) ->
  filter (fun t => Tag.id t =? i) (old ++ rows)%list = filter (fun t => Tag.id t =? i) old.
Proof.
  intros Hnd [t0 [Ht0 Hid0]]. rewrite filter_app, (filter_nothing _ rows).
  - apply app_nil_r.
  - intros t Ht. apply Z.eqb_neq. intros E. rewrite map_app in Hnd.
    apply (nodup_app_disjoint _ _ i Hnd).
    + rewrite <- Hid0. now apply in_map.
    + rewrite <- E. now apply in_map.
Qed.

Lemma flat_map_nothing {A B} (f : A -> list B) l :
  (forall x, In x l -> f x = []) -> flat_map f l = [].
Proof.
  induction l as [|x l IH]; simpl; intros H; [reflexivity|].
  rewrite (H x (or_introl eq_refl)), IH; [reflexivity|].
  intros y Hy. apply H. now right.
Qed.

Lemma flush_tags_collection_other_contacts s contact_id original current s' other :
  flush_tags_collection s (Some (contact_id, original, current)) = Some s' ->
  NoDup (map Tag.id (tags s)) ->
  (forall a, In a (contact_tag_association s) ->
             exists t, In t (tags s) /\ Tag.id t = snd a) ->
  other <> contact_id ->
  load_tags s' other = load_tags s other.
Proof.
  unfold flush_tags_collection. intros H Hnd Href Hother.
  destruct (flush_new_tags s current) as [[s1 ids]|] eqn:E; [|discriminate].
  destruct (appended_again _ _) eqn:Eagain; [discriminate|].
  pose proof (proj1 (flush_new_tags_ids _ _ _ _ E) Hnd) as Hnd1.
  destruct (flush_new_tags_rows _ _ _ _ E) as [rows Hrows].
  destruct (flush_new_tags_frame _ _ _ _ E) as (_ & _ & _ & Hassoc1).
  pose proof (insert_each_associations_rows _ _ _ H) as Hassoc.
  destruct (insert_each_associations _ _ _ H) as (_ & _ & _ & Htags).
  cbn [contact_tag_association tags set_association] in Hassoc, Htags.
  rewrite Hassoc1 in Hassoc. rewrite Hrows in Htags, Hnd1.
  unfold load_tags. rewrite Hassoc, Htags, flat_map_app.
  rewrite (flat_map_nothing _ (map _ _)), app_nil_r.
  - clear Hassoc Hassoc1 H. revert Href.
    generalize (contact_tag_association s) as l.
    induction l as [|a l IH]; intros Href; [reflexivity|]. simpl.
    assert (Hl : forall a, In a l -> exists t, In t (tags s) /\ Tag.id t = snd a)
      by (intros b Hb; apply Href; now right).
    destruct (fst a =? other) eqn:Eo.
    + apply Z.eqb_eq in Eo.
      assert (Ec : (fst a =? contact_id) = false) by (apply Z.eqb_neq; congruence).
      rewrite Ec. simpl. rewrite Eo, Z.eqb_refl.
      rewrite (filter_tag_id_appended _ _ _ Hnd1 (Href a (or_introl eq_refl))).
      now rewrite (IH Hl).
    + destruct (negb _); simpl; [rewrite Eo|]; exact (IH Hl).
  - intros a Ha. apply in_map_iff in Ha as [i [<- _]]. simpl.
    destruct (contact_id =? other) eqn:Eo; [|reflexivity].
    apply Z.eqb_eq in Eo. congruence.
Qed.

(** X22: in a store reached from the empty one, a tag list in a patch
    replaces the tags of the contact: after an update that returns, the
    contact carries, when the names of the list are ASCII, the tags whose
    names are those names lowercased, and the tags of every other contact
    are the ones from before. *)
Theorem update_replaces_the_tags :
  forall (db : Session) (contact_id : Z) (contact_update : schemas.ContactUpdate)
         (updated : Contact.obj) (db' : Session) (tag_names : list string),
    reachable (txn db) ->
    crud.update_contact contact_id contact_update db = (Ok (Some updated), db') ->
    schemas.u_tags contact_update = Some tag_names ->
    ((forall n, In n tag_names -> is_ascii n = true) ->
     forall name,
       In name (map Tag.name (Contact.tags updated)) <-> In name (map lower tag_names))
    /\ forall other, other <> contact_id ->
         load_tags (txn db') other = load_tags (txn db) other.
Proof.
  intros db contact_id u updated db' l Hs Hrun Hl.
  destruct (reachable_primary_keys _ Hs) as (_ & _ & _ & _ & Htid & _).
  destruct (reachable_referential_integrity _ Hs) as (_ & _ & R3).
  apply update_contact_ok in Hrun as (c & s' & Eget & Hc & -> & ->).
  apply first_filter_some in Eget as [Hin Hid]. apply Z.eqb_eq in Hid.
  unfold committed_update in Hc.
  destruct (flush_tags_step _ _ _ Hc eq_refl) as (s2 & Ht2 & Ha2 & Htags).
  rewrite update_statements_tags in Ht2.
  rewrite update_statements_associations in Ha2.
  cbn [tags_collection update_unit_of_work] in Htags. rewrite Hl, Hid in Htags.
  assert (Href2 : forall a, In a (contact_tag_association s2) ->
                            exists t, In t (tags s2) /\ Tag.id t = snd a).
  { intros a Ha. rewrite Ha2 in Ha. rewrite Ht2. exact (proj2 (R3 a Ha)). }
  assert (Hnd2 : NoDup (map Tag.id (tags s2))) by now rewrite Ht2.
  split.
  - intros _.
    change (Contact.tags (joinedload s' (updated_row c u)))
      with (load_tags s' (Contact.id (updated_row c u))).
    rewrite updated_row_id, Hid.
    rewrite <- (load_tags_ext s2 (txn db) contact_id Ht2 Ha2) in Htags.
    apply flush_tags_collection_loads in Htags as (ts & Hload & H1 & H2); auto.
    + intros name. rewrite (in_names_of Hload name).
      exact (resolved_names (txn db) l ts H1 H2 name).
    + intros t Ht. rewrite Ht2. apply in_map_iff in Ht as [m [Hr _]].
      now apply resolve_tag_persistent in Hr.
  - intros other Hother. cbn [txn].
    rewrite (flush_tags_collection_other_contacts _ _ _ _ _ other Htags Hnd2 Href2 Hother).
    exact (load_tags_ext s2 (txn db) other Ht2 Ha2).
Qed.

Lemma update_replaces_the_tags_witness :
  (In "family" (map Tag.name [Tag.mk 2 "work"; Tag.mk 3 "family"])
   <-> In "family" (map lower ["Work"; "FAMILY"]))
  /\ load_tags (snd (main.update_contact 1 (retag ["Work"; "FAMILY"]) ann_with_friend)) 2
     = load_tags ann_with_friend 2.
Proof.
  assert (H2 : (2 : Z) <> 1) by discriminate.
  assert (Ha : forall n, In n ["Work"; "FAMILY"] -> is_ascii n = true)
    by (intros n [<-|[<-|[]]]; reflexivity).
  refine ((fun H => conj (proj1 H Ha "family") (proj2 H 2 H2))
          (update_replaces_the_tags (SessionLocal ann_with_friend) 1
                  (retag ["Work"; "FAMILY"])
                  (Contact.mkObj (Contact.mk 1 "Ann" None None None) [] []
                                 [Tag.mk 2 "work"; Tag.mk 3 "family"])
                  (snd (crud.update_contact 1 (retag ["Work"; "FAMILY"])
                                            (SessionLocal ann_with_friend)))
                  ["Work"; "FAMILY"]
                  reachable_ann_with_friend eq_refl eq_refl)).
Defined.

(** ** How the two filters of a search combine *)

(** X23: whatever the query and the tag, a search reports contacts of the
    contact table only, each once, so never more than the listing counts;
    and a search with a query and a tag finds the contacts that the search
    with the query alone and the search with the tag alone both find. *)
Theorem search_narrows_the_listing :
  forall (s : Store) (q tag : option string),
    let found := fun q tag => distinct (map j_contact (crud.search_rows q tag s)) in
    NoDup (found q tag)
    /\ (forall c, In c (found q tag) -> In c (contacts s))
    /\ (List.length (found q tag) <= List.length (contacts s))%nat
    /\ forall c, In c (found q tag) <-> In c (found q None) /\ In c (found None tag).
Proof.
  intros s q tag found.
  assert (Hin : forall c, In c (found q tag) -> In c (contacts s)).
  { intros c Hc. now apply (search_result_spec s q tag c) in Hc. }
  split; [apply distinct_nodup|]. split; [exact Hin|]. split.
  - apply NoDup_incl_length; [apply distinct_nodup|exact Hin].
  - intros c. subst found. cbv beta.
    change (distinct (map j_contact (crud.search_rows q tag s)))
      with (search_result q tag s).
    change (distinct (map j_contact (crud.search_rows q None s)))
      with (search_result q None s).
    change (distinct (map j_contact (crud.search_rows None tag s)))
      with (search_result None tag s).
    rewrite !search_result_spec. tauto.
Qed.

(** ** When a create is carried out *)

Lemma existsb_value_false {A} (value : A -> string) l v :
  ~ In v (map value l) -> existsb (fun x => String.eqb (value x) v) l = false.
Proof.
  intros H. destruct (existsb _ l) eqn:E; [|reflexivity].
  apply existsb_exists in E as [x [Hx He]]. apply String.eqb_eq in He.
  elim H. rewrite <- He. now apply in_map.
Qed.

Lemma nodup_map_injective {A B} (f : A -> B) l :
  (forall x y, In x l -> In y l -> f x = f y -> x = y) -> NoDup l -> NoDup (map f l).
Proof.
  intros Hinj Hnd. induction Hnd as [|x l Hx Hnd IH]; simpl; constructor.
  - intros Hin. apply in_map_iff in Hin as [y [Hy Hin]]. apply Hx.
    rewrite (Hinj x y (or_introl eq_refl) (or_intror Hin) (eq_sym Hy)). exact Hin.
  - apply IH. intros a b Ha Hb. apply Hinj; now right.
Qed.

Lemma insert_each_phone_numbers_succeeds s l :
  NoDup (map snd l) ->
  (forall v, In v (map snd l) -> ~ In v (map PhoneNumber.number (phone_numbers s))) ->
  exists s', insert_each insert_phone_number s l = Some s'.
Proof.
  revert s. induction l as [|[cid v] l IH]; intros s Hnd Hfree; simpl.
  - now exists s.
  - inversion Hnd as [|? ? Hv Hnd']; subst.
    rewrite (existsb_value_false PhoneNumber.number _ v (Hfree v (or_introl eq_refl))).
    apply IH; [exact Hnd'|]. intros v' Hv'. simpl. rewrite map_app.
    intros Hin. apply in_app_iff in Hin as [Hin|[<-|[]]].
    + exact (Hfree v' (or_intror Hv') Hin).
    + exact (Hv Hv').
Qed.

Lemma insert_each_addresses_succeeds s l :
  NoDup (map snd l) ->
  (forall v, In v (map snd l) -> ~ In v (map Address.address (addresses s))) ->
  exists s', insert_each insert_address s l = Some s'.
Proof.
  revert s. induction l as [|[cid v] l IH]; intros s Hnd Hfree; simpl.
  - now exists s.
  - inversion Hnd as [|? ? Hv Hnd']; subst.
    rewrite (existsb_value_false Address.address _ v (Hfree v (or_introl eq_refl))).
    apply IH; [exact Hnd'|]. intros v' Hv'. simpl. rewrite map_app.
    intros Hin. apply in_app_iff in Hin as [Hin|[<-|[]]].
    + exact (Hfree v' (or_intror Hv') Hin).
    + exact (Hv Hv').
Qed.

Lemma existsb_association_free l (a : Z * Z) :
  ~ In a l -> existsb (fun b => (fst b =? fst a) && (snd b =? snd a)) l = false.
Proof.
  intros H. destruct (existsb _ l) eqn:E; [|reflexivity].
  apply existsb_exists in E as [b [Hb He]]. apply andb_true_iff in He as [E1 E2].
  apply Z.eqb_eq in E1, E2. elim H. destruct a, b. simpl in *. now subst.
Qed.

Lemma insert_each_associations_succeeds s l :
  NoDup l -> (forall a, In a l -> ~ In a (contact_tag_association s)) ->
  exists s', insert_each insert_association s l = Some s'.
Proof.
  revert s. induction l as [|a l IH]; intros s Hnd Hfree; simpl.
  - now exists s.
  - inversion Hnd as [|? ? Ha Hnd']; subst. unfold insert_association at 1.
    rewrite (existsb_association_free _ a (Hfree a (or_introl eq_refl))).
    apply IH; [exact Hnd'|]. intros b Hb. simpl.
    intros Hin. apply in_app_iff in Hin as [Hin|[<-|[]]].
    + exact (Hfree b (or_intror Hb) Hin).
    + exact (Ha Hb).
Qed.

Lemma insert_each_associations_distinct s l s' :
  insert_each insert_association s l = Some s' ->
  NoDup l /\ forall a, In a l -> ~ In a (contact_tag_association s).
Proof.
  revert s. induction l as [|a l IH]; intros s; simpl.
  - intros _. split; [constructor|intros a []].
  - unfold insert_association at 1.
    destruct (existsb _ (contact_tag_association s)) eqn:E; [discriminate|].
    apply existsb_association_false in E.
    intros H. apply IH in H as [H1 H2]. simpl in H2. split.
    + constructor; [|exact H1]. intros Hin. apply (H2 a Hin).
      apply in_or_app. right. now left.
    + intros b [<-|Hb]; [exact E|]. intros Hin. apply (H2 b Hb).
      apply in_or_app. now left.
Qed.

Lemma resolve_tag_is_tag_named s n : resolve_tag s n = tag_named s (lower n).
Proof. reflexivity. Qed.

Lemma tag_named_injective s m1 m2 : tag_named s m1 = tag_named s m2 -> m1 = m2.
Proof.
  unfold tag_named.
  destruct (first (filter (fun t => String.eqb (Tag.name t) m1) (tags s))) as [t1|] eqn:E1;
    destruct (first (filter (fun t => String.eqb (Tag.name t) m2) (tags s))) as [t2|] eqn:E2;
    try discriminate.
  - intros [= <-]. apply first_filter_some in E1 as [_ E1], E2 as [_ E2].
    apply String.eqb_eq in E1, E2. congruence.
  - now intros [= ->].
Qed.

Lemma tag_named_pending s m name :
  tag_named s m = Pending name -> name = m /\ ~ In m (map Tag.name (tags s)).
Proof.
  unfold tag_named.
  destruct (first (filter (fun t => String.eqb (Tag.name t) m) (tags s))) as [t|] eqn:E;
    [discriminate|].
  intros [= <-]. split; [reflexivity|]. intros Hin.
  apply in_map_iff in Hin as [t [Hn Ht]].
  pose proof (first_filter_none _ _ E t Ht) as H. simpl in H.
  rewrite Hn, String.eqb_refl in H. discriminate.
Qed.

(** A flush of new tags that goes through had no pending name that the
    table holds already. *)
Lemma flush_new_tags_pending_fresh s refs s' ids name :
  flush_new_tags s refs = Some (s', ids) ->
  In (Pending name) refs -> ~ In name (map Tag.name (tags s)).
Proof.
  revert s s' ids. induction refs as [|[t0|m] refs IH]; intros s s' ids; simpl.
  - intros _ [].
  - destruct (flush_new_tags s refs) as [[s1 ids1]|] eqn:E; [|discriminate].
    intros _ [H|H]; [discriminate|]. exact (IH _ _ _ E H).
  - destruct (insert_tag s m) as [[t1 s1]|] eqn:Ei; [|discriminate].
    destruct (flush_new_tags s1 refs) as [[s2 ids2]|] eqn:E; [|discriminate].
    intros _ [[= ->]|H].
    + unfold insert_tag in Ei.
      destruct (existsb _ (tags s)) eqn:Ex; [discriminate|].
      now apply existsb_tag_name_false.
    + intros Hin. apply (IH _ _ _ E H).
      destruct (insert_tag_row _ _ _ _ Ei) as [_ ->]. rewrite map_app.
      apply in_or_app. now left.
Qed.

Lemma flush_new_tags_persistent_id s refs s' ids t :
  flush_new_tags s refs = Some (s', ids) -> In (Persistent t) refs -> In (Tag.id t) ids.
Proof.
  revert s s' ids. induction refs as [|[t0|m] refs IH]; intros s s' ids; simpl.
  - intros _ [].
  - destruct (flush_new_tags s refs) as [[s1 ids1]|] eqn:E; [|discriminate].
    intros [= <- <-] [[= ->]|H]; [now left|]. right. exact (IH _ _ _ E H).
  - destruct (insert_tag s m) as [[t1 s1]|] eqn:Ei; [|discriminate].
    destruct (flush_new_tags s1 refs) as [[s2 ids2]|] eqn:E; [|discriminate].
    intros [= <- <-] [H|H]; [discriminate|]. right. exact (IH _ _ _ E H).
Qed.

(** A flush of new tags that gives pairwise distinct ids had pairwise
    distinct members. *)
Lemma flush_new_tags_members_distinct s refs s' ids :
  flush_new_tags s refs = Some (s', ids) -> NoDup ids -> NoDup refs.
Proof.
  revert s s' ids. induction refs as [|[t0|m] refs IH]; intros s s' ids; simpl.
  - intros _ _. constructor.
  - destruct (flush_new_tags s refs) as [[s1 ids1]|] eqn:E; [|discriminate].
    intros [= <- <-] Hnd. inversion Hnd as [|? ? Hi Hnd1]; subst.
    constructor; [|exact (IH _ _ _ E Hnd1)].
    intros Hin. apply Hi. exact (flush_new_tags_persistent_id _ _ _ _ _ E Hin).
  - destruct (insert_tag s m) as [[t1 s1]|] eqn:Ei; [|discriminate].
    destruct (flush_new_tags s1 refs) as [[s2 ids2]|] eqn:E; [|discriminate].
    intros [= <- <-] Hnd. inversion Hnd as [|? ? Hi Hnd1]; subst.
    constructor; [|exact (IH _ _ _ E Hnd1)].
    intros Hin. apply (flush_new_tags_pending_fresh _ _ _ _ _ E Hin).
    destruct (insert_tag_row _ _ _ _ Ei) as [Hn ->]. rewrite map_app.
    apply in_or_app. right. left. exact Hn.
Qed.

Lemma flush_new_tags_succeeds s refs :
  NoDup refs ->
  (forall name, In (Pending name) refs -> ~ In name (map Tag.name (tags s))) ->
  exists s' ids, flush_new_tags s refs = Some (s', ids).
Proof.
  revert s. induction refs as [|[t0|m] refs IH]; intros s Hnd Hfree; simpl.
  - now exists s, [].
  - inversion Hnd as [|? ? Hr Hnd1]; subst.
    destruct (IH s Hnd1 (fun name H => Hfree name (or_intror H))) as (s1 & ids & ->).
    now exists s1, (Tag.id t0 :: ids).
  - inversion Hnd as [|? ? Hr Hnd1]; subst. unfold insert_tag.
    rewrite (existsb_value_false Tag.name _ m (Hfree m (or_introl eq_refl))).
    destruct (IH (set_tags s (tags s ++ [Tag.mk (next_rowid (map Tag.id (tags s))) m]))
                 Hnd1) as (s1 & ids & ->).
    + intros name Hin. simpl. rewrite map_app. intros H.
      apply in_app_iff in H as [H|[<-|[]]].
      * exact (Hfree name (or_intror Hin) H).
      * exact (Hr Hin).
    + now eexists _, _.
Qed.

(** The ids a flush of pairwise distinct members gives are pairwise
    distinct. *)
Lemma flush_new_tags_ids_distinct s refs s' ids :
  flush_new_tags s refs = Some (s', ids) ->
  NoDup refs -> NoDup (map Tag.id (tags s)) ->
  (forall t, In (Persistent t) refs -> In t (tags s)) ->
  NoDup ids.
Proof.
  revert s s' ids. induction refs as [|[t0|m] refs IH]; intros s s' ids; simpl.
  - intros [= <- <-] _ _ _. constructor.
  - destruct (flush_new_tags s refs) as [[s1 ids1]|] eqn:E; [|discriminate].
    intros [= <- <-] Hnd Hids Hp. inversion Hnd as [|? ? Hr Hnd1]; subst.
    assert (Hp1 : forall t, In (Persistent t) refs -> In t (tags s))
      by (intros t Ht; apply Hp; now right).
    constructor; [|exact (IH _ _ _ E Hnd1 Hids Hp1)].
    intros Hin.
    destruct (flush_new_tags_resolved _ _ _ _ E Hp1) as (ts & -> & H1 & _).
    apply in_map_iff in Hin as [t [Hid Ht]].
    destruct (H1 t Ht) as [Hs1 Href].
    destruct (flush_new_tags_rows _ _ _ _ E) as [rows Hrows].
    assert (t = t0).
    { apply (NoDup_map_inj Tag.id (tags s1)); auto.
      - exact (proj1 (flush_new_tags_ids _ _ _ _ E) Hids).
      - rewrite Hrows. apply in_or_app. left. apply Hp. now left. }
    subst t. destruct Href as [Href|Href]; [exact (Hr Href)|].
    apply (flush_new_tags_pending_fresh _ _ _ _ _ E Href).
    apply in_map. apply Hp. now left.
  - destruct (insert_tag s m) as [[t1 s1]|] eqn:Ei; [|discriminate].
    destruct (flush_new_tags s1 refs) as [[s2 ids2]|] eqn:E; [|discriminate].
    intros [= <- <-] Hnd Hids Hp. inversion Hnd as [|? ? Hr Hnd1]; subst.
    destruct (insert_tag_row _ _ _ _ Ei) as [Hn Ht1].
    assert (Hid1 : Tag.id t1 = next_rowid (map Tag.id (tags s))).
    { unfold insert_tag in Ei. destruct (existsb _ (tags s)); [discriminate|].
      now injection Ei as <- _. }
    assert (Hids1 : NoDup (map Tag.id (tags s1))).
    { rewrite Ht1, map_app. simpl. apply NoDup_snoc; [exact Hids|].
      rewrite Hid1. apply next_rowid_fresh. }
    assert (Hp1 : forall t, In (Persistent t) refs -> In t (tags s1)).
    { intros t Ht. rewrite Ht1. apply in_or_app. left. apply Hp. now right. }
    constructor; [|exact (IH _ _ _ E Hnd1 Hids1 Hp1)].
    intros Hin.
    destruct (flush_new_tags_resolved _ _ _ _ E Hp1) as (ts & -> & H1 & _).
    apply in_map_iff in Hin as [t [Hid Ht]].
    destruct (H1 t Ht) as [Hs2 Href].
    destruct (flush_new_tags_rows _ _ _ _ E) as [rows Hrows].
    assert (t = t1).
    { apply (NoDup_map_inj Tag.id (tags s2)); auto.
      - exact (proj1 (flush_new_tags_ids _ _ _ _ E) Hids1).
      - rewrite Hrows, Ht1. apply in_or_app. left. apply in_or_app. right. now left. }
    subst t. destruct Href as [Href|Href].
    + apply (next_rowid_fresh (map Tag.id (tags s))). rewrite <- Hid1.
      apply in_map. apply Hp. now right.
    + rewrite Hn in Href. exact (Hr Href).
Qed.

Lemma flush_succeeds s u s1 s2 s3 :
  dirty u = None -> deleted u = None ->
  insert_each insert_phone_number s (new_phone_numbers u) = Some s1 ->
  insert_each insert_address s1 (new_addresses u) = Some s2 ->
  flush_tags_collection s2 (tags_collection u) = Some s3 ->
  flush s u = Some s3.
Proof. unfold flush. now intros -> -> -> -> ->. Qed.

Lemma resolved_members s l : map (resolve_tag s) l = map (tag_named s) (map lower l).
Proof. now rewrite map_map. Qed.

Lemma filter_not_in_nothing ids : filter (fun i => negb (mem i (map Tag.id []))) ids = ids.
Proof. apply filter_everything. reflexivity. Qed.

Lemma appended_again_nil ids : appended_again (map Tag.id []) ids = false.
Proof. unfold appended_again. induction ids; simpl; auto. Qed.

Lemma appended_again_distinct original ids :
  NoDup ids -> appended_again original ids = false.
Proof.
  intros Hnd. unfold appended_again.
  destruct (existsb _ ids) eqn:E; [|reflexivity].
  apply existsb_exists in E as [i [_ H]]. apply andb_true_iff in H as [_ H].
  apply Z.ltb_lt in H.
  pose proof (proj1 (NoDup_count_occ Z.eq_dec ids) Hnd i). lia.
Qed.

(** A create of a store reached from the empty one whose tags are flushed
    had tag names that are pairwise distinct up to case. *)
Lemma committed_create_tags_distinct s contact c s' :
  referential_integrity s ->
  committed_create s contact = Some (c, s') ->
  NoDup (map lower (or_empty (schemas.tags contact))).
Proof.
  intros (_ & _ & R3). unfold committed_create.
  destruct (flush _ _) as [s1|] eqn:Eflush; [|discriminate].
  intros _.
  set (c0 := Contact.mk (next_rowid (map Contact.id (contacts s))) (schemas.name contact)
                        (schemas.email contact) (schemas.phone contact) None) in *.
  set (s0 := set_contacts s (contacts s ++ [c0])%list) in *.
  destruct (flush_tags_step _ _ _ Eflush eq_refl) as (s2 & _ & _ & Htags).
  cbn [tags_collection create_unit_of_work] in Htags.
  destruct (schemas.tags contact) as [[|n l]|]; [constructor| |constructor].
  change (flush_tags_collection s2
            (Some (Contact.id c0, load_tags s0 (Contact.id c0),
                   (map Persistent (load_tags s0 (Contact.id c0))
                    ++ map (resolve_tag s0) (n :: l))%list)) = Some s1) in Htags.
  rewrite (load_tags_fresh s0 (Contact.id c0)) in Htags.
  - change (map Persistent [] ++ map (resolve_tag s0) (n :: l))%list
      with (map (resolve_tag s0) (n :: l)) in Htags.
    unfold flush_tags_collection in Htags.
    destruct (flush_new_tags s2 _) as [[s3 ids]|] eqn:E; [|discriminate].
    destruct (appended_again _ _) eqn:Eagain; [discriminate|].
    apply insert_each_associations_distinct in Htags as [Hnd _].
    rewrite filter_not_in_nothing in Hnd. apply NoDup_map_inv in Hnd.
    apply (flush_new_tags_members_distinct _ _ _ _ E) in Hnd.
    rewrite resolved_members in Hnd. now apply NoDup_map_inv in Hnd.
  - intros a Ha E. destruct (R3 a Ha) as [[c1 [Hc1 Hid]] _].
    pose proof (next_rowid_above (map Contact.id (contacts s)) (Contact.id c1)
                  (in_map _ _ _ Hc1)) as Hlt.
    subst c0. simpl in E. lia.
Qed.

Lemma committed_create_succeeds s contact :
  NoDup (map Tag.id (tags s)) -> referential_integrity s ->
  (forall pd, In pd (or_empty (schemas.phone_numbers contact)) -> schemas.number pd <> "") ->
  (forall ad, In ad (or_empty (schemas.addresses contact)) -> schemas.address ad <> "") ->
  create_is_admissible s contact ->
  exists c s', committed_create s contact = Some (c, s').
Proof.
  intros Htid (_ & _ & R3) Hpne Hane (Hp & Ha & Hnp & Hna & Hnt).
  unfold committed_create. cbv zeta.
  set (c := Contact.mk (next_rowid (map Contact.id (contacts s))) (schemas.name contact)
                       (schemas.email contact) (schemas.phone contact) None).
  set (s0 := set_contacts s (contacts s ++ [c])%list).
  change (insert_contact s (schemas.name contact) (schemas.email contact)
                         (schemas.phone contact)) with (c, s0).
  cbn [fst snd].
  set (u := create_unit_of_work s0 c contact).
  assert (Hfresh : forall a, In a (contact_tag_association s) -> fst a <> Contact.id c).
  { intros a Hin E. destruct (R3 a Hin) as [[c1 [Hc1 Hid]] _].
    pose proof (next_rowid_above (map Contact.id (contacts s)) (Contact.id c1)
                  (in_map _ _ _ Hc1)) as Hlt.
    subst c. simpl in E. lia. }
  (* the phone-number rows *)
  assert (E1 : exists s1, insert_each insert_phone_number s0 (new_phone_numbers u) = Some s1).
  { apply insert_each_phone_numbers_succeeds; subst u;
      cbn [new_phone_numbers create_unit_of_work]; rewrite map_map.
    - exact Hnp.
    - intros v Hv Hin. apply in_map_iff in Hv as [pd [<- Hpd]]. cbn [snd] in Hin.
      apply (Hp (schemas.number pd)). split; [|split].
      + right. now rewrite phone_number_create_eta.
      + now apply Hpne.
      + right. apply in_map_iff in Hin as [r [Hn Hr]]. exists r.
        repeat split; auto. intros e [=]. }
  destruct E1 as [s1 E1].
  destruct (insert_each_phone_numbers _ _ _ E1) as (_ & A1 & T1 & C1 & _).
  (* the address rows *)
  assert (E2 : exists s2, insert_each insert_address s1 (new_addresses u) = Some s2).
  { apply insert_each_addresses_succeeds; subst u;
      cbn [new_addresses create_unit_of_work]; rewrite map_map.
    - exact Hna.
    - intros v Hv Hin. apply in_map_iff in Hv as [ad [<- Had]]. cbn [snd] in Hin.
      rewrite A1 in Hin.
      apply (Ha (schemas.address ad)). split; [|split].
      + now rewrite address_create_eta.
      + now apply Hane.
      + right. apply in_map_iff in Hin as [r [Hn Hr]]. exists r.
        repeat split; auto. intros e [=]. }
  destruct E2 as [s2 E2].
  destruct (insert_each_addresses _ _ _ E2) as (_ & _ & T2 & C2).
  assert (Ht2 : tags s2 = tags s) by (rewrite T2, T1; reflexivity).
  assert (Hc2 : contact_tag_association s2 = contact_tag_association s)
    by (rewrite C2, C1; reflexivity).
  (* the tags *)
  assert (E3 : exists s3, flush_tags_collection s2 (tags_collection u) = Some s3).
  { subst u. cbn [tags_collection create_unit_of_work].
    destruct (schemas.tags contact) as [[|n l]|]; try (now exists s2).
    rewrite (load_tags_fresh s0 (Contact.id c) Hfresh).
    change (map Persistent [] ++ map (resolve_tag s0) (n :: l))%list
      with (map (resolve_tag s0) (n :: l)).
    assert (Hrefs : NoDup (map (resolve_tag s0) (n :: l))).
    { rewrite resolved_members. apply nodup_map_injective; [|exact Hnt].
      intros x y _ _. apply tag_named_injective. }
    assert (Hper : forall t, In (Persistent t) (map (resolve_tag s0) (n :: l)) ->
                             In t (tags s2)).
    { intros t Ht. rewrite Ht2. apply in_map_iff in Ht as [m [Hr _]].
      now apply resolve_tag_persistent in Hr. }
    destruct (flush_new_tags_succeeds s2 (map (resolve_tag s0) (n :: l)) Hrefs)
      as (s3 & ids & E).
    { intros name Hin. rewrite Ht2. apply in_map_iff in Hin as [m [Hr _]].
      rewrite resolve_tag_is_tag_named in Hr.
      now apply tag_named_pending in Hr as [-> Hr]. }
    unfold flush_tags_collection. rewrite E, appended_again_nil, filter_not_in_nothing.
    apply insert_each_associations_succeeds.
    - apply nodup_map_injective; [now intros x y _ _ [=]|].
      apply (flush_new_tags_ids_distinct _ _ _ _ E Hrefs); [now rewrite Ht2|exact Hper].
    - intros a Hin Hold. apply in_map_iff in Hin as [i [<- _]].
      cbn [contact_tag_association set_association] in Hold.
      apply filter_In in Hold as [Hold _].
      destruct (flush_new_tags_frame _ _ _ _ E) as (_ & _ & _ & C3).
      rewrite C3, Hc2 in Hold. now apply (Hfresh _ Hold). }
  destruct E3 as [s3 E3].
  exists c, s3. now rewrite (flush_succeeds s0 u s1 s2 s3 eq_refl eq_refl E1 E2 E3).
Qed.

(** X24: in a store reached from the empty one, a create whose phone
    numbers and addresses are not empty and whose tag names are ASCII
    returns a contact, having committed, exactly when no phone value and no
    address of the request is held already and its numbers, its addresses
    and, up to case, its tag names are pairwise distinct; otherwise it
    raises. *)
Theorem create_is_carried_out_exactly_when_admissible :
  forall (s : Store) (contact : schemas.ContactCreate),
    reachable s ->
    (forall pd, In pd (or_empty (schemas.phone_numbers contact)) ->
                schemas.number pd <> "") ->
    (forall ad, In ad (or_empty (schemas.addresses contact)) ->
                schemas.address ad <> "") ->
    (forall n, In n (or_empty (schemas.tags contact)) -> is_ascii n = true) ->
    ((exists created s',
         crud.create_contact contact (SessionLocal s) = (Ok created, mkSession s' s'))
     <-> (forall v, ~ create_phone_conflict s contact v)
         /\ (forall v, ~ create_address_conflict s contact v)
         /\ NoDup (map schemas.number (or_empty (schemas.phone_numbers contact)))
         /\ NoDup (map schemas.address (or_empty (schemas.addresses contact)))
         /\ NoDup (map lower (or_empty (schemas.tags contact)))).
Proof.
  intros s contact Hs Hpne Hane _.
  destruct (reachable_primary_keys _ Hs) as (_ & _ & _ & _ & Htid & _).
  pose proof (reachable_referential_integrity _ Hs) as Href.
  destruct (create_contact_cases (SessionLocal s) contact)
    as [[v [[H Hconf]|[H Hconf]]]|(Hp & Ha & H)]; rewrite H; cbn [txn SessionLocal] in *.
  - split.
    + intros (created & s' & E). discriminate E.
    + intros (Hp & _). elim (Hp v Hconf).
  - split.
    + intros (created & s' & E). discriminate E.
    + intros (_ & Ha & _). elim (Ha v Hconf).
  - split.
    + intros (created & s' & E).
      destruct (committed_create s contact) as [[c s1]|] eqn:Ec; [|discriminate E].
      split; [exact Hp|]. split; [exact Ha|].
      pose proof (committed_create_tags_distinct _ _ _ _ Href Ec) as Ht.
      unfold committed_create in Ec.
      destruct (flush _ _) as [s2|] eqn:Eflush; [|discriminate].
      apply flush_new_rows_distinct in Eflush as [H1 H2].
      cbn [new_phone_numbers new_addresses create_unit_of_work] in H1, H2.
      rewrite map_map in H1, H2. auto.
    + intros Hadm.
      destruct (committed_create_succeeds s contact Htid Href Hpne Hane Hadm)
        as (c & s1 & ->).
      now exists (joinedload s1 c), s1.
Qed.

Lemma create_is_carried_out_exactly_when_admissible_witness :
  (exists created s',
      crud.create_contact cara (SessionLocal ann_with_friend)
      = (Ok created, mkSession s' s'))
  <-> (forall v, ~ create_phone_conflict ann_with_friend cara v)
      /\ (forall v, ~ create_address_conflict ann_with_friend cara v)
      /\ NoDup (map schemas.number (or_empty (schemas.phone_numbers cara)))
      /\ NoDup (map schemas.address (or_empty (schemas.addresses cara)))
      /\ NoDup (map lower (or_empty (schemas.tags cara))).
Proof.
  apply (create_is_carried_out_exactly_when_admissible ann_with_friend cara
           reachable_ann_with_friend).
  - intros pd [<-|[<-|[]]]; discriminate.
  - intros ad [<-|[]]; discriminate.
  - intros n [<-|[<-|[]]]; reflexivity.
Defined.

(** ** What a delete sets free *)

(** X25: in a store reached from the empty one, deleting a contact sets
    its values free: after the delete, the phone check finds no holder for
    any non-empty phone value the contact held, as its phone or in a
    phone-number row, and the address check finds none for any of its
    addresses. *)
Theorem delete_frees_the_values_of_the_contact :
  forall (s : Store) (contact_id : Z) (s' : Store),
    reachable s ->
    main.delete_contact contact_id s = (main.Reply 204 tt, s') ->
    (forall v, v <> "" -> holds_phone s v contact_id ->
       crud.check_phone_number_exists (Some v) None (SessionLocal s')
       = (Ok false, SessionLocal s'))
    /\ (forall r, In r (addresses s) -> Address.contact_id r = contact_id ->
          crud.check_address_exists (Some (Address.address r)) None (SessionLocal s')
          = (Ok false, SessionLocal s')).
Proof.
  intros s contact_id s' Hs Hrun.
  destruct (reachable_phone_invariant s Hs) as (_ & _ & Huniq).
  destruct (reachable_address_invariant s Hs) as [A1 A2].
  assert (Hdel : exists c, In c (contacts s) /\ Contact.id c = contact_id
                           /\ s' = delete_cascade s (joinedload s c)).
  { revert Hrun.
    unfold main.delete_contact, main.get_db, crud.delete_contact, crud.get_contact.
    rewrite bind_query. unfold SessionLocal. cbn [txn].
    destruct (first (filter (fun c => Contact.id c =? contact_id) (contacts s)))
      as [c|] eqn:Eget; [|discriminate].
    apply first_filter_some in Eget as [Hin Hid]. apply Z.eqb_eq in Hid.
    intros [= <-]. now exists c. }
  destruct Hdel as (c & Hin & Hid & ->). split.
  - intros v Hne Hheld. rewrite check_phone_number_exists_run. f_equal. f_equal.
    cbn [txn SessionLocal effective_exclusion].
    destruct (phone_existsb _ (Some v) None) eqn:E; [exfalso|reflexivity].
    apply phone_existsb_iff in E as (p & [= <-] & _ & Hcl).
    unfold delete_cascade in Hcl. cbn [joinedload Contact.row] in Hcl. rewrite Hid in Hcl.
    destruct Hcl as [(c1 & H1 & H2 & _)|(r & H1 & H2 & _)].
    + cbn [contacts] in H1. apply filter_In in H1 as [H1 Hneq].
      apply negb_true_iff, Z.eqb_neq in Hneq. apply Hneq.
      apply (Huniq v Hne); [left; now exists c1|exact Hheld].
    + cbn [phone_numbers] in H1. apply filter_In in H1 as [H1 Hneq].
      apply negb_true_iff, Z.eqb_neq in Hneq. apply Hneq.
      apply (Huniq v Hne); [right; now exists r|exact Hheld].
  - intros r Hr Hown. rewrite check_address_exists_run. f_equal. f_equal.
    cbn [txn SessionLocal effective_exclusion].
    destruct (address_existsb _ (Some (Address.address r)) None) eqn:E;
      [exfalso|reflexivity].
    apply address_existsb_iff in E as (p & [= <-] & _ & Hcl).
    unfold delete_cascade in Hcl. cbn [joinedload Contact.row] in Hcl. rewrite Hid in Hcl.
    destruct Hcl as [(c1 & H1 & H2 & _)|(r1 & H1 & H2 & _)].
    + cbn [contacts] in H1. apply filter_In in H1 as [H1 _].
      rewrite (A1 c1 H1) in H2. discriminate.
    + cbn [addresses] in H1. apply filter_In in H1 as [H1 Hneq].
      apply negb_true_iff, Z.eqb_neq in Hneq. apply Hneq.
      now rewrite (NoDup_map_inj Address.address _ _ _ A2 H1 Hr H2).
Qed.

Lemma delete_frees_the_values_of_the_contact_witness :
  crud.check_phone_number_exists
    (Some "1") None
    (SessionLocal (snd (main.delete_contact
                          1 (snd (main.create_contact ann_twice empty_store)))))
  = (Ok false,
     SessionLocal (snd (main.delete_contact
                          1 (snd (main.create_contact ann_twice empty_store))))).
Proof.
  apply (proj1 (delete_frees_the_values_of_the_contact
                  (snd (main.create_contact ann_twice empty_store)) 1
                  (snd (main.delete_contact
                          1 (snd (main.create_contact ann_twice empty_store))))
                  reachable_after_ann_twice eq_refl) "1").
  - discriminate.
  - left. exists (Contact.mk 1 "Ann" None (Some "1") None).
    split; [left; reflexivity|]. split; reflexivity.
Defined.

(** ** When an update is carried out *)

Lemma find_nothing {A} (f : A -> bool) l :
  (forall x, In x l -> f x = false) -> find f l = None.
Proof.
  intros H. destruct (find f l) as [x|] eqn:E; [|reflexivity].
  apply find_some in E as [Hin Hx]. now rewrite (H x Hin) in Hx.
Qed.

(** An update whose checks all pass runs into its commit. *)
Lemma update_contact_runs db contact_id contact_update c :
  first (filter (fun c => Contact.id c =? contact_id) (contacts (txn db))) = Some c ->
  (forall v, schemas.u_phone contact_update = Some v ->
             phone_existsb (txn db) (Some v) (effective_exclusion (Some contact_id))
             = false) ->
  (forall l pd, schemas.u_phone_numbers contact_update = Some l -> In pd l ->
             phone_existsb (txn db) (Some (schemas.number pd))
                           (effective_exclusion (Some contact_id)) = false) ->
  (forall l ad, schemas.u_addresses contact_update = Some l -> In ad l ->
             address_existsb (txn db) (Some (schemas.address ad))
                             (effective_exclusion (Some contact_id)) = false) ->
  crud.update_contact contact_id contact_update db
  = match committed_update (txn db) c contact_id contact_update with
    | Some s' =>
        (Ok (Some (joinedload s' (updated_row c contact_update))), mkSession s' s')
    | None => (Raise IntegrityError, mkSession (committed db) (committed db))
    end.
Proof.
  intros Eget Hfree1 Hfree2 Hfree3.
  destruct (update_contact_cases db contact_id contact_update c Eget)
    as [(v & db' & Hraise & _)|(_ & _ & _ & H)]; [exfalso|exact H].
  revert Hraise. unfold crud.update_contact, crud.get_contact.
  rewrite bind_query, Eget. cbn [option_map]. cbv iota.
  change (Contact.row (joinedload (txn db) c)) with c.
  change (Contact.tags (joinedload (txn db) c)) with (load_tags (txn db) (Contact.id c)).
  (* the scalar phone *)
  match goal with
  | |- (bind ?m ?k db = _ \/ _) -> _ => set (step := m); set (rest := k)
  end.
  assert (Hrun : step db = (Ok (updated_row c contact_update), db)).
  { subst step. unfold updated_row. destruct (schemas.u_phone contact_update) as [p|];
      [|reflexivity].
    unfold bind. now rewrite check_phone_number_exists_run, (Hfree1 p eq_refl). }
  rewrite (bind_ok _ _ _ _ _ Hrun). subst rest. cbv beta. clear step Hrun.
  (* the phone-number list *)
  match goal with
  | |- (bind ?m ?k db = _ \/ _) -> _ => set (step := m); set (rest := k)
  end.
  assert (Hrun : exists db1,
             step db
             = (Ok (new_phone_numbers
                      (update_unit_of_work (txn db) c contact_id contact_update)), db1)
             /\ committed db1 = committed db
             /\ txn db1 = match schemas.u_phone_numbers contact_update with
                          | Some _ => delete_phone_numbers_of (txn db) contact_id
                          | None => txn db
                          end).
  { subst step. cbn [update_unit_of_work new_phone_numbers].
    destruct (schemas.u_phone_numbers contact_update) as [l|].
    - pose proof (for_each_guard
                 (fun pd => crud.check_phone_number_exists (Some (schemas.number pd))
                                                           (Some contact_id))
                 (fun pd => crud.phone_message (schemas.number pd))
                 (fun pd => phone_existsb (txn db) (Some (schemas.number pd))
                                          (effective_exclusion (Some contact_id)))
                 db l (fun pd => check_phone_number_exists_run _ _ _)) as Hfe.
      rewrite (find_nothing _ l (fun pd Hin => Hfree2 l pd eq_refl Hin)) in Hfe.
      eexists. rewrite (bind_ok _ _ _ _ _ Hfe).
      split; [reflexivity|]. split; reflexivity.
    - eexists. split; [reflexivity|]. split; reflexivity. }
  destruct Hrun as [db1 [Hrun [Hcom1 Htxn1]]].
  rewrite (bind_ok _ _ _ _ _ Hrun). subst rest. cbv beta. clear step Hrun.
  assert (Hcon : contacts (txn db1) = contacts (txn db))
    by (rewrite Htxn1; now destruct (schemas.u_phone_numbers contact_update)).
  assert (Hadr : addresses (txn db1) = addresses (txn db))
    by (rewrite Htxn1; now destruct (schemas.u_phone_numbers contact_update)).
  (* the address list *)
  match goal with
  | |- (bind ?m ?k db1 = _ \/ _) -> _ => set (step := m); set (rest := k)
  end.
  assert (Hrun : exists a db2, step db1 = (Ok a, db2)).
  { subst step. destruct (schemas.u_addresses contact_update) as [l|].
    - assert (Hchk : forall ad,
                 crud.check_address_exists (Some (schemas.address ad)) (Some contact_id) db1
                 = (Ok (address_existsb (txn db) (Some (schemas.address ad))
                                        (effective_exclusion (Some contact_id))), db1)).
      { intros ad. rewrite check_address_exists_run.
        now rewrite (address_existsb_ext _ _ _ _ Hcon Hadr). }
      pose proof (for_each_guard
                 (fun ad => crud.check_address_exists (Some (schemas.address ad))
                                                      (Some contact_id))
                 (fun ad => crud.address_message (schemas.address ad))
                 _ db1 l Hchk) as Hfe.
      rewrite (find_nothing _ l (fun ad Hin => Hfree3 l ad eq_refl Hin)) in Hfe.
      eexists _, _. rewrite (bind_ok _ _ _ _ _ Hfe). reflexivity.
    - eexists _, _. reflexivity. }
  destruct Hrun as (a & db2 & Hrun).
  rewrite (bind_ok _ _ _ _ _ Hrun). subst rest. cbv beta. clear step Hrun.
  (* the tags and the commit raise no [ValueError] *)
  destruct (schemas.u_tags contact_update) as [l|].
  - unfold bind, ret, commit, query. rewrite append_tags_run.
    destruct (flush _ _); intros [H|H]; discriminate H.
  - unfold bind, ret, commit, query.
    destruct (flush _ _); intros [H|H]; discriminate H.
Qed.

Lemma flush_runs s u s1 s2 s3 :
  deleted u = None ->
  insert_each insert_phone_number
    (match dirty u with Some c => update_contact_row s c | None => s end)
    (new_phone_numbers u) = Some s1 ->
  insert_each insert_address s1 (new_addresses u) = Some s2 ->
  flush_tags_collection s2 (tags_collection u) = Some s3 ->
  flush s u = Some s3.
Proof. unfold flush. now intros -> -> -> ->. Qed.

Lemma committed_update_succeeds s c contact_id u :
  NoDup (map Tag.id (tags s)) -> referential_integrity s ->
  Contact.id c = contact_id ->
  (forall l pd, schemas.u_phone_numbers u = Some l -> In pd l ->
     ~ In (schemas.number pd)
          (map PhoneNumber.number
               (filter (fun p => negb (PhoneNumber.contact_id p =? contact_id))
                       (phone_numbers s)))) ->
  (forall l ad, schemas.u_addresses u = Some l -> In ad l ->
     ~ In (schemas.address ad)
          (map Address.address
               (filter (fun a => negb (Address.contact_id a =? contact_id))
                       (addresses s)))) ->
  NoDup (map schemas.number (or_empty (schemas.u_phone_numbers u))) ->
  NoDup (map schemas.address (or_empty (schemas.u_addresses u))) ->
  NoDup (map lower (or_empty (schemas.u_tags u))) ->
  exists s', committed_update s c contact_id u = Some s'.
Proof.
  intros Htid (_ & _ & R3) Hid Hp Ha Hnp Hna Hnt. unfold committed_update.
  set (st := update_statements s contact_id u).
  set (u0 := update_unit_of_work s c contact_id u).
  set (s0 := match dirty u0 with Some c => update_contact_row st c | None => st end).
  assert (P0 : phone_numbers s0 = phone_numbers st) by reflexivity.
  assert (A0 : addresses s0 = addresses st) by reflexivity.
  assert (T0 : tags s0 = tags s) by (subst s0 st; apply update_statements_tags).
  assert (C0 : contact_tag_association s0 = contact_tag_association s)
    by (subst s0 st; apply update_statements_associations).
  (* the phone-number rows *)
  assert (E1 : exists s1, insert_each insert_phone_number s0 (new_phone_numbers u0) = Some s1).
  { subst u0. cbn [new_phone_numbers update_unit_of_work].
    destruct (schemas.u_phone_numbers u) as [l|] eqn:El; [|now exists s0].
    apply insert_each_phone_numbers_succeeds; rewrite map_map.
    - exact Hnp.
    - intros v Hv Hin. apply in_map_iff in Hv as [pd [<- Hpd]]. cbn [snd] in Hin.
      rewrite P0 in Hin. subst st. rewrite update_statements_phone_numbers, El in Hin.
      exact (Hp l pd eq_refl Hpd Hin). }
  destruct E1 as [s1 E1].
  destruct (insert_each_phone_numbers _ _ _ E1) as (_ & A1 & T1 & C1 & _).
  (* the address rows *)
  assert (E2 : exists s2, insert_each insert_address s1 (new_addresses u0) = Some s2).
  { subst u0. cbn [new_addresses update_unit_of_work].
    destruct (schemas.u_addresses u) as [l|] eqn:El; [|now exists s1].
    apply insert_each_addresses_succeeds; rewrite map_map.
    - exact Hna.
    - intros v Hv Hin. apply in_map_iff in Hv as [ad [<- Had]]. cbn [snd] in Hin.
      rewrite A1, A0 in Hin. subst st. rewrite update_statements_addresses, El in Hin.
      exact (Ha l ad eq_refl Had Hin). }
  destruct E2 as [s2 E2].
  destruct (insert_each_addresses _ _ _ E2) as (_ & _ & T2 & C2).
  assert (Ht2 : tags s2 = tags s) by (rewrite T2, T1; exact T0).
  assert (Hc2 : contact_tag_association s2 = contact_tag_association s)
    by (rewrite C2, C1; exact C0).
  (* the tags *)
  assert (E3 : exists s3, flush_tags_collection s2 (tags_collection u0) = Some s3).
  { subst u0. cbn [tags_collection update_unit_of_work].
    destruct (schemas.u_tags u) as [l|]; [|now exists s2].
    cbn [or_empty] in Hnt. rewrite Hid.
    assert (Hrefs : NoDup (map (resolve_tag s) l)).
    { rewrite resolved_members. apply nodup_map_injective; [|exact Hnt].
      intros x y _ _. apply tag_named_injective. }
    assert (Hper : forall t, In (Persistent t) (map (resolve_tag s) l) -> In t (tags s2)).
    { intros t Ht. rewrite Ht2. apply in_map_iff in Ht as [m [Hr _]].
      now apply resolve_tag_persistent in Hr. }
    destruct (flush_new_tags_succeeds s2 (map (resolve_tag s) l) Hrefs) as (s3 & ids & E).
    { intros name Hin. rewrite Ht2. apply in_map_iff in Hin as [m [Hr _]].
      rewrite resolve_tag_is_tag_named in Hr.
      now apply tag_named_pending in Hr as [-> Hr]. }
    unfold flush_tags_collection. rewrite E.
    rewrite appended_again_distinct
      by (apply (flush_new_tags_ids_distinct _ _ _ _ E Hrefs);
          [now rewrite Ht2|exact Hper]).
    apply insert_each_associations_succeeds.
    - apply nodup_map_injective; [now intros x y _ _ [=]|]. apply NoDup_filter.
      apply (flush_new_tags_ids_distinct _ _ _ _ E Hrefs); [now rewrite Ht2|exact Hper].
    - intros a Hin Hold. apply in_map_iff in Hin as [i [<- Hi]].
      apply filter_In in Hi as [_ Hi]. apply negb_true_iff in Hi.
      cbn [contact_tag_association set_association] in Hold.
      apply filter_In in Hold as [Hold _].
      destruct (flush_new_tags_frame _ _ _ _ E) as (_ & _ & _ & C3).
      rewrite C3, Hc2 in Hold.
      destruct (R3 _ Hold) as [_ [t [Ht Htid']]]. cbn [snd] in Htid'.
      assert (Hmem : mem i (map Tag.id (load_tags s contact_id)) = true).
      { apply mem_in. rewrite <- Htid'. apply in_map. apply load_tags_iff.
        split; [exact Ht|]. now rewrite Htid'. }
      congruence. }
  destruct E3 as [s3 E3].
  exists s3. exact (flush_runs st u0 s1 s2 s3 eq_refl E1 E2 E3).
Qed.

(** X26: in a store reached from the empty one, an update of an existing
    contact whose phone numbers and addresses are not empty and whose tag
    names are ASCII and pairwise distinct up to case returns the contact,
    having committed, exactly when no phone value and no address it
    supplies is held by another contact and the numbers of its list, and
    the addresses of its list, are pairwise distinct; otherwise it
    raises. *)
Theorem update_is_carried_out_exactly_when_admissible :
  forall (s : Store) (contact_id : Z) (contact_update : schemas.ContactUpdate),
    reachable s ->
    (exists c, In c (contacts s) /\ Contact.id c = contact_id) ->
    (forall pd, In pd (or_empty (schemas.u_phone_numbers contact_update)) ->
                schemas.number pd <> "") ->
    (forall ad, In ad (or_empty (schemas.u_addresses contact_update)) ->
                schemas.address ad <> "") ->
    (forall n, In n (or_empty (schemas.u_tags contact_update)) -> is_ascii n = true) ->
    NoDup (map lower (or_empty (schemas.u_tags contact_update))) ->
    ((exists updated s',
         crud.update_contact contact_id contact_update (SessionLocal s)
         = (Ok (Some updated), mkSession s' s'))
     <-> (forall v, ~ update_phone_conflict s contact_id contact_update v)
         /\ (forall v, ~ update_address_conflict s contact_id contact_update v)
         /\ NoDup (map schemas.number (or_empty (schemas.u_phone_numbers contact_update)))
         /\ NoDup (map schemas.address (or_empty (schemas.u_addresses contact_update)))).
Proof.
  intros s contact_id u Hs Hex Hpne Hane _ Hnt.
  destruct (reachable_primary_keys _ Hs) as (_ & Hpos & _ & _ & Htid & _).
  pose proof (reachable_referential_integrity _ Hs) as Href.
  pose proof (reachable_address_invariant _ Hs) as Hadr.
  split.
  - intros (updated & s' & Hrun). split; [|split].
    + intros v Hconf.
      destruct (update_contact_conflict (SessionLocal s) contact_id u Hex
                  (or_introl (ex_intro _ v Hconf))) as (w & db' & [H|H] & _);
        rewrite H in Hrun; discriminate Hrun.
    + intros v Hconf.
      destruct (update_contact_conflict (SessionLocal s) contact_id u Hex
                  (or_intror (ex_intro _ v Hconf))) as (w & db' & [H|H] & _);
        rewrite H in Hrun; discriminate Hrun.
    + apply update_contact_ok in Hrun as (c & s1 & _ & Hc & _ & _).
      cbn [txn SessionLocal] in Hc. unfold committed_update in Hc.
      apply flush_new_rows_distinct in Hc as [H1 H2].
      cbn [new_phone_numbers new_addresses update_unit_of_work] in H1, H2.
      split.
      * destruct (schemas.u_phone_numbers u); [|constructor].
        now rewrite map_map in H1.
      * destruct (schemas.u_addresses u); [|constructor].
        now rewrite map_map in H2.
  - intros (Hp & Ha & Hnp & Hna).
    destruct Hex as (c0 & Hc0 & Hid0).
    destruct (first (filter (fun c => Contact.id c =? contact_id) (contacts s)))
      as [c|] eqn:Eget.
    2:{ pose proof (first_filter_none _ _ Eget c0 Hc0) as H. simpl in H.
        apply Z.eqb_neq in H. contradiction. }
    pose proof (first_filter_some _ _ _ Eget) as [Hin Hid]. apply Z.eqb_eq in Hid.
    assert (Hfree : forall v,
               (schemas.u_phone u = Some v
                \/ exists l, schemas.u_phone_numbers u = Some l
                             /\ In (schemas.mkPhoneNumberCreate v) l) ->
               phone_existsb s (Some v) (effective_exclusion (Some contact_id)) = false).
    { intros v Hv.
      destruct (phone_existsb s (Some v) (effective_exclusion (Some contact_id))) eqn:E;
        [exfalso|reflexivity].
      apply phone_existsb_iff in E as (p & [= <-] & Hne & Hcl).
      apply (phone_claimed_on_positive_ids s v contact_id Hpos Href) in Hcl.
      apply (Hp v). split; [exact Hv|]. split; assumption. }
    assert (Hfree3 : forall l ad, schemas.u_addresses u = Some l -> In ad l ->
               address_existsb s (Some (schemas.address ad))
                               (effective_exclusion (Some contact_id)) = false).
    { intros l ad Hl Had.
      destruct (address_existsb s _ (effective_exclusion (Some contact_id))) eqn:E;
        [exfalso|reflexivity].
      apply address_existsb_iff in E as (p & [= <-] & Hne & Hcl).
      apply (address_claimed_on_reachable s _ contact_id Hpos Href Hadr) in Hcl
        as (r & H1 & H2 & H3).
      apply (Ha (schemas.address ad)). split; [|split; [exact Hne|]].
      - exists l. split; [exact Hl|]. now rewrite address_create_eta.
      - right. exists r. repeat split; auto. now intros e [= <-]. }
    destruct (committed_update_succeeds s c contact_id u Htid Href Hid) as [s' Hc];
      auto.
    + intros l pd Hl Hpd Hrow. apply in_map_iff in Hrow as [r [Hn Hr]].
      apply filter_In in Hr as [Hr Hown]. apply negb_true_iff, Z.eqb_neq in Hown.
      apply (Hp (schemas.number pd)). split; [|split].
      * right. exists l. split; [exact Hl|]. now rewrite phone_number_create_eta.
      * apply Hpne. now rewrite Hl.
      * right. exists r. repeat split; auto. now intros e [= <-].
    + intros l ad Hl Had Hrow. apply in_map_iff in Hrow as [r [Hn Hr]].
      apply filter_In in Hr as [Hr Hown]. apply negb_true_iff, Z.eqb_neq in Hown.
      apply (Ha (schemas.address ad)). split; [|split].
      * exists l. split; [exact Hl|]. now rewrite address_create_eta.
      * apply Hane. now rewrite Hl.
      * right. exists r. repeat split; auto. now intros e [= <-].
    + exists (joinedload s' (updated_row c u)), s'.
      rewrite (update_contact_runs (SessionLocal s) contact_id u c Eget).
      * cbn [txn SessionLocal]. now rewrite Hc.
      * intros v Hv. apply Hfree. now left.
      * intros l pd Hl Hpd. apply Hfree. right. exists l. split; [exact Hl|].
        now rewrite phone_number_create_eta.
      * exact Hfree3.
Qed.

Lemma update_is_carried_out_exactly_when_admissible_witness :
  (exists updated s',
      crud.update_contact 1 renumber_and_retag (SessionLocal ann_with_friend)
      = (Ok (Some updated), mkSession s' s'))
  <-> (forall v, ~ update_phone_conflict ann_with_friend 1 renumber_and_retag v)
      /\ (forall v, ~ update_address_conflict ann_with_friend 1 renumber_and_retag v)
      /\ NoDup (map schemas.number
                    (or_empty (schemas.u_phone_numbers renumber_and_retag)))
      /\ NoDup (map schemas.address
                    (or_empty (schemas.u_addresses renumber_and_retag))).
Proof.
  apply (update_is_carried_out_exactly_when_admissible ann_with_friend 1
           renumber_and_retag reachable_ann_with_friend).
  - exists (Contact.mk 1 "Ann" None None None). split; [left; reflexivity|reflexivity].
  - intros pd [<-|[<-|[]]]; discriminate.
  - intros ad [].
  - intros n [<-|[<-|[]]]; reflexivity.
  - apply NoDup_cons; [intros [H|[]]; discriminate H|].
    apply NoDup_cons; [intros []|apply NoDup_nil].
Defined.

(** ** Reading one contact *)

Lemma first_with_id (c : Contact.t) l :
  NoDup (map Contact.id l) -> In c l ->
  first (filter (fun r => Contact.id r =? Contact.id c) l) = Some c.
Proof.
  induction l as [|x l IH]; simpl; [intros _ []|].
  intros Hnd Hin. inversion Hnd as [|? ? Hx Hnd']; subst.
  destruct Hin as [->|Hin].
  - now rewrite Z.eqb_refl.
  - destruct (Contact.id x =? Contact.id c) eqn:E; [|now apply IH].
    apply Z.eqb_eq in E. elim Hx. rewrite E. now apply in_map.
Qed.

(** X27: on a contact table with distinct ids, a read of one contact by
    an id within SQLite's integers leaves the session as it is and returns
    the contact of that id, with its phone-number rows, its address rows
    and, in some order, its tags, or nothing when no contact has the id;
    one of the two is the case. *)
Theorem get_contact_finds_the_contact_or_nothing :
  forall (db : Session) (contact_id : Z),
    sqlite_integer contact_id ->
    NoDup (map Contact.id (contacts (txn db))) ->
    (forall c, In c (contacts (txn db)) -> Contact.id c = contact_id ->
       exists found,
         crud.get_contact contact_id db = (Ok (Some found), db)
         /\ Contact.row found = c
         /\ Contact.phone_numbers found
            = filter (fun p => PhoneNumber.contact_id p =? contact_id)
                     (phone_numbers (txn db))
         /\ Contact.addresses found
            = filter (fun a => Address.contact_id a =? contact_id) (addresses (txn db))
         /\ forall t, In t (Contact.tags found)
                      <-> In t (tags (txn db))
                          /\ In (contact_id, Tag.id t) (contact_tag_association (txn db)))
    /\ ((forall c, In c (contacts (txn db)) -> Contact.id c <> contact_id) ->
        crud.get_contact contact_id db = (Ok None, db))
    /\ ((exists c, In c (contacts (txn db)) /\ Contact.id c = contact_id)
        \/ forall c, In c (contacts (txn db)) -> Contact.id c <> contact_id).
Proof.
  intros db contact_id _ Hnd. split; [|split].
  - intros c Hin <-. exists (joinedload (txn db) c).
    unfold crud.get_contact, query. rewrite (first_with_id c _ Hnd Hin).
    split; [reflexivity|]. split; [reflexivity|]. split; [reflexivity|].
    split; [reflexivity|]. intros t. apply load_tags_iff.
  - intros Hnone. unfold crud.get_contact, query.
    rewrite filter_nothing; [reflexivity|].
    intros c Hc. apply Z.eqb_neq. now apply Hnone.
  - destruct (first (filter (fun c => Contact.id c =? contact_id) (contacts (txn db))))
      as [c|] eqn:E.
    + left. exists c. apply first_filter_some in E as [H1 H2].
      apply Z.eqb_eq in H2. now split.
    + right. intros c Hc. pose proof (first_filter_none _ _ E c Hc) as H.
      simpl in H. now apply Z.eqb_neq.
Qed.

Lemma get_contact_finds_the_contact_or_nothing_witness :
  (exists found,
      crud.get_contact 2 (SessionLocal john_and_jane)
      = (Ok (Some found), SessionLocal john_and_jane)
      /\ Contact.row found = Contact.mk 2 "Jane" None (Some "9876543210") None)
  /\ crud.get_contact 7 (SessionLocal john_and_jane)
     = (Ok None, SessionLocal john_and_jane).
Proof.
  assert (Hnd : NoDup (map Contact.id (contacts (txn (SessionLocal john_and_jane))))).
  { apply NoDup_cons; [intros [H|[]]; discriminate H|].
    apply NoDup_cons; [intros []|apply NoDup_nil]. }
  destruct (get_contact_finds_the_contact_or_nothing (SessionLocal john_and_jane) 2
              ltac:(unfold sqlite_integer; lia) Hnd) as (H1 & _).
  destruct (get_contact_finds_the_contact_or_nothing (SessionLocal john_and_jane) 7
              ltac:(unfold sqlite_integer; lia) Hnd) as (_ & H2 & _).
  split.
  - destruct (H1 (Contact.mk 2 "Jane" None (Some "9876543210") None))
      as (found & Hrun & Hrow & _); [right; left; reflexivity|reflexivity|].
    exists found. split; [exact Hrun|exact Hrow].
  - apply H2. intros c [<-|[<-|[]]]; discriminate.
Defined.

(** ** Errors and their answers *)

(** X28: with ids within SQLite's integers, an error that a create or an
    update raises is answered with 422, an update of an id that no contact
    has with 400, and a delete of such an id with 404; in each of these
    cases the store after the request is the store from before. *)
Theorem raised_errors_are_answered_without_a_change :
  forall (s : Store),
    (forall contact e db',
        crud.create_contact contact (SessionLocal s) = (Raise e, db') ->
        exists detail,
          main.create_contact contact s = (main.HTTPException 422 detail, s))
    /\ (forall contact_id contact_update e db',
        sqlite_integer contact_id ->
        crud.update_contact contact_id contact_update (SessionLocal s) = (Raise e, db') ->
        exists detail,
          main.update_contact contact_id contact_update s
          = (main.HTTPException 422 detail, s))
    /\ (forall contact_id contact_update,
        sqlite_integer contact_id ->
        (forall c, In c (contacts s) -> Contact.id c <> contact_id) ->
        exists detail,
          main.update_contact contact_id contact_update s
          = (main.HTTPException 400 detail, s))
    /\ (forall contact_id,
        sqlite_integer contact_id ->
        (forall c, In c (contacts s) -> Contact.id c <> contact_id) ->
        main.delete_contact contact_id s
        = (main.HTTPException 404 "Contact not found", s)).
Proof.
  intros s. split; [|split; [|split]].
  - intros contact e db'. unfold main.create_contact, main.get_db.
    destruct (create_contact_cases (SessionLocal s) contact)
      as [[v [[H _]|[H _]]]|(_ & _ & H)]; rewrite H.
    + intros _. exists (crud.phone_message v). unfold main.handle_exception.
      now rewrite phone_message_is_conflict.
    + intros _. exists (crud.address_message v). unfold main.handle_exception.
      now rewrite address_message_is_conflict.
    + unfold SessionLocal. cbn [txn committed].
      destruct (committed_create s contact) as [[c s1]|]; [discriminate|].
      intros _. eexists. reflexivity.
  - intros contact_id contact_update e db' _. unfold main.update_contact, main.get_db.
    destruct (first (filter (fun c => Contact.id c =? contact_id) (contacts s)))
      as [c|] eqn:Eget.
    + destruct (update_contact_cases (SessionLocal s) contact_id contact_update c Eget)
        as [[v [db1 [[H|H] Hcom]]]|(_ & _ & _ & H)]; rewrite H.
      * intros _. exists (crud.phone_message v). unfold main.handle_exception, close.
        rewrite phone_message_is_conflict, Hcom. reflexivity.
      * intros _. exists (crud.address_message v). unfold main.handle_exception, close.
        rewrite address_message_is_conflict, Hcom. reflexivity.
      * unfold SessionLocal. cbn [txn committed].
        destruct (committed_update s c contact_id contact_update) as [s1|];
          [discriminate|].
        intros _. eexists. reflexivity.
    + unfold crud.update_contact, crud.get_contact. rewrite bind_query.
      unfold SessionLocal. cbn [txn]. rewrite Eget. discriminate.
  - intros contact_id contact_update _ Hnone.
    unfold main.update_contact, main.get_db, crud.update_contact, crud.get_contact.
    rewrite bind_query. unfold SessionLocal. cbn [txn].
    rewrite filter_nothing by (intros c Hc; apply Z.eqb_neq; now apply Hnone).
    eexists. reflexivity.
  - intros contact_id _ Hnone.
    unfold main.delete_contact, main.get_db, crud.delete_contact, crud.get_contact.
    rewrite bind_query. unfold SessionLocal. cbn [txn].
    rewrite filter_nothing by (intros c Hc; apply Z.eqb_neq; now apply Hnone).
    reflexivity.
Qed.

Lemma raised_errors_are_answered_without_a_change_witness :
  main.delete_contact 7 john_and_jane
  = (main.HTTPException 404 "Contact not found", john_and_jane).
Proof.
  apply (proj2 (proj2 (proj2 (raised_errors_are_answered_without_a_change john_and_jane)))).
  - unfold sqlite_integer. lia.
  - intros c [<-|[<-|[]]]; discriminate.
Defined.
